(** * Duplex realtime audio session: the conversational view

    A shallow embedding of [ConversationalView] (the second document of
    [src/App.tsx]): the capture encoding of [onaudioprocess], the transcript
    updaters and the playback scheduling of [onmessage], [cleanup],
    [handleToggleConversation] and the callbacks handed to [ai.live.connect].

    Conventions.
    - Captured samples are rationals ([Q]): every finite float is one, and
      the handler only scales them by a power of two, which is exact.
    - Numbers that carry time (seconds) are binary64 numbers ([Binary64.t]):
      the handlers compare them and add them, and the sum is rounded.
    - Objects with identity (audio contexts, sessions, script processors,
      buffer sources, tracks) are natural numbers handed out by an allocator.
    - A handler is a function from the component's memory to an outcome, the
      new memory and the list of calls it made on the outside world. *)

From Stdlib Require Import ZArith QArith Qround Qpower Lqa Ascii String.
From stdpp Require Import base gmap sets list strings.

Local Open Scope Z_scope.

(** ** Capture encoding ([onaudioprocess], lines 297-311) *)

Module Codec.

(** Storing a number into an [Int16Array] element applies ECMAScript's
    ToInt16: truncate toward zero, reduce modulo 2^16, re-centre. *)
Definition truncate (x : Q) : Z := Z.quot (Qnum x) (Zpos (Qden x)).

Definition ToInt16 (x : Q) : Z :=
  let int := truncate x in
  let int16bit := int mod 65536 in
  if 32768 <=? int16bit then int16bit - 65536 else int16bit.

(** [int16[i] = inputData[i] * 32768] *)
Definition sample_to_int16 (s : Q) : Z := ToInt16 (s * 32768)%Q.

Definition Int16Array_from (inputData : list Q) : list Z :=
  sample_to_int16 <$> inputData.

(** [new Uint8Array(int16.buffer)]: the same storage read byte by byte, each
    element as its two's complement pattern, low byte first. *)
Definition int16_bytes (v : Z) : list Z :=
  let u := v mod 65536 in [u mod 256; u / 256].

Definition Uint8Array_of_buffer (int16 : list Z) : list Z :=
  int16 ≫= int16_bytes.

(** The conversion the specification describes: round to nearest, then
    clamp into the signed 16-bit range. *)
Definition spec_round (x : Q) : Z := Qfloor (x + (1 # 2))%Q.

Definition spec_clamp (z : Z) : Z := Z.max (-32768) (Z.min 32767 z).

Definition spec_sample_to_int16 (s : Q) : Z := spec_clamp (spec_round (s * 32768)%Q).

End Codec.

(** ** Numbers that carry time

    [audioContext.currentTime], [audioBuffer.duration] and
    [nextStartTimeRef.current] are binary64 numbers, and the [+=] of line 357
    rounds its result.  A finite double is named here by its place among the
    doubles in increasing order: for a double that is not negative this is
    its bit pattern read as an integer (the biased exponent times 2^52, plus
    the fraction), for a negative one the opposite of the place of its
    absolute value.  Minus zero is not told from zero.  The exponent is not
    capped: where the code would reach [Infinity] (a sum of 2^1024 seconds or
    more) the model goes on with the sum rounded to 53 bits. *)

Module Binary64.

Record t := of_bits { bits : Z }.

Definition pow2 (k : Z) : Q := (2 ^ k)%Q.

(** The number with bit pattern [a]: with biased exponent [E = a / 2^52] and
    fraction [F = a mod 2^52] it is [F * 2^-1074] when [E = 0] (subnormal)
    and [(2^52 + F) * 2^(E - 1075)] otherwise. *)
Definition magnitude (a : Z) : Q :=
  let e := Z.max 1 (a / 2 ^ 52) in
  (inject_Z (a - (e - 1) * 2 ^ 52) * pow2 (e - 1075))%Q.

Definition value (x : t) : Q :=
  if 0 <=? bits x then magnitude (bits x) else (- magnitude (- bits x))%Q.

(** For [q > 0], the [k] with [2^k <= q < 2^(k+1)]. *)
Definition ilog2 (q : Q) : Z :=
  let k := Z.log2 (Qnum q) - Z.log2 (Zpos (Qden q)) in
  if Qle_bool (pow2 k) q then k else k - 1.

(** For [q >= 0], the last double that is not above [q]. *)
Definition below (q : Q) : Z :=
  if Qle_bool q 0 then 0
  else
    let k := Z.max (ilog2 q) (-1022) in
    (k + 1022) * 2 ^ 52 + Qfloor (q * pow2 (52 - k)).

(** Round to nearest, ties to the double whose fraction is even. *)
Definition nearest (q : Q) : Z :=
  let n := below q in
  match (q - magnitude n ?= magnitude (n + 1) - q)%Q with
  | Lt => n
  | Gt => n + 1
  | Eq => if Z.even n then n else n + 1
  end.

(** The double a real number is rounded to. *)
Definition round (q : Q) : t :=
  of_bits (if Qle_bool 0 q then nearest q else - nearest (- q)).

Definition zero : t := of_bits 0.

(** [x + y] on numbers. *)
Definition add (x y : t) : t := round (value x + value y).

End Binary64.

Coercion Binary64.value : Binary64.t >-> Q.

(** ** Transcript entries (lines 215-219 and 316-339) *)

Inductive Speaker := user | model.

Global Instance Speaker_eq_dec : EqDecision Speaker.
Proof. solve_decision. Defined.

Record TranscriptEntry := mkEntry {
  speaker : Speaker;
  text : string;
  isFinal : bool
}.

(** [{ text, isFinal }] of an [inputTranscription] / [outputTranscription]. *)
Record Transcription := mkTranscription {
  fragment_text : string;
  fragment_isFinal : bool
}.

Module Transcript.

(** [prev[prev.length - 1]] of an empty array is [undefined], and
    [last?.speaker === 'user'] is then false. *)

(** The updater given to [setTranscripts] at lines 318-326. *)
Definition update_user (fr : Transcription) (prev : list TranscriptEntry)
  : list TranscriptEntry :=
  let last := prev !! (length prev - 1)%nat in
  match last with
  | Some l =>
      if bool_decide (speaker l = user) && negb (isFinal l) then
        <[(length prev - 1)%nat :=
            mkEntry (speaker l) (text l +:+ fragment_text fr) (fragment_isFinal fr)]> prev
      else prev ++ [mkEntry user (fragment_text fr) (fragment_isFinal fr)]
  | None => prev ++ [mkEntry user (fragment_text fr) (fragment_isFinal fr)]
  end.

(** The updater given to [setTranscripts] at lines 330-338. *)
Definition update_model (fr : Transcription) (prev : list TranscriptEntry)
  : list TranscriptEntry :=
  let last := prev !! (length prev - 1)%nat in
  match last with
  | Some l =>
      if bool_decide (speaker l = model) && negb (isFinal l) then
        <[(length prev - 1)%nat :=
            mkEntry (speaker l) (text l +:+ fragment_text fr) (fragment_isFinal fr)]> prev
      else prev ++ [mkEntry model (fragment_text fr) (fragment_isFinal fr)]
  | None => prev ++ [mkEntry model (fragment_text fr) (fragment_isFinal fr)]
  end.

(** Both updaters under one name, by speaker. *)
Definition append (sp : Speaker) (textFragment : string) (final : bool)
    (prev : list TranscriptEntry) : list TranscriptEntry :=
  match sp with
  | user => update_user (mkTranscription textFragment final) prev
  | model => update_model (mkTranscription textFragment final) prev
  end.

End Transcript.

(** ** The component's memory (lines 222-234)

    The five [useState] cells, the seven [useRef] cells, and the allocator
    that gives every object created by a handler its identity. *)

(** A [MediaStream] as far as the component uses it: its set of tracks. *)
Record MediaStream := mkStream {
  tracks : gset nat
}.

(** An [AudioBuffer] as far as the component uses it: its length in seconds. *)
Record AudioBuffer := mkBuffer {
  duration : Binary64.t
}.

Record ViewState := mkView {
  isConnecting : bool;
  isActive : bool;
  statusMessage : string;
  transcripts : list TranscriptEntry;
  error : option string;
  sessionPromiseRef : option nat;
  inputAudioContextRef : option nat;
  outputAudioContextRef : option nat;
  scriptProcessorRef : option nat;
  mediaStreamRef : option MediaStream;
  audioSourcesRef : gset nat;
  nextStartTimeRef : Binary64.t;
  nextObject : nat
}.

(** The state of a freshly mounted component. *)
Definition initial : ViewState :=
  {| isConnecting := false; isActive := false;
     statusMessage := "Press the microphone to start";
     transcripts := []; error := None;
     sessionPromiseRef := None; inputAudioContextRef := None;
     outputAudioContextRef := None; scriptProcessorRef := None;
     mediaStreamRef := None; audioSourcesRef := ∅;
     nextStartTimeRef := Binary64.zero; nextObject := 0%nat |}.

(** Field updates: the [setX] functions of [useState] and the assignments to
    [xRef.current]. *)
Definition with_isConnecting (v : bool) (s : ViewState) : ViewState :=
  {| isConnecting := v; isActive := isActive s;
     statusMessage := statusMessage s; transcripts := transcripts s;
     error := error s; sessionPromiseRef := sessionPromiseRef s;
     inputAudioContextRef := inputAudioContextRef s;
     outputAudioContextRef := outputAudioContextRef s;
     scriptProcessorRef := scriptProcessorRef s;
     mediaStreamRef := mediaStreamRef s; audioSourcesRef := audioSourcesRef s;
     nextStartTimeRef := nextStartTimeRef s; nextObject := nextObject s |}.

Definition with_isActive (v : bool) (s : ViewState) : ViewState :=
  {| isConnecting := isConnecting s; isActive := v;
     statusMessage := statusMessage s; transcripts := transcripts s;
     error := error s; sessionPromiseRef := sessionPromiseRef s;
     inputAudioContextRef := inputAudioContextRef s;
     outputAudioContextRef := outputAudioContextRef s;
     scriptProcessorRef := scriptProcessorRef s;
     mediaStreamRef := mediaStreamRef s; audioSourcesRef := audioSourcesRef s;
     nextStartTimeRef := nextStartTimeRef s; nextObject := nextObject s |}.

Definition with_statusMessage (v : string) (s : ViewState) : ViewState :=
  {| isConnecting := isConnecting s; isActive := isActive s;
     statusMessage := v; transcripts := transcripts s; error := error s;
     sessionPromiseRef := sessionPromiseRef s;
     inputAudioContextRef := inputAudioContextRef s;
     outputAudioContextRef := outputAudioContextRef s;
     scriptProcessorRef := scriptProcessorRef s;
     mediaStreamRef := mediaStreamRef s; audioSourcesRef := audioSourcesRef s;
     nextStartTimeRef := nextStartTimeRef s; nextObject := nextObject s |}.

Definition with_transcripts (v : list TranscriptEntry) (s : ViewState) : ViewState :=
  {| isConnecting := isConnecting s; isActive := isActive s;
     statusMessage := statusMessage s; transcripts := v; error := error s;
     sessionPromiseRef := sessionPromiseRef s;
     inputAudioContextRef := inputAudioContextRef s;
     outputAudioContextRef := outputAudioContextRef s;
     scriptProcessorRef := scriptProcessorRef s;
     mediaStreamRef := mediaStreamRef s; audioSourcesRef := audioSourcesRef s;
     nextStartTimeRef := nextStartTimeRef s; nextObject := nextObject s |}.

Definition with_error (v : option string) (s : ViewState) : ViewState :=
  {| isConnecting := isConnecting s; isActive := isActive s;
     statusMessage := statusMessage s; transcripts := transcripts s;
     error := v; sessionPromiseRef := sessionPromiseRef s;
     inputAudioContextRef := inputAudioContextRef s;
     outputAudioContextRef := outputAudioContextRef s;
     scriptProcessorRef := scriptProcessorRef s;
     mediaStreamRef := mediaStreamRef s; audioSourcesRef := audioSourcesRef s;
     nextStartTimeRef := nextStartTimeRef s; nextObject := nextObject s |}.

Definition with_sessionPromiseRef (v : option nat) (s : ViewState) : ViewState :=
  {| isConnecting := isConnecting s; isActive := isActive s;
     statusMessage := statusMessage s; transcripts := transcripts s;
     error := error s; sessionPromiseRef := v;
     inputAudioContextRef := inputAudioContextRef s;
     outputAudioContextRef := outputAudioContextRef s;
     scriptProcessorRef := scriptProcessorRef s;
     mediaStreamRef := mediaStreamRef s; audioSourcesRef := audioSourcesRef s;
     nextStartTimeRef := nextStartTimeRef s; nextObject := nextObject s |}.

Definition with_inputAudioContextRef (v : option nat) (s : ViewState) : ViewState :=
  {| isConnecting := isConnecting s; isActive := isActive s;
     statusMessage := statusMessage s; transcripts := transcripts s;
     error := error s; sessionPromiseRef := sessionPromiseRef s;
     inputAudioContextRef := v;
     outputAudioContextRef := outputAudioContextRef s;
     scriptProcessorRef := scriptProcessorRef s;
     mediaStreamRef := mediaStreamRef s; audioSourcesRef := audioSourcesRef s;
     nextStartTimeRef := nextStartTimeRef s; nextObject := nextObject s |}.

Definition with_outputAudioContextRef (v : option nat) (s : ViewState) : ViewState :=
  {| isConnecting := isConnecting s; isActive := isActive s;
     statusMessage := statusMessage s; transcripts := transcripts s;
     error := error s; sessionPromiseRef := sessionPromiseRef s;
     inputAudioContextRef := inputAudioContextRef s;
     outputAudioContextRef := v; scriptProcessorRef := scriptProcessorRef s;
     mediaStreamRef := mediaStreamRef s; audioSourcesRef := audioSourcesRef s;
     nextStartTimeRef := nextStartTimeRef s; nextObject := nextObject s |}.

Definition with_scriptProcessorRef (v : option nat) (s : ViewState) : ViewState :=
  {| isConnecting := isConnecting s; isActive := isActive s;
     statusMessage := statusMessage s; transcripts := transcripts s;
     error := error s; sessionPromiseRef := sessionPromiseRef s;
     inputAudioContextRef := inputAudioContextRef s;
     outputAudioContextRef := outputAudioContextRef s; scriptProcessorRef := v;
     mediaStreamRef := mediaStreamRef s; audioSourcesRef := audioSourcesRef s;
     nextStartTimeRef := nextStartTimeRef s; nextObject := nextObject s |}.

Definition with_mediaStreamRef (v : option MediaStream) (s : ViewState) : ViewState :=
  {| isConnecting := isConnecting s; isActive := isActive s;
     statusMessage := statusMessage s; transcripts := transcripts s;
     error := error s; sessionPromiseRef := sessionPromiseRef s;
     inputAudioContextRef := inputAudioContextRef s;
     outputAudioContextRef := outputAudioContextRef s;
     scriptProcessorRef := scriptProcessorRef s; mediaStreamRef := v;
     audioSourcesRef := audioSourcesRef s;
     nextStartTimeRef := nextStartTimeRef s; nextObject := nextObject s |}.

Definition with_audioSourcesRef (v : gset nat) (s : ViewState) : ViewState :=
  {| isConnecting := isConnecting s; isActive := isActive s;
     statusMessage := statusMessage s; transcripts := transcripts s;
     error := error s; sessionPromiseRef := sessionPromiseRef s;
     inputAudioContextRef := inputAudioContextRef s;
     outputAudioContextRef := outputAudioContextRef s;
     scriptProcessorRef := scriptProcessorRef s;
     mediaStreamRef := mediaStreamRef s; audioSourcesRef := v;
     nextStartTimeRef := nextStartTimeRef s; nextObject := nextObject s |}.

Definition with_nextStartTimeRef (v : Binary64.t) (s : ViewState) : ViewState :=
  {| isConnecting := isConnecting s; isActive := isActive s;
     statusMessage := statusMessage s; transcripts := transcripts s;
     error := error s; sessionPromiseRef := sessionPromiseRef s;
     inputAudioContextRef := inputAudioContextRef s;
     outputAudioContextRef := outputAudioContextRef s;
     scriptProcessorRef := scriptProcessorRef s;
     mediaStreamRef := mediaStreamRef s; audioSourcesRef := audioSourcesRef s;
     nextStartTimeRef := v; nextObject := nextObject s |}.

Definition with_nextObject (v : nat) (s : ViewState) : ViewState :=
  {| isConnecting := isConnecting s; isActive := isActive s;
     statusMessage := statusMessage s; transcripts := transcripts s;
     error := error s; sessionPromiseRef := sessionPromiseRef s;
     inputAudioContextRef := inputAudioContextRef s;
     outputAudioContextRef := outputAudioContextRef s;
     scriptProcessorRef := scriptProcessorRef s;
     mediaStreamRef := mediaStreamRef s; audioSourcesRef := audioSourcesRef s;
     nextStartTimeRef := nextStartTimeRef s; nextObject := v |}.

(** ** Calls on the outside world *)

Inductive Failure :=
  | DecodeError        (* thrown by [decode] / [decodeAudioData] *)
  | TypeError          (* property access on [null] *)
  | DeviceUnavailable  (* [getUserMedia] rejected *)
  | ErrorEvent.        (* what [onerror] receives *)

Inductive Effect :=
  | getUserMedia (req : nat)
  | track_stop (t : nat)
  | context_new (ctx : nat) (sampleRate : Z)
  | context_close (ctx : nat)
  | processor_connect (p ctx : nat) (stream : MediaStream)
  | processor_disconnect (p : nat)
  | source_start (src ctx : nat) (when : Binary64.t) (buffer : AudioBuffer)
  | source_stop (src : nat)
  | live_connect (sess : nat)
  | session_close (sess : nat)
  | sendRealtimeInput (sess : nat) (data mimeType : string)
  | console_error (e : Failure).

(** ** Handlers: state, effects and exceptions *)

Inductive Outcome (A : Type) :=
  | Returned (a : A)
  | Thrown (e : Failure).
Arguments Returned {A} a.
Arguments Thrown {A} e.

Definition Handler (A : Type) : Type :=
  ViewState → Outcome A * ViewState * list Effect.

Definition ret {A} (a : A) : Handler A := λ s, (Returned a, s, []).

Definition bind {A B} (m : Handler A) (k : A → Handler B) : Handler B :=
  λ s, match m s with
       | (Returned a, s1, out1) =>
           let '(r, s2, out2) := k a s1 in (r, s2, out1 ++ out2)
       | (Thrown e, s1, out1) => (Thrown e, s1, out1)
       end.

Declare Scope handler_scope.
Delimit Scope handler_scope with handler.
Notation "'let*' x ':=' m 'in' k" := (bind m (λ x, k))
  (at level 10, x name, m at level 100, k at level 200, only parsing)
  : handler_scope.
Notation "m ';;' k" := (bind m (λ _, k))
  (at level 100, k at level 200, right associativity, only parsing)
  : handler_scope.
Local Open Scope handler_scope.

Definition read {A} (field : ViewState → A) : Handler A :=
  λ s, (Returned (field s), s, []).

Definition write (upd : ViewState → ViewState) : Handler unit :=
  λ s, (Returned (), upd s, []).

Definition call (e : Effect) : Handler unit :=
  λ s, (Returned (), s, [e]).

Definition throw {A} (e : Failure) : Handler A :=
  λ s, (Thrown e, s, []).

(** [try { body } catch (e) { handler }] *)
Definition try_catch {A} (body : Handler A) (handler : Failure → Handler A)
  : Handler A :=
  λ s, match body s with
       | (Returned a, s1, out1) => (Returned a, s1, out1)
       | (Thrown e, s1, out1) =>
           let '(r, s2, out2) := handler e s1 in (r, s2, out1 ++ out2)
       end.

(** A helper that may throw: [None] is the exception. *)
Definition attempt {A} (e : Failure) (r : option A) : Handler A :=
  match r with
  | Some a => ret a
  | None => throw e
  end.

(** [o?.m()] *)
Definition optional {A} (o : option A) (k : A → Handler unit) : Handler unit :=
  match o with
  | Some a => k a
  | None => ret ()
  end.

(** [xs.forEach(x => k x)] over the members in the order [xs] lists them.
    A JavaScript [Set] is visited in insertion order; the finite sets used
    here list their members in an order of their own ([elements]).  Only the
    order of the stop calls among themselves differs. *)
Fixpoint forEach {A} (xs : list A) (k : A → Handler unit) : Handler unit :=
  match xs with
  | [] => ret ()
  | x :: rest => k x ;; forEach rest k
  end.

(** A newly created object. *)
Definition new_object : Handler nat :=
  λ s, (Returned (nextObject s), with_nextObject (S (nextObject s)) s, []).

(** The state and the effects a handler leaves behind. *)
Definition state_after {A} (r : Outcome A * ViewState * list Effect) : ViewState :=
  r.1.2.
Definition effects_of {A} (r : Outcome A * ViewState * list Effect) : list Effect :=
  r.2.
Definition outcome_of {A} (r : Outcome A * ViewState * list Effect) : Outcome A :=
  r.1.1.

(** [Math.max] on two finite numbers. *)
Definition Math_max (a b : Binary64.t) : Binary64.t :=
  if Qle_bool a b then b else a.

(** A string is truthy unless empty; a missing field is falsy. *)
Definition truthy (o : option string) : option string :=
  match o with
  | Some s => if bool_decide (s = "") then None else Some s
  | None => None
  end.

(** [message.serverContent] as far as [onmessage] reads it. *)
Record LiveServerMessage := mkMessage {
  inputTranscription : option Transcription;
  outputTranscription : option Transcription;
  inlineData : option string;  (* [modelTurn?.parts?.[0]?.inlineData?.data] *)
  interrupted : bool
}.

(** ** The handlers of [ConversationalView] *)

Section Handlers.

(** [decode], [decodeAudioData] and [encode] come from [utils/audioUtils],
    which is not among the sources at hand; they are parameters.  [decode]
    turns the base64 text into bytes and [decodeAudioData] turns bytes into an
    audio buffer for a sample rate and channel count; either may throw, which
    is [None].  [encode] turns bytes into text. *)
Variable decode : string → option (list Z).
Variable decodeAudioData : list Z → Z → Z → option AudioBuffer.
Variable encode : list Z → string.

(** [cleanup], lines 236-257.  [session.close()] runs when the session
    promise settles; the request is recorded where [cleanup] registers it. *)
Definition cleanup : Handler unit :=
  write (with_isConnecting false) ;;
  write (with_isActive false) ;;

  let* stream := read mediaStreamRef in
  optional stream (λ ms, forEach (elements (tracks ms)) (λ track, call (track_stop track))) ;;
  write (with_mediaStreamRef None) ;;

  let* processor := read scriptProcessorRef in
  optional processor (λ p, call (processor_disconnect p)) ;;
  write (with_scriptProcessorRef None) ;;

  let* input := read inputAudioContextRef in
  optional input (λ ctx, call (context_close ctx)) ;;
  let* output := read outputAudioContextRef in
  optional output (λ ctx, call (context_close ctx)) ;;
  write (with_inputAudioContextRef None) ;;
  write (with_outputAudioContextRef None) ;;

  let* sources := read audioSourcesRef in
  forEach (elements sources) (λ source, call (source_stop source)) ;;
  write (with_audioSourcesRef ∅) ;;
  write (with_nextStartTimeRef Binary64.zero) ;;

  let* session := read sessionPromiseRef in
  optional session (λ sess, call (session_close sess)) ;;
  write (with_sessionPromiseRef None).

(** [handleToggleConversation] up to its [await], lines 259-272.  The result
    is the pending [getUserMedia] request, if the handler got that far.
    [isActive] is the value of the last render, taken to be the current one. *)
Definition handleToggleConversation : Handler (option nat) :=
  let* active := read isActive in
  if active : bool then
    cleanup ;;
    write (with_statusMessage "Session ended. Press the microphone to start again.") ;;
    ret None
  else
    write (with_isConnecting true) ;;
    write (with_error None) ;;
    write (with_transcripts []) ;;
    write (with_statusMessage "Connecting to Gemini and requesting microphone...") ;;
    let* req := new_object in
    call (getUserMedia req) ;;
    ret (Some req).

(** [handleToggleConversation] from the [await] on, lines 272-385: the [try]
    body once [getUserMedia] has settled with [granted], and the [catch].
    The result is the session whose callbacks were registered.  Creating an
    audio context and calling [ai.live.connect] (an async function) are taken
    not to throw. *)
Definition handleToggleConversation_resume (granted : option MediaStream)
  : Handler (option nat) :=
  try_catch
    (let* stream := attempt DeviceUnavailable granted in
     write (with_mediaStreamRef (Some stream)) ;;

     let* input := new_object in
     call (context_new input 16000) ;;
     write (with_inputAudioContextRef (Some input)) ;;
     let* output := new_object in
     call (context_new output 24000) ;;
     write (with_outputAudioContextRef (Some output)) ;;

     let* sess := new_object in
     call (live_connect sess) ;;
     write (with_sessionPromiseRef (Some sess)) ;;
     ret (Some sess))
    (λ e,
     call (console_error e) ;;
     write (with_error (Some "Could not start the microphone. Please check permissions and try again.")) ;;
     cleanup ;;
     write (with_statusMessage "Error. Press microphone to retry.") ;;
     ret None).

(** [onopen], lines 289-314, for the call whose stream is [stream]. *)
Definition onopen (stream : MediaStream) : Handler unit :=
  write (with_isConnecting false) ;;
  write (with_isActive true) ;;
  write (with_statusMessage "Listening... Speak now.") ;;
  let* input := read inputAudioContextRef in
  let* ctx := attempt TypeError input in
  let* scriptProcessor := new_object in
  write (with_scriptProcessorRef (Some scriptProcessor)) ;;
  call (processor_connect scriptProcessor ctx stream).

(** [onaudioprocess], lines 297-311.  The send runs when the session promise
    settles; it is recorded where the handler registers it. *)
Definition onaudioprocess (inputData : list Q) : Handler unit :=
  let int16 := Codec.Int16Array_from inputData in
  let data := encode (Codec.Uint8Array_of_buffer int16) in
  let mimeType := "audio/pcm;rate=16000" in
  let* session := read sessionPromiseRef in
  optional session (λ sess, call (sendRealtimeInput sess data mimeType)).

(** The audio part of [onmessage], lines 341-359, with [currentTime] the
    reading of [audioContext.currentTime] at line 345. *)
Definition enqueue (base64Audio : string) (audioContext : nat)
    (currentTime : Binary64.t)
  : Handler unit :=
  write (with_statusMessage "AI is speaking...") ;;
  let* cursor := read nextStartTimeRef in
  write (with_nextStartTimeRef (Math_max cursor currentTime)) ;;
  let* bytes := attempt DecodeError (decode base64Audio) in
  let* audioBuffer := attempt DecodeError (decodeAudioData bytes 24000 1) in
  let* source := new_object in
  let* startAt := read nextStartTimeRef in
  call (source_start source audioContext startAt audioBuffer) ;;
  write (with_nextStartTimeRef (Binary64.add startAt (duration audioBuffer))) ;;
  let* sources := read audioSourcesRef in
  write (with_audioSourcesRef (sources ∪ {[source]})).

(** The interruption part of [onmessage], lines 361-365. *)
Definition interrupt : Handler unit :=
  let* sources := read audioSourcesRef in
  forEach (elements sources) (λ source, call (source_stop source)) ;;
  write (with_audioSourcesRef ∅) ;;
  write (with_nextStartTimeRef Binary64.zero).

(** The transcript part of [onmessage], lines 316-339. *)
Definition transcribe (message : LiveServerMessage) : Handler unit :=
  optional (inputTranscription message) (λ fr,
    let* prev := read transcripts in
    write (with_transcripts (Transcript.update_user fr prev))) ;;
  optional (outputTranscription message) (λ fr,
    let* prev := read transcripts in
    write (with_transcripts (Transcript.update_model fr prev))).

(** [onmessage], lines 315-366.  The [await] at line 346 is taken to resume
    before another handler runs, as it does for an async [decodeAudioData]
    that does not itself wait for anything. *)
Definition onmessage (message : LiveServerMessage) (currentTime : Binary64.t)
  : Handler unit :=
  transcribe message ;;

  let* output := read outputAudioContextRef in
  match truthy (inlineData message), output with
  | Some base64Audio, Some audioContext => enqueue base64Audio audioContext currentTime
  | _, _ => ret ()
  end ;;

  if interrupted message then interrupt else ret ().

(** The ['ended'] listener of a source, lines 350-355. *)
Definition onended (source : nat) : Handler unit :=
  let* sources := read audioSourcesRef in
  write (with_audioSourcesRef (sources ∖ {[source]})) ;;
  let* sources := read audioSourcesRef in
  if bool_decide (size sources = 0%nat)
  then write (with_statusMessage "Listening...")
  else ret ().

(** [onerror], lines 367-372. *)
Definition onerror : Handler unit :=
  call (console_error ErrorEvent) ;;
  write (with_error (Some "An error occurred during the session. Please try again.")) ;;
  cleanup ;;
  write (with_statusMessage "Error. Press microphone to retry.").

(** [onclose], lines 373-376. *)
Definition onclose : Handler unit :=
  cleanup ;;
  write (with_statusMessage "Session closed. Press microphone to start again.").

End Handlers.

(** ** The event loop

    Handlers run one at a time, each to its next [await].  The world around
    the component keeps what the handlers cannot see: which [getUserMedia]
    requests are still pending, which sessions can still call back (with the
    stream their callbacks closed over), and which device resources have been
    handed out and not yet given back. *)

Record World := mkWorld {
  component : ViewState;
  mounted : bool;
  pending : gset nat;              (* [getUserMedia] requests not settled *)
  sessions : gmap nat MediaStream; (* sessions whose socket has not closed *)
  liveTracks : gset nat;           (* microphone tracks granted, not stopped *)
  liveContexts : gset nat;         (* audio contexts created, not closed *)
  processors : gset nat;           (* script processors connected *)
  playing : gset nat;              (* sources started, ['ended'] not yet fired *)
  history : list Effect            (* every call made so far, oldest first *)
}.

Definition boot : World :=
  {| component := initial; mounted := true; pending := ∅; sessions := ∅;
     liveTracks := ∅; liveContexts := ∅; processors := ∅; playing := ∅;
     history := [] |}.

(** What one call does to the resources of the outside world. *)
Definition account (w : World) (e : Effect) : World :=
  let 'mkWorld c m pd ss lt lc pr pl h := w in
  match e with
  | getUserMedia req => mkWorld c m (pd ∪ {[req]}) ss lt lc pr pl (h ++ [e])
  | track_stop t => mkWorld c m pd ss (lt ∖ {[t]}) lc pr pl (h ++ [e])
  | context_new ctx _ => mkWorld c m pd ss lt (lc ∪ {[ctx]}) pr pl (h ++ [e])
  | context_close ctx => mkWorld c m pd ss lt (lc ∖ {[ctx]}) pr pl (h ++ [e])
  | processor_connect p _ _ => mkWorld c m pd ss lt lc (pr ∪ {[p]}) pl (h ++ [e])
  | processor_disconnect p => mkWorld c m pd ss lt lc (pr ∖ {[p]}) pl (h ++ [e])
  | source_start src _ _ _ => mkWorld c m pd ss lt lc pr (pl ∪ {[src]}) (h ++ [e])
  | source_stop _ | live_connect _ | session_close _
  | sendRealtimeInput _ _ _ | console_error _ =>
      mkWorld c m pd ss lt lc pr pl (h ++ [e])
  end.

Definition with_component (s : ViewState) (w : World) : World :=
  mkWorld s (mounted w) (pending w) (sessions w) (liveTracks w) (liveContexts w)
          (processors w) (playing w) (history w).

(** Run a handler on the component and account for the calls it made. *)
Definition dispatch {A} (h : Handler A) (w : World) : Outcome A * World :=
  let '(r, s, out) := h (component w) in
  (r, foldl account (with_component s w) out).

Inductive Event :=
  | Click                                  (* the microphone button *)
  | MicGranted (req : nat) (stream : MediaStream)
  | MicDenied (req : nat)
  | TransportOpen (sess : nat)
  | TransportMessage (sess : nat) (message : LiveServerMessage)
      (currentTime : Binary64.t)
  | TransportError (sess : nat)
  | TransportClose (sess : nat)
  | AudioProcess (p : nat) (inputData : list Q)
  | SourceEnded (src : nat)
  | Unmount.

Section EventLoop.

Variable decode : string → option (list Z).
Variable decodeAudioData : list Z → Z → Z → option AudioBuffer.
Variable encode : list Z → string.

(** [getUserMedia] request [req] settles: it leaves the pending set, a granted
    stream's tracks become live, and the rest of [handleToggleConversation]
    runs.  A session it connects can call back from now on. *)
Definition settle (req : nat) (granted : option MediaStream) (w : World) : World :=
  let 'mkWorld c m pd ss lt lc pr pl h := w in
  let lt' := match granted with Some ms => lt ∪ tracks ms | None => lt end in
  let '(r, w') := dispatch (handleToggleConversation_resume granted)
                           (mkWorld c m (pd ∖ {[req]}) ss lt' lc pr pl h) in
  match r, granted with
  | Returned (Some sess), Some ms =>
      let 'mkWorld c m pd ss lt lc pr pl h := w' in
      mkWorld c m pd (<[sess := ms]> ss) lt lc pr pl h
  | _, _ => w'
  end.

(** One turn of the event loop; [None] when the event cannot occur in [w]:
    the button is disabled while [isConnecting] (line 414) and gone after
    unmount, a request settles once, only a session whose socket has not
    closed calls back, only a connected processor delivers audio, and only a
    started source ends.  A socket reports its close once, whether the remote
    side closed it or [session.close()] did, so [onclose] also follows a
    [cleanup] that closed the session. *)
Definition step (w : World) (ev : Event) : option World :=
  match ev with
  | Click =>
      if mounted w && negb (isConnecting (component w))
      then Some (dispatch handleToggleConversation w).2
      else None
  | MicGranted req stream =>
      if bool_decide (req ∈ pending w) then Some (settle req (Some stream) w) else None
  | MicDenied req =>
      if bool_decide (req ∈ pending w) then Some (settle req None w) else None
  | TransportOpen sess =>
      stream ← sessions w !! sess;
      Some (dispatch (onopen stream) w).2
  | TransportMessage sess message currentTime =>
      _ ← sessions w !! sess;
      Some (dispatch (onmessage decode decodeAudioData message currentTime) w).2
  | TransportError sess =>
      _ ← sessions w !! sess;
      Some (dispatch onerror w).2
  | TransportClose sess =>
      _ ← sessions w !! sess;
      let 'mkWorld c m pd ss lt lc pr pl h := (dispatch onclose w).2 in
      Some (mkWorld c m pd (delete sess ss) lt lc pr pl h)
  | AudioProcess p inputData =>
      if bool_decide (p ∈ processors w)
      then Some (dispatch (onaudioprocess encode inputData) w).2
      else None
  | SourceEnded src =>
      if bool_decide (src ∈ playing w)
      then let 'mkWorld c m pd ss lt lc pr pl h := (dispatch (onended src) w).2 in
           Some (mkWorld c m pd ss lt lc pr (pl ∖ {[src]}) h)
      else None
  | Unmount =>
      if mounted w
      then let 'mkWorld c m pd ss lt lc pr pl h := (dispatch cleanup w).2 in
           Some (mkWorld c false pd ss lt lc pr pl h)
      else None
  end.

(** A run of the event loop from [w]. *)
Fixpoint run (w : World) (evs : list Event) : option World :=
  match evs with
  | [] => Some w
  | ev :: rest => w' ← step w ev; run w' rest
  end.

End EventLoop.

(** ** Reference codec

    [utils/audioUtils] is missing from the sources; section 4.1 of the
    specification gives its contract.  The handlers above take its functions
    as parameters; the definitions here serve to run them on concrete
    inputs. *)

Module Reference.

Definition alphabet : list ascii :=
  list_ascii_of_string
    "ABCDEFGHIJKLMNOPQRSTUVWXYZabcdefghijklmnopqrstuvwxyz0123456789+/".

Fixpoint position (c : ascii) (cs : list ascii) : option Z :=
  match cs with
  | [] => None
  | c' :: rest => if bool_decide (c = c') then Some 0 else Z.succ <$> position c rest
  end.

Definition digit (c : ascii) : option Z := position c alphabet.

Definition pad : ascii := "="%char.

(** Four characters carry three bytes; padding shortens the last group. *)
Fixpoint decode_chars (fuel : nat) (cs : list ascii) : option (list Z) :=
  match fuel, cs with
  | _, [] => Some []
  | S _, [a; b; c; d] =>
      va ← digit a; vb ← digit b;
      let b0 := va * 4 + vb / 16 in
      if bool_decide (c = pad) then
        if bool_decide (d = pad) then Some [b0] else None
      else
        vc ← digit c;
        let b1 := (vb mod 16) * 16 + vc / 4 in
        if bool_decide (d = pad) then Some [b0; b1]
        else vd ← digit d; Some [b0; b1; (vc mod 4) * 64 + vd]
  | S fuel, a :: b :: c :: d :: rest =>
      va ← digit a; vb ← digit b; vc ← digit c; vd ← digit d;
      tail ← decode_chars fuel rest;
      Some (va * 4 + vb / 16 :: (vb mod 16) * 16 + vc / 4 :: (vc mod 4) * 64 + vd :: tail)
  | _, _ => None
  end.

(** Modelled from the spec: [decode] of [utils/audioUtils] reads the
    text-safe (base64) encoding and fails when it is malformed. *)
Definition decode (base64 : string) : option (list Z) :=
  let cs := list_ascii_of_string base64 in decode_chars (length cs) cs.

(** Modelled from the spec: [decodeAudioData] of [utils/audioUtils] fails
    unless the byte length is a multiple of the sample width (two bytes) and
    yields a buffer whose length in seconds is its frame count over the
    sample rate, as a number. *)
Definition decodeAudioData (data : list Z) (sampleRate numChannels : Z)
  : option AudioBuffer :=
  if bool_decide (Z.of_nat (length data) mod 2 = 0) then
    let frameCount := Z.of_nat (length data) / 2 / numChannels in
    Some {| duration := Binary64.round (frameCount # Z.to_pos sampleRate) |}
  else None.

Definition letter (v : Z) : ascii := default pad (alphabet !! Z.to_nat v).

Fixpoint encode_bytes (bytes : list Z) : list ascii :=
  match bytes with
  | [] => []
  | [b0] => [letter (b0 / 4); letter ((b0 mod 4) * 16); pad; pad]
  | [b0; b1] =>
      [letter (b0 / 4); letter ((b0 mod 4) * 16 + b1 / 16);
       letter ((b1 mod 16) * 4); pad]
  | b0 :: b1 :: b2 :: rest =>
      letter (b0 / 4) :: letter ((b0 mod 4) * 16 + b1 / 16)
      :: letter ((b1 mod 16) * 4 + b2 / 64) :: letter (b2 mod 64)
      :: encode_bytes rest
  end.

(** Modelled from the spec: [encode] of [utils/audioUtils] writes bytes in
    the text-safe (base64) encoding. *)
Definition encode (bytes : list Z) : string :=
  string_of_list_ascii (encode_bytes bytes).

End Reference.

(** ** Observations on handlers and runs *)

(** The starts a list of effects schedules, in order: start time and length. *)
Definition scheduled (out : list Effect) : list (Binary64.t * Binary64.t) :=
  out ≫= λ e, match e with
              | source_start _ _ startAt buffer => [(startAt, duration buffer)]
              | _ => []
              end.

(** A plan whose first start is not before [from] and in which every start
    is not before the cursor that the chunk scheduled just before it left:
    that chunk's start plus its length, as line 357 adds them. *)
Fixpoint back_to_back (from : Binary64.t) (plan : list (Binary64.t * Binary64.t))
  : Prop :=
  match plan with
  | [] => True
  | (startAt, length) :: rest =>
      (from <= startAt)%Q ∧ (0 <= length)%Q
      ∧ back_to_back (Binary64.add startAt length) rest
  end.

(** The device and transport resources a handler can give back. *)
Inductive Resource :=
  | a_track (t : nat)
  | a_processor (p : nat)
  | a_context (ctx : nat)
  | a_source (src : nat)
  | a_session (sess : nat).

Definition release_of (e : Effect) : option Resource :=
  match e with
  | track_stop t => Some (a_track t)
  | processor_disconnect p => Some (a_processor p)
  | context_close ctx => Some (a_context ctx)
  | source_stop src => Some (a_source src)
  | session_close sess => Some (a_session sess)
  | _ => None
  end.

Definition released (out : list Effect) : list Resource := omap release_of out.

(** What the refs of a state hold, ref by ref in the order of [cleanup]. *)
Definition held (s : ViewState) : list Resource :=
  (a_track <$> from_option (λ ms, elements (tracks ms)) [] (mediaStreamRef s))
  ++ (a_processor <$> option_list (scriptProcessorRef s))
  ++ (a_context <$> option_list (inputAudioContextRef s))
  ++ (a_context <$> option_list (outputAudioContextRef s))
  ++ (a_source <$> elements (audioSourcesRef s))
  ++ (a_session <$> option_list (sessionPromiseRef s)).

(** Calls that open the transport or send on it. *)
Definition uses_transport (e : Effect) : bool :=
  match e with
  | live_connect _ | sendRealtimeInput _ _ _ => true
  | _ => false
  end.

Definition logs (e : Effect) : bool :=
  match e with
  | console_error _ => true
  | _ => false
  end.

(** Events whose handler reaches the interruption part of [onmessage]
    ([interruption]) or calls [cleanup] ([teardown]). *)
Definition interruption (ev : Event) : bool :=
  match ev with
  | TransportMessage _ message _ => interrupted message
  | _ => false
  end.

Definition teardown (w : World) (ev : Event) : bool :=
  match ev with
  | Click => isActive (component w)
  | MicDenied _ | TransportError _ | TransportClose _ | Unmount => true
  | _ => false
  end.

Definition cursor (w : World) : Binary64.t := nextStartTimeRef (component w).

(** Events whose handler neither reaches the interruption part nor calls
    [cleanup]. *)
Definition plays_on (ev : Event) : bool :=
  match ev with
  | MicGranted _ _ | TransportOpen _ | AudioProcess _ _ | SourceEnded _ => true
  | TransportMessage _ message _ => negb (interrupted message)
  | Click | MicDenied _ | TransportError _ | TransportClose _ | Unmount => false
  end.

Section Feeding.

Variable decode : string → option (list Z).
Variable decodeAudioData : list Z → Z → Z → option AudioBuffer.

(** [onmessage] on each message in turn, with the clock reading it finds;
    a handler that throws ends there and the next message is handled from
    the state it left. *)
Fixpoint feed (inbound : list (LiveServerMessage * Binary64.t)) (s : ViewState)
  : ViewState * list Effect :=
  match inbound with
  | [] => (s, [])
  | (message, currentTime) :: rest =>
      let '(_, s1, out1) := onmessage decode decodeAudioData message currentTime s in
      let '(s2, out2) := feed rest s1 in
      (s2, out1 ++ out2)
  end.

End Feeding.

(** ** Sample data *)

Module Sample.

(** Two bytes per frame at 24 kHz: four frames, then two. *)
Definition chunk_a : string := "AAECAwQFBgc=".
Definition chunk_b : string := "AAEC/w==".
(** Not base64. *)
Definition malformed : string := "!!!!".

Definition audio (base64 : string) : LiveServerMessage :=
  mkMessage None None (Some base64) false.

Definition interrupted_only : LiveServerMessage :=
  mkMessage None None None true.

Definition microphone (t : nat) : MediaStream := mkStream {[t]}.

(** An active session as [onopen] leaves it, two sources in flight. *)
Definition active : ViewState :=
  {| isConnecting := false; isActive := true;
     statusMessage := "AI is speaking...";
     transcripts := [mkEntry user "Hello" true; mkEntry model "Hi" false];
     error := None;
     sessionPromiseRef := Some 3%nat; inputAudioContextRef := Some 1%nat;
     outputAudioContextRef := Some 2%nat; scriptProcessorRef := Some 4%nat;
     mediaStreamRef := Some (microphone 10);
     audioSourcesRef := {[5%nat; 6%nat]};
     nextStartTimeRef := Binary64.round (5 # 2); nextObject := 7%nat |}.

(** The world around [active]. *)
Definition world : World :=
  mkWorld active true ∅ {[3%nat := microphone 10]} {[10%nat]}
          {[1%nat; 2%nat]} {[4%nat]} {[5%nat; 6%nat]} [].

(** A valid chunk arrives at clock reading 3. *)
Definition chunk_arrives : Event :=
  TransportMessage 3 (audio chunk_a) (Binary64.round 3).

Definition world_after_chunk : World :=
  Eval vm_compute in
    default world
      (step Reference.decode Reference.decodeAudioData Reference.encode
            world chunk_arrives).

(** A session is started, opened and stopped; the button is pressed again
    and, while that request for the microphone is pending, the socket of the
    stopped session reports its close; the button, enabled again, is pressed
    once more; both requests are then granted and both connections open. *)
Definition restart_race : list Event :=
  [Click; MicGranted 0 (microphone 10); TransportOpen 3;
   Click;
   Click;
   TransportClose 3;
   Click;
   MicGranted 5 (microphone 20);
   MicGranted 6 (microphone 30);
   TransportOpen 9;
   TransportOpen 12].

(** A session is started, opened and plays one chunk. *)
Definition one_chunk_played : list Event :=
  [Click; MicGranted 0 (microphone 10); TransportOpen 3;
   TransportMessage 3 (audio chunk_a) (Binary64.round (1 # 2))].

End Sample.

(** ** Further observations *)

(** All the text of a transcript, in order. *)
Definition transcript_text (entries : list TranscriptEntry) : string :=
  foldr (λ e rest, text e +:+ rest) "" entries.

(** The transcript built from nothing by a list of fragments. *)
Definition replay (fragments : list (Speaker * string * bool))
  : list TranscriptEntry :=
  foldl (λ prev fr, Transcript.append fr.1.1 fr.1.2 fr.2 prev) [] fragments.

(** Entries that sit next to each other under one speaker are split by a
    final flag on the earlier one. *)
Definition turns_closed (entries : list TranscriptEntry) : Prop :=
  ∀ i e1 e2, entries !! i = Some e1 → entries !! S i = Some e2 →
             speaker e1 = speaker e2 → isFinal e1 = true.

(** The sources a list of calls starts. *)
Definition started_sources (calls : list Effect) : gset nat :=
  list_to_set (calls ≫= λ e, match e with
                             | source_start src _ _ _ => [src]
                             | _ => []
                             end).

(** The [stop()] calls made on a source that no earlier call had started,
    given the sources [seen] started beforehand. *)
Fixpoint unstarted_stops (seen : gset nat) (calls : list Effect) : list nat :=
  match calls with
  | [] => []
  | source_start src _ _ _ :: rest => unstarted_stops (seen ∪ {[src]}) rest
  | source_stop src :: rest =>
      (if bool_decide (src ∈ seen) then [] else [src]) ++ unstarted_stops seen rest
  | _ :: rest => unstarted_stops seen rest
  end.

(** Calls that neither start nor stop a source. *)
Definition off_stage (e : Effect) : bool :=
  match e with
  | source_start _ _ _ _ | source_stop _ => false
  | _ => true
  end.

(** Calls that ask for the microphone. *)
Definition requests (e : Effect) : bool :=
  match e with
  | getUserMedia _ => true
  | _ => false
  end.

(** What every turn of the event loop keeps: the two context refs never hold
    the same context, every source in flight has been started, no source was
    stopped before it was started, and the session ref points at a session
    whose socket has not closed. *)
Definition consistent (w : World) : Prop :=
  (∀ ctx, inputAudioContextRef (component w) = Some ctx →
          outputAudioContextRef (component w) ≠ Some ctx)
  ∧ audioSourcesRef (component w) ⊆ started_sources (history w)
  ∧ unstarted_stops ∅ (history w) = []
  ∧ (∀ sess, sessionPromiseRef (component w) = Some sess →
             is_Some (sessions w !! sess)).

(** ** Further sample data *)

Module Scenario.

(** One chunk is played and the remote side then signals a barge-in. *)
Definition barge_in : list Event :=
  Sample.one_chunk_played
  ++ [TransportMessage 3 Sample.interrupted_only (Binary64.round 1)].

Definition after_barge_in : World :=
  Eval vm_compute in
    default boot
      (run Reference.decode Reference.decodeAudioData Reference.encode
           boot barge_in).

(** The capture callback then delivers two samples. *)
Definition frame : Event := AudioProcess 4 [0; 1 # 2]%Q.

Definition after_frame : World :=
  Eval vm_compute in
    default boot
      (step Reference.decode Reference.decodeAudioData Reference.encode
            after_barge_in frame).

(** Two chunks with an ended source and a captured frame in between. *)
Definition two_chunks : list Event :=
  [TransportMessage 3 (Sample.audio Sample.chunk_a) (Binary64.round 3);
   SourceEnded 5;
   AudioProcess 4 [0; 1 # 2]%Q;
   TransportMessage 3 (Sample.audio Sample.chunk_b) (Binary64.round 3)].

Definition after_two_chunks : World :=
  Eval vm_compute in
    default boot
      (run Reference.decode Reference.decodeAudioData Reference.encode
           Sample.world two_chunks).

End Scenario.

(** ** The Gemini service ([src/services/geminiService.ts])

    Each of the two functions makes one request and awaits the answer; it is
    modelled as that request together with what the function does once the
    answer is there.  The answer of [ai.models.generateContent] is an input. *)

Module Service.

(** What [generateContent] is asked: the model, the text sent as [contents],
    and the voice when the [config] asks for audio. *)
Record Request := mkRequest {
  request_model : string;
  contents : string;
  voiceName : option string
}.

(** The response as far as the two functions read it. *)
Record Blob := mkBlob { data : option string }.
Record Part := mkPart { inlineData : option Blob }.
Record Content := mkContent { parts : option (list Part) }.
Record Candidate := mkCandidate { content : option Content }.
Record GenerateContentResponse := mkResponse {
  text : string;
  candidates : option (list Candidate)
}.

Inductive Reply :=
  | Resolved (response : GenerateContentResponse)
  | Rejected.

(** What is thrown or logged: the rejection of the request, or an [Error]
    with its message. *)
Inductive Cause :=
  | ApiFailure
  | Error (message : string).

(** [console.error(label, cause)] *)
Record Log := mkLog { label : string; cause : Cause }.

Inductive Result (A : Type) :=
  | Ok (a : A)
  | Raised (message : string).
Arguments Ok {A} a.
Arguments Raised {A} message.

Record Call (A : Type) := mkCall {
  request : Request;
  settle : Reply → list Log * Result A
}.
Arguments mkCall {A} request settle.
Arguments request {A} c.
Arguments settle {A} c reply.

(** The template literal of line 14. *)
Definition prompt (articleText : string) : string :=
  "Summarize this news article into a concise, easy-to-listen-to paragraph, as if for a radio news brief. Focus on the key facts and outcomes. Article:

" +:+ articleText.

(** [summarizeArticle], lines 12-26. *)
Definition summarizeArticle (articleText : string) : Call string :=
  {| request := {| request_model := "gemini-2.5-flash";
                   contents := prompt articleText;
                   voiceName := None |};
     settle := λ reply,
       match reply with
       | Resolved response => ([], Ok (text response))
       | Rejected =>
           ([mkLog "Error in summarizeArticle:" ApiFailure],
            Raised "Failed to get summary from Gemini API.")
       end |}.

(** [response.candidates?.[0]?.content?.parts?.[0]?.inlineData?.data] *)
Definition first_audio (response : GenerateContentResponse) : option string :=
  cs ← candidates response; c ← head cs; ct ← content c;
  ps ← parts ct; p ← head ps; blob ← inlineData p; data blob.

(** [generateSpeech], lines 28-53.  The [Error] thrown at line 45 is caught
    at line 49 like a rejection of the request. *)
Definition generateSpeech (text : string) : Call string :=
  {| request := {| request_model := "gemini-2.5-flash-preview-tts";
                   contents :=
                     "Say with a clear and professional news-reader voice: " +:+ text;
                   voiceName := Some "Kore" |};
     settle := λ reply,
       match reply with
       | Resolved response =>
           match truthy (first_audio response) with
           | Some audioData => ([], Ok audioData)
           | None =>
               ([mkLog "Error in generateSpeech:"
                       (Error "No audio data received from API.")],
                Raised "Failed to generate speech from Gemini API.")
           end
       | Rejected =>
           ([mkLog "Error in generateSpeech:" ApiFailure],
            Raised "Failed to generate speech from Gemini API.")
       end |}.

End Service.

(** ** The summarizer view ([App], lines 10-94 of [src/App.tsx])

    Text is a string of code units below 256.  A handler reads the state of
    the render that created it; the view is rendered again before the next
    event is handled, so a handler is given the current state.  After an
    [await] the handlers only write. *)

Module Summarizer.

Record State := mkState {
  articleText : string;
  summaryText : string;
  isLoading : bool;
  error : option string;
  isPlaying : bool;
  audioDataRef : option string;
  audioContextRef : option nat;
  audioSourceRef : option nat;
  nextObject : nat
}.

Definition initial : State :=
  {| articleText := ""; summaryText := ""; isLoading := false; error := None;
     isPlaying := false; audioDataRef := None; audioContextRef := None;
     audioSourceRef := None; nextObject := 0%nat |}.

Definition with_articleText (v : string) (s : State) : State :=
  {| articleText := v; summaryText := summaryText s; isLoading := isLoading s;
     error := error s; isPlaying := isPlaying s;
     audioDataRef := audioDataRef s; audioContextRef := audioContextRef s;
     audioSourceRef := audioSourceRef s; nextObject := nextObject s |}.

Definition with_summaryText (v : string) (s : State) : State :=
  {| articleText := articleText s; summaryText := v; isLoading := isLoading s;
     error := error s; isPlaying := isPlaying s;
     audioDataRef := audioDataRef s; audioContextRef := audioContextRef s;
     audioSourceRef := audioSourceRef s; nextObject := nextObject s |}.

Definition with_isLoading (v : bool) (s : State) : State :=
  {| articleText := articleText s; summaryText := summaryText s;
     isLoading := v; error := error s; isPlaying := isPlaying s;
     audioDataRef := audioDataRef s; audioContextRef := audioContextRef s;
     audioSourceRef := audioSourceRef s; nextObject := nextObject s |}.

Definition with_error (v : option string) (s : State) : State :=
  {| articleText := articleText s; summaryText := summaryText s;
     isLoading := isLoading s; error := v; isPlaying := isPlaying s;
     audioDataRef := audioDataRef s; audioContextRef := audioContextRef s;
     audioSourceRef := audioSourceRef s; nextObject := nextObject s |}.

Definition with_isPlaying (v : bool) (s : State) : State :=
  {| articleText := articleText s; summaryText := summaryText s;
     isLoading := isLoading s; error := error s; isPlaying := v;
     audioDataRef := audioDataRef s; audioContextRef := audioContextRef s;
     audioSourceRef := audioSourceRef s; nextObject := nextObject s |}.

Definition with_audioDataRef (v : option string) (s : State) : State :=
  {| articleText := articleText s; summaryText := summaryText s;
     isLoading := isLoading s; error := error s; isPlaying := isPlaying s;
     audioDataRef := v; audioContextRef := audioContextRef s;
     audioSourceRef := audioSourceRef s; nextObject := nextObject s |}.

Definition with_audioContextRef (v : option nat) (s : State) : State :=
  {| articleText := articleText s; summaryText := summaryText s;
     isLoading := isLoading s; error := error s; isPlaying := isPlaying s;
     audioDataRef := audioDataRef s; audioContextRef := v;
     audioSourceRef := audioSourceRef s; nextObject := nextObject s |}.

Definition with_audioSourceRef (v : option nat) (s : State) : State :=
  {| articleText := articleText s; summaryText := summaryText s;
     isLoading := isLoading s; error := error s; isPlaying := isPlaying s;
     audioDataRef := audioDataRef s; audioContextRef := audioContextRef s;
     audioSourceRef := v; nextObject := nextObject s |}.

Definition with_nextObject (v : nat) (s : State) : State :=
  {| articleText := articleText s; summaryText := summaryText s;
     isLoading := isLoading s; error := error s; isPlaying := isPlaying s;
     audioDataRef := audioDataRef s; audioContextRef := audioContextRef s;
     audioSourceRef := audioSourceRef s; nextObject := v |}.

Inductive Call :=
  | generateContent (r : Service.Request)
  | service_log (l : Service.Log)
  | console_error (message : string)       (* [console.error(e)], line 46 *)
  | console_error_playing (e : Failure)    (* line 91 *)
  | context_new (ctx : nat) (sampleRate : Z)
  | context_resume (ctx : nat)
  | source_start (src ctx : nat) (buffer : AudioBuffer)
  | source_stop (src : nat).

(** A handler of this view: no exception leaves one. *)
Definition Action (A : Type) : Type := State → A * State * list Call.

Definition ret {A} (a : A) : Action A := λ s, (a, s, []).

Definition bind {A B} (m : Action A) (k : A → Action B) : Action B :=
  λ s, let '(a, s1, out1) := m s in
       let '(b, s2, out2) := k a s1 in (b, s2, out1 ++ out2).

Declare Scope action_scope.
Notation "'let*' x ':=' m 'in' k" := (bind m (λ x, k))
  (at level 10, x name, m at level 100, k at level 200, only parsing)
  : action_scope.
Notation "m ';;' k" := (bind m (λ _, k))
  (at level 100, k at level 200, right associativity, only parsing)
  : action_scope.
Local Open Scope action_scope.

Definition read {A} (field : State → A) : Action A := λ s, (field s, s, []).
Definition write (upd : State → State) : Action unit := λ s, ((), upd s, []).
Definition call (c : Call) : Action unit := λ s, ((), s, [c]).

Definition new_object : Action nat :=
  λ s, (nextObject s, with_nextObject (S (nextObject s)) s, []).

Fixpoint log_all (logs : list Service.Log) : Action unit :=
  match logs with
  | [] => ret ()
  | l :: rest => call (service_log l) ;; log_all rest
  end.

Definition state_after {A} (r : A * State * list Call) : State := r.1.2.
Definition calls_of {A} (r : A * State * list Call) : list Call := r.2.
Definition result_of {A} (r : A * State * list Call) : A := r.1.1.

(** White space and line terminators among the code units below 256:
    tab, line feed, vertical tab, form feed, carriage return, space and
    no-break space. *)
Definition is_space (c : ascii) : bool :=
  let n := nat_of_ascii c in
  ((9 <=? n) && (n <=? 13) || (n =? 32) || (n =? 160))%nat.

Fixpoint trim_start (cs : list ascii) : list ascii :=
  match cs with
  | [] => []
  | c :: rest => if is_space c then trim_start rest else cs
  end.

(** [String.prototype.trim] *)
Definition trim (s : string) : string :=
  string_of_list_ascii
    (reverse (trim_start (reverse (trim_start (list_ascii_of_string s))))).

Section Handlers.

(** [decode] and [decodeAudioData] of [utils/audioUtils], as for the
    conversational view; [decode_null] is what [decode] does when it is
    handed [null]. *)
Variable decode : string → option (list Z).
Variable decode_null : option (list Z).
Variable decodeAudioData : list Z → Z → Z → option AudioBuffer.

(** The ['ended'] handler of a source, lines 82-85. *)
Definition onended : Action unit :=
  write (with_isPlaying false) ;;
  write (with_audioSourceRef None).

(** The [try] and [catch] of [handleTogglePlayback], lines 74-93, on the
    context [audioContext].  The [await] at line 76 is taken to resume before
    another handler runs. *)
Definition play (audioContext : nat) : Action unit :=
  let* audioData := read audioDataRef in
  let decodedData := from_option decode decode_null audioData in
  match decodedData ≫= λ bytes, decodeAudioData bytes 24000 1 with
  | Some audioBuffer =>
      let* source := new_object in
      call (source_start source audioContext audioBuffer) ;;
      write (with_audioSourceRef (Some source)) ;;
      write (with_isPlaying true)
  | None =>
      call (console_error_playing DecodeError) ;;
      write (with_error (Some "Could not play the generated audio."))
  end.

(** [handleTogglePlayback], lines 53-72 and on.  [suspended] is what
    [audioContext.state === 'suspended'] evaluates to; when it holds the
    handler awaits [resume()] and the result is the context it goes on with
    in [play]. *)
Definition handleTogglePlayback (suspended : bool) : Action (option nat) :=
  let* playing := read isPlaying in
  if playing : bool then
    let* source := read audioSourceRef in
    match source with
    | Some src => call (source_stop src)
    | None => ret ()
    end ;;
    write (with_isPlaying false) ;;
    ret None
  else
    let* audioData := read audioDataRef in
    match truthy audioData with
    | None => ret None
    | Some _ =>
        let* existing := read audioContextRef in
        let* audioContext :=
          match existing with
          | Some ctx => ret ctx
          | None =>
              let* ctx := new_object in
              call (context_new ctx 24000) ;;
              write (with_audioContextRef (Some ctx)) ;;
              ret ctx
          end in
        if suspended then
          call (context_resume audioContext) ;;
          ret (Some audioContext)
        else
          play audioContext ;;
          ret None
    end.

(** The [catch] and [finally] of [handleGenerateSummary], lines 45-50. *)
Definition report_failure (message : string) : Action unit :=
  call (console_error message) ;;
  write (with_error
    (Some "Failed to generate summary or audio. Please check your API key and try again.")) ;;
  write (with_isLoading false).

(** [handleGenerateSummary] up to its first [await], lines 24-39.  The result
    is the pending call of [summarizeArticle], if the handler got that far.
    With [isPlaying] set, [handleTogglePlayback] only stops the audio. *)
Definition handleGenerateSummary : Action (option (Service.Call string)) :=
  let* article := read articleText in
  if bool_decide (trim article = "") then
    write (with_error (Some "Please paste a news article first.")) ;;
    ret None
  else
    write (with_isLoading true) ;;
    write (with_error None) ;;
    write (with_summaryText "") ;;
    write (with_audioDataRef None) ;;
    let* playing := read isPlaying in
    (if playing : bool then handleTogglePlayback false ;; ret () else ret ()) ;;
    let pending := Service.summarizeArticle article in
    call (generateContent (Service.request pending)) ;;
    ret (Some pending).

(** From the answer of [summarizeArticle] to the second [await],
    lines 39-42. *)
Definition handleGenerateSummary_summarized
    (pending : Service.Call string) (reply : Service.Reply)
  : Action (option (Service.Call string)) :=
  let '(logs, result) := Service.settle pending reply in
  log_all logs ;;
  match result with
  | Service.Ok summary =>
      write (with_summaryText summary) ;;
      let speech := Service.generateSpeech summary in
      call (generateContent (Service.request speech)) ;;
      ret (Some speech)
  | Service.Raised message => report_failure message ;; ret None
  end.

(** From the answer of [generateSpeech] to the end, lines 42-50. *)
Definition handleGenerateSummary_spoken
    (pending : Service.Call string) (reply : Service.Reply) : Action unit :=
  let '(logs, result) := Service.settle pending reply in
  log_all logs ;;
  match result with
  | Service.Ok audioData =>
      write (with_audioDataRef (Some audioData)) ;;
      write (with_isLoading false)
  | Service.Raised message => report_failure message
  end.

(** A whole [handleGenerateSummary] with nothing else in between, given the
    answers to its requests. *)
Definition generate (summary_reply speech_reply : Service.Reply) : Action unit :=
  let* first := handleGenerateSummary in
  match first with
  | None => ret ()
  | Some pending =>
      let* second := handleGenerateSummary_summarized pending summary_reply in
      match second with
      | None => ret ()
      | Some speech => handleGenerateSummary_spoken speech speech_reply
      end
  end.

End Handlers.

End Summarizer.

(** What can happen to the summarizer view, for any decoding functions: a
    click on either button, an edit of the article, the answers of the two
    requests, the resumption of the audio context and the end of a source. *)
Module SummarizerRun.
Import Summarizer.

Inductive Event :=
  | Edit (article : string)
  | GenerateClick
  | Summarized (pending : Service.Call string) (reply : Service.Reply)
  | Spoken (pending : Service.Call string) (reply : Service.Reply)
  | PlaybackClick (suspended : bool)
  | Resumed (audioContext : nat)
  | Ended.

Section Run.

Variable decode : string → option (list Z).
Variable decode_null : option (list Z).
Variable decodeAudioData : list Z → Z → Z → option AudioBuffer.

Definition handle (ev : Event) : Action unit :=
  match ev with
  | Edit article => write (with_articleText article)
  | GenerateClick =>
      bind (handleGenerateSummary decode decode_null decodeAudioData)
           (λ _, ret ())
  | Summarized pending reply =>
      bind (handleGenerateSummary_summarized pending reply) (λ _, ret ())
  | Spoken pending reply => handleGenerateSummary_spoken pending reply
  | PlaybackClick suspended =>
      bind (handleTogglePlayback decode decode_null decodeAudioData suspended)
           (λ _, ret ())
  | Resumed audioContext =>
      play decode decode_null decodeAudioData audioContext
  | Ended => onended
  end.

(** The state and the calls made, oldest first, after a list of events. *)
Fixpoint run (s : State) (events : list Event) : State * list Call :=
  match events with
  | [] => (s, [])
  | ev :: rest =>
      let '(_, s1, out1) := handle ev s in
      let '(s2, out2) := run s1 rest in (s2, out1 ++ out2)
  end.

End Run.

Definition creates_context (c : Call) : bool :=
  match c with context_new _ _ => true | _ => false end.

Definition requests_content (c : Call) : bool :=
  match c with generateContent _ => true | _ => false end.

(** The [stop()] that a click makes on the audio that is playing. *)
Definition stops (s : State) : list Call :=
  if isPlaying s then
    match audioSourceRef s with Some src => [source_stop src] | None => [] end
  else [].

(** The message shown when a generation fails. *)
Definition generation_failed : string :=
  "Failed to generate summary or audio. Please check your API key and try again.".

End SummarizerRun.

(** ** The summarizer page

    The view as the user meets it: a button can only be clicked when the
    render shows it enabled, an answer only comes for a request that is
    awaited, and a context only resumes after [resume()] was called on it.
    The tab bar is left out: the page is taken to show the summarizer
    throughout, which allows more clicks than the real page does. *)
Module SummarizerPage.
Import Summarizer.

Inductive Stage := Summarizing | Speaking.

Record Page := mkPage {
  view : State;
  awaited : list (Stage * Service.Call string);
  resuming : list nat;
  made : list Call
}.

Definition opening : Page :=
  {| view := initial; awaited := []; resuming := []; made := [] |}.

(** [disabled={isLoading}], line 152. *)
Definition generate_enabled (s : State) : bool := negb (isLoading s).

(** [{summaryText && !isLoading && (...)}], line 171. *)
Definition playback_shown (s : State) : bool :=
  negb (bool_decide (summaryText s = "")) && negb (isLoading s).

Inductive Input :=
  | Typing (article : string)
  | GenerateClick
  | Answer (i : nat) (reply : Service.Reply)
  | PlaybackClick (suspended : bool)
  | Resumed (i : nat)
  | Ended.

Section Page.

Variable decode : string → option (list Z).
Variable decode_null : option (list Z).
Variable decodeAudioData : list Z → Z → Z → option AudioBuffer.

(** The page after a handler has run. *)
Definition page_after {A} (p : Page) (r : A * State * list Call)
    (awaited' : list (Stage * Service.Call string)) (resuming' : list nat)
  : Page :=
  {| view := state_after r; awaited := awaited'; resuming := resuming';
     made := made p ++ calls_of r |}.

Definition step (p : Page) (input : Input) : option Page :=
  match input with
  | Typing article =>
      Some (page_after p (write (with_articleText article) (view p))
              (awaited p) (resuming p))
  | GenerateClick =>
      if generate_enabled (view p) then
        let r := handleGenerateSummary decode decode_null decodeAudioData
                   (view p) in
        Some (page_after p r
                (awaited p ++ option_list (pair Summarizing <$> result_of r))
                (resuming p))
      else None
  | Answer i reply =>
      match awaited p !! i with
      | Some (Summarizing, pending) =>
          let r := handleGenerateSummary_summarized pending reply (view p) in
          Some (page_after p r
                  (delete i (awaited p) ++
                     option_list (pair Speaking <$> result_of r))
                  (resuming p))
      | Some (Speaking, pending) =>
          let r := handleGenerateSummary_spoken pending reply (view p) in
          Some (page_after p r (delete i (awaited p)) (resuming p))
      | None => None
      end
  | PlaybackClick suspended =>
      if playback_shown (view p) then
        let r := handleTogglePlayback decode decode_null decodeAudioData
                   suspended (view p) in
        Some (page_after p r (awaited p)
                (resuming p ++ option_list (result_of r)))
      else None
  | Resumed i =>
      match resuming p !! i with
      | Some audioContext =>
          let r := play decode decode_null decodeAudioData audioContext
                     (view p) in
          Some (page_after p r (awaited p) (delete i (resuming p)))
      | None => None
      end
  | Ended => Some (page_after p (onended (view p)) (awaited p) (resuming p))
  end.

Fixpoint run (p : Page) (inputs : list Input) : option Page :=
  match inputs with
  | [] => Some p
  | input :: rest =>
      match step p input with
      | Some p1 => run p1 rest
      | None => None
      end
  end.

End Page.

(** Between generations, or with exactly one request awaited. *)
Definition one_at_a_time (p : Page) : Prop :=
  (isLoading (view p) = false ∧ awaited p = []) ∨
  (isLoading (view p) = true ∧
   ((∃ pending, awaited p = [(Summarizing, pending)]) ∨
    awaited p = [(Speaking, Service.generateSpeech (summaryText (view p)))])).

End SummarizerPage.

(** Sample inputs for the summarizer view. *)
Module SummarizerSample.
Import Summarizer.

Definition article : State := with_articleText "Rain is expected." initial.

(** Two spaces, a tab and a line feed. *)
Definition blank : State :=
  with_articleText (String " " (String " " (String "009" (String "010" "")))) initial.

Definition summary : Service.GenerateContentResponse :=
  Service.mkResponse "Rain." None.

Definition speech (audioData : string) : Service.GenerateContentResponse :=
  Service.mkResponse ""
    (Some [Service.mkCandidate (Some (Service.mkContent
       (Some [Service.mkPart (Some (Service.mkBlob (Some audioData)))])))]).

Definition ready : State := with_audioDataRef (Some Sample.chunk_a) initial.

Definition unplayable : State :=
  with_audioDataRef (Some Sample.malformed) initial.

Definition buffer : AudioBuffer :=
  Eval vm_compute in
    default (mkBuffer Binary64.zero)
      (Reference.decode Sample.chunk_a ≫=
         λ bytes, Reference.decodeAudioData bytes 24000 1).

Definition listening : list SummarizerRun.Event :=
  [SummarizerRun.Spoken (Service.generateSpeech "Rain.")
     (Service.Resolved (speech Sample.chunk_a));
   SummarizerRun.PlaybackClick false].

(** An article is typed, the button clicked, and the summary arrives. *)
Definition summarizing : list SummarizerPage.Input :=
  [SummarizerPage.Typing "Rain is expected."; SummarizerPage.GenerateClick;
   SummarizerPage.Answer 0 (Service.Resolved summary)].

Definition speaking : SummarizerPage.Page :=
  Eval vm_compute in
    default SummarizerPage.opening
      (SummarizerPage.run Reference.decode None Reference.decodeAudioData
         SummarizerPage.opening summarizing).

End SummarizerSample.

(** * Properties *)

(** ** Numbers that carry time *)

Lemma pow2_pos (k : Z) : (0 < Binary64.pow2 k)%Q.
Proof. apply Qpower_0_lt. reflexivity. Qed.

Lemma pow2_add (a b : Z) : (Binary64.pow2 (a + b) == Binary64.pow2 a * Binary64.pow2 b)%Q.
Proof. apply Qpower_plus. discriminate. Qed.

Lemma pow2_succ (k : Z) : (Binary64.pow2 (k + 1) == 2 * Binary64.pow2 k)%Q.
Proof. rewrite pow2_add. change (Binary64.pow2 1) with 2%Q. ring. Qed.

Lemma pow2_le (a b : Z) : a ≤ b → (Binary64.pow2 a <= Binary64.pow2 b)%Q.
Proof. intros H. apply Qpower_le_compat_l; [done|discriminate]. Qed.

Lemma pow2_Z (k : Z) : 0 ≤ k → (Binary64.pow2 k == inject_Z (2 ^ k))%Q.
Proof. intros H. unfold Binary64.pow2. by rewrite Zpower_Qpower. Qed.

(** The next double is one unit in the last place further. *)
Lemma magnitude_succ (a : Z) :
  0 ≤ a →
  (Binary64.magnitude (a + 1)
   == Binary64.magnitude a + Binary64.pow2 (Z.max 1 (a / 2 ^ 52) - 1075))%Q.
Proof.
  intros Ha. unfold Binary64.magnitude.
  change (2 ^ 52) with 4503599627370496.
  remember (a / 4503599627370496) as E eqn:HE.
  assert (Hcase : (a + 1) / 4503599627370496 = E
                  ∨ ((a + 1) / 4503599627370496 = E + 1
                     ∧ a = E * 4503599627370496 + 4503599627370495 ∧ 0 ≤ E)).
  { subst E. Z.div_mod_to_equations. lia. }
  destruct Hcase as [->|(-> & Heq & HE0)]; simpl.
  - remember (Z.max 1 E) as e eqn:He.
    replace (a + 1 - (e - 1) * 4503599627370496)
      with ((a - (e - 1) * 4503599627370496) + 1) by lia.
    rewrite inject_Z_plus. change (inject_Z 1) with 1%Q.
    generalize (inject_Z (a - (e - 1) * 4503599627370496)) (Binary64.pow2 (e - 1075)).
    intros u v. clear. ring.
  - replace (Z.max 1 (E + 1)) with (E + 1) by lia.
    replace (a + 1 - (E + 1 - 1) * 4503599627370496) with 4503599627370496 by lia.
    change (inject_Z 4503599627370496) with 4503599627370496%Q.
    destruct (Z.eq_dec E 0) as [E0|E0].
    + replace (Z.max 1 E) with 1 by lia.
      replace (a - (1 - 1) * 4503599627370496) with 4503599627370495 by lia.
      replace (E + 1 - 1075) with (1 - 1075) by lia.
      change (inject_Z 4503599627370495) with 4503599627370495%Q.
      generalize (Binary64.pow2 (1 - 1075)). intros v. clear. ring.
    + replace (Z.max 1 E) with E by lia.
      replace (E + 1 - 1075) with ((E - 1075) + 1) by lia.
      rewrite pow2_succ.
      replace (a - (E - 1) * 4503599627370496) with 9007199254740991 by lia.
      change (inject_Z 9007199254740991) with 9007199254740991%Q.
      generalize (Binary64.pow2 (E - 1075)). intros v. clear. ring.
Qed.

Lemma magnitude_zero : (Binary64.magnitude 0 == 0)%Q.
Proof. reflexivity. Qed.

Lemma magnitude_lt (a b : Z) : 0 ≤ a → a < b → (Binary64.magnitude a < Binary64.magnitude b)%Q.
Proof.
  intros Ha Hab. replace b with (a + 1 + (b - a - 1)) by lia.
  assert (Hd : 0 ≤ b - a - 1) by lia. revert Hd.
  generalize (b - a - 1). clear b Hab. intros d Hd.
  pattern d. apply natlike_ind; [| |exact Hd].
  - rewrite Z.add_0_r, magnitude_succ by done.
    pose proof (pow2_pos (Z.max 1 (a / 2 ^ 52) - 1075)). lra.
  - intros x Hx IH. replace (a + 1 + Z.succ x) with ((a + 1 + x) + 1) by lia.
    rewrite (magnitude_succ (a + 1 + x)) by lia.
    pose proof (pow2_pos (Z.max 1 ((a + 1 + x) / 2 ^ 52) - 1075)). lra.
Qed.

Lemma magnitude_le (a b : Z) : 0 ≤ a → a ≤ b → (Binary64.magnitude a <= Binary64.magnitude b)%Q.
Proof.
  intros Ha Hab. destruct (Z.eq_dec a b) as [->|Hne]; [apply Qle_refl|].
  apply Qlt_le_weak, magnitude_lt; lia.
Qed.

Lemma magnitude_nonneg (a : Z) : 0 ≤ a → (0 <= Binary64.magnitude a)%Q.
Proof.
  intros Ha. rewrite <- magnitude_zero. by apply magnitude_le.
Qed.

Lemma magnitude_pos (a : Z) : 0 < a → (0 < Binary64.magnitude a)%Q.
Proof.
  intros Ha. rewrite <- magnitude_zero. apply magnitude_lt; lia.
Qed.

(** The Binary64.value grows with the position. *)
Lemma value_lt (x y : Binary64.t) : Binary64.bits x < Binary64.bits y → (Binary64.value x < Binary64.value y)%Q.
Proof.
  unfold Binary64.value. intros H.
  destruct (Z.leb_spec 0 (Binary64.bits x)) as [Hx|Hx]; destruct (Z.leb_spec 0 (Binary64.bits y)) as [Hy|Hy].
  - by apply magnitude_lt.
  - lia.
  - pose proof (magnitude_pos (- Binary64.bits x)). pose proof (magnitude_nonneg (Binary64.bits y) Hy).
    assert (0 < Binary64.magnitude (- Binary64.bits x))%Q by (apply magnitude_pos; lia). lra.
  - assert (Binary64.magnitude (- Binary64.bits y) < Binary64.magnitude (- Binary64.bits x))%Q by (apply magnitude_lt; lia).
    lra.
Qed.

Lemma value_le (x y : Binary64.t) : Binary64.bits x ≤ Binary64.bits y → (Binary64.value x <= Binary64.value y)%Q.
Proof.
  intros H. destruct (Z.eq_dec (Binary64.bits x) (Binary64.bits y)) as [E|E].
  - unfold Binary64.value. rewrite E. apply Qle_refl.
  - apply Qlt_le_weak, value_lt. lia.
Qed.

Lemma value_le_inv (x y : Binary64.t) : (Binary64.value x <= Binary64.value y)%Q → Binary64.bits x ≤ Binary64.bits y.
Proof.
  intros H. destruct (Z.le_gt_cases (Binary64.bits x) (Binary64.bits y)) as [|Hgt]; [done|].
  assert (Binary64.value y < Binary64.value x)%Q by (apply value_lt; lia). lra.
Qed.

Lemma value_lt_inv (x y : Binary64.t) : (Binary64.value x < Binary64.value y)%Q → Binary64.bits x < Binary64.bits y.
Proof.
  intros H. destruct (Z.lt_ge_cases (Binary64.bits x) (Binary64.bits y)) as [|Hge]; [done|].
  assert (Binary64.value y <= Binary64.value x)%Q by (apply value_le; lia). lra.
Qed.

Lemma Q_as_quotient (q : Q) :
  (q * inject_Z (Zpos (Qden q)) == inject_Z (Qnum q))%Q.
Proof.
  destruct q as [n d]. unfold Qeq. simpl. rewrite Pos.mul_1_r. lia.
Qed.

(** [ilog2] is the binary order of magnitude. *)
Lemma ilog2_spec (q : Q) :
  (0 < q)%Q →
  (Binary64.pow2 (Binary64.ilog2 q) <= q)%Q
  ∧ (q < Binary64.pow2 (Binary64.ilog2 q + 1))%Q.
Proof.
  intros Hq.
  assert (Hn : 0 < Qnum q).
  { destruct q as [n d]. unfold Qlt in Hq. simpl in *. lia. }
  pose proof (Q_as_quotient q) as Hquot.
  pose proof (Z.log2_spec (Qnum q) Hn) as [Hn1 Hn2].
  pose proof (Z.log2_spec (Zpos (Qden q)) eq_refl) as [Hd1 Hd2].
  pose proof (Z.log2_nonneg (Qnum q)) as Hln.
  pose proof (Z.log2_nonneg (Zpos (Qden q))) as Hld.
  remember (Z.log2 (Qnum q)) as ln. remember (Z.log2 (Zpos (Qden q))) as ld.
  remember (inject_Z (Zpos (Qden q))) as D. remember (inject_Z (Qnum q)) as N.
  assert (HDl : (Binary64.pow2 ld <= D)%Q).
  { subst D. rewrite pow2_Z by done. by rewrite <- Zle_Qle. }
  assert (HDu : (D < Binary64.pow2 (ld + 1))%Q).
  { subst D. rewrite pow2_Z by lia. rewrite <- Zlt_Qlt.
    by replace (ld + 1) with (Z.succ ld) by lia. }
  assert (HNl : (Binary64.pow2 ln <= N)%Q).
  { subst N. rewrite pow2_Z by done. by rewrite <- Zle_Qle. }
  assert (HNu : (N < Binary64.pow2 (ln + 1))%Q).
  { subst N. rewrite pow2_Z by lia. rewrite <- Zlt_Qlt.
    by replace (ln + 1) with (Z.succ ln) by lia. }
  assert (Hup : (q < Binary64.pow2 (ln - ld + 1))%Q).
  { assert (E : (Binary64.pow2 (ln - ld + 1) * Binary64.pow2 ld
                 == Binary64.pow2 (ln + 1))%Q).
    { rewrite <- pow2_add. by replace (ln - ld + 1 + ld) with (ln + 1) by lia. }
    pose proof (pow2_pos ld). pose proof (pow2_pos (ln - ld + 1)).
    apply Qnot_le_lt. intros Hle. nra. }
  assert (Hlo : (Binary64.pow2 (ln - ld - 1) < q)%Q).
  { assert (E : (Binary64.pow2 (ln - ld - 1) * Binary64.pow2 (ld + 1)
                 == Binary64.pow2 ln)%Q).
    { rewrite <- pow2_add. by replace (ln - ld - 1 + (ld + 1)) with ln by lia. }
    pose proof (pow2_pos (ld + 1)). pose proof (pow2_pos (ln - ld - 1)).
    apply Qnot_le_lt. intros Hle. nra. }
  unfold Binary64.ilog2. rewrite <- Heqln, <- Heqld.
  destruct (Qle_bool (Binary64.pow2 (ln - ld)) q) eqn:Hb.
  - apply Qle_bool_iff in Hb. done.
  - assert (Hlt : (q < Binary64.pow2 (ln - ld))%Q).
    { apply Qnot_le_lt. intros Hle. apply Qle_bool_iff in Hle. congruence. }
    replace (ln - ld - 1 + 1) with (ln - ld) by lia.
    split; [by apply Qlt_le_weak|done].
Qed.

(** [below q] is the last double that is not above [q]. *)
Lemma below_spec (q : Q) :
  (0 <= q)%Q →
  0 ≤ Binary64.below q
  ∧ (Binary64.magnitude (Binary64.below q) <= q)%Q
  ∧ (q < Binary64.magnitude (Binary64.below q + 1))%Q.
Proof.
  intros Hq. unfold Binary64.below.
  destruct (Qle_bool q 0) eqn:Hz.
  - apply Qle_bool_iff in Hz. split; [done|]. split.
    + rewrite magnitude_zero. done.
    + assert (0 < Binary64.magnitude (0 + 1))%Q by (by apply magnitude_pos). lra.
  - assert (Hpos : (0 < q)%Q).
    { apply Qnot_le_lt. intros Hle. apply Qle_bool_iff in Hle. congruence. }
    destruct (ilog2_spec q Hpos) as [Hlo Hup].
    remember (Binary64.ilog2 q) as k0 eqn:Hk0.
    remember (Z.max k0 (-1022)) as k eqn:Hk.
    remember (Qfloor (q * Binary64.pow2 (52 - k))) as f eqn:Hf.
    pose proof (pow2_pos (52 - k)) as Hs.
    pose proof (pow2_pos (k - 52)) as Hs'.
    assert (Hinv : (Binary64.pow2 (52 - k) * Binary64.pow2 (k - 52) == 1)%Q).
    { rewrite <- pow2_add. by replace (52 - k + (k - 52)) with 0 by lia. }
    pose proof (Qfloor_le (q * Binary64.pow2 (52 - k))) as Hfl.
    pose proof (Qlt_floor (q * Binary64.pow2 (52 - k))) as Hfu.
    rewrite <- Hf in Hfl, Hfu.
    assert (Hf0 : 0 ≤ f).
    { subst f. change 0 with (Qfloor 0). apply Qfloor_resp_le. nra. }
    assert (Hf53 : f < 2 ^ 53).
    { assert (H1 : (q * Binary64.pow2 (52 - k) < Binary64.pow2 53)%Q).
      { assert (E : (Binary64.pow2 (k + 1) * Binary64.pow2 (52 - k)
                     == Binary64.pow2 53)%Q).
        { rewrite <- pow2_add. by replace (k + 1 + (52 - k)) with 53 by lia. }
        assert (Binary64.pow2 (k0 + 1) <= Binary64.pow2 (k + 1))%Q
          by (apply pow2_le; lia).
        nra. }
      assert (E53 : (Binary64.pow2 53 == 9007199254740992)%Q) by reflexivity.
      rewrite Zlt_Qlt. change (inject_Z (2 ^ 53)) with 9007199254740992%Q. lra. }
    assert (Hnorm : 2 ^ 52 ≤ f ∨ k = -1022).
    { destruct (Z.le_gt_cases (-1022) k0) as [Hge|Hlt]; [left|right; lia].
      assert (Hkk : k = k0) by lia. clear Hk. subst k.
      assert (H1 : (Binary64.pow2 52 <= q * Binary64.pow2 (52 - k0))%Q).
      { assert (E : (Binary64.pow2 k0 * Binary64.pow2 (52 - k0)
                     == Binary64.pow2 52)%Q).
        { rewrite <- pow2_add. by replace (k0 + (52 - k0)) with 52 by lia. }
        nra. }
      assert (E52 : (Binary64.pow2 52 == 4503599627370496)%Q) by reflexivity.
      assert (H2 : (inject_Z (2 ^ 52) <= q * Binary64.pow2 (52 - k0))%Q).
      { change (inject_Z (2 ^ 52)) with 4503599627370496%Q. lra. }
      apply Qfloor_resp_le in H2. rewrite Qfloor_Z in H2. by rewrite Hf. }
    assert (Hk1022 : -1022 ≤ k) by lia.
    change (2 ^ 53) with 9007199254740992 in Hf53.
    change (2 ^ 52) with 4503599627370496 in *.
    remember ((k + 1022) * 4503599627370496 + f) as n eqn:Hn.
    assert (He : Z.max 1 (n / 4503599627370496) = k + 1023).
    { subst n. clear - Hf0 Hf53 Hnorm Hk1022. Z.div_mod_to_equations. lia. }
    assert (Hmag : (Binary64.magnitude n == inject_Z f * Binary64.pow2 (k - 52))%Q).
    { unfold Binary64.magnitude. change (2 ^ 52) with 4503599627370496.
      rewrite He.
      replace (n - (k + 1023 - 1) * 4503599627370496) with f by lia.
      by replace (k + 1023 - 1075) with (k - 52) by lia. }
    assert (Hnext : (Binary64.magnitude (n + 1)
                     == (inject_Z f + 1) * Binary64.pow2 (k - 52))%Q).
    { rewrite magnitude_succ by lia. rewrite Hmag.
      change (2 ^ 52) with 4503599627370496. rewrite He.
      replace (k + 1023 - 1075) with (k - 52) by lia.
      generalize (inject_Z f) (Binary64.pow2 (k - 52)). intros u v. clear. ring. }
    split; [lia|]. split.
    + rewrite Hmag. nra.
    + rewrite Hnext. rewrite inject_Z_plus in Hfu.
      change (inject_Z 1) with 1%Q in Hfu. nra.
Qed.

Lemma nearest_cases (q : Q) :
  Binary64.nearest q = Binary64.below q
  ∨ Binary64.nearest q = Binary64.below q + 1.
Proof.
  unfold Binary64.nearest.
  destruct (_ ?= _)%Q; [destruct (Z.even _)| |]; auto.
Qed.

(** A number that is a double is left as it is. *)
Lemma nearest_exact (q : Q) :
  (0 <= q)%Q → (q == Binary64.magnitude (Binary64.below q))%Q →
  Binary64.nearest q = Binary64.below q.
Proof.
  intros Hq He. destruct (below_spec q Hq) as (_ & _ & Hup).
  unfold Binary64.nearest.
  destruct (Qcompare_spec (q - Binary64.magnitude (Binary64.below q))
              (Binary64.magnitude (Binary64.below q + 1) - q)) as [H|H|H];
    [lra|done|lra].
Qed.

(** Rounding does not step over a double: from below ... *)
Lemma nearest_ge (a : Z) (q : Q) :
  0 ≤ a → (Binary64.magnitude a <= q)%Q →
  (Binary64.magnitude a <= Binary64.magnitude (Binary64.nearest q))%Q.
Proof.
  intros Ha Hle.
  assert (Hq : (0 <= q)%Q) by (pose proof (magnitude_nonneg a Ha); lra).
  destruct (below_spec q Hq) as (Hb & Hlo & Hup).
  assert (a ≤ Binary64.below q).
  { destruct (Z.le_gt_cases a (Binary64.below q)) as [|Hgt]; [done|].
    assert (Binary64.magnitude (Binary64.below q + 1) <= Binary64.magnitude a)%Q
      by (apply magnitude_le; lia).
    lra. }
  apply magnitude_le; [done|]. destruct (nearest_cases q) as [->| ->]; lia.
Qed.

(** ... and from above. *)
Lemma nearest_le (a : Z) (q : Q) :
  0 ≤ a → (0 <= q)%Q → (q <= Binary64.magnitude a)%Q →
  (Binary64.magnitude (Binary64.nearest q) <= Binary64.magnitude a)%Q.
Proof.
  intros Ha Hq Hle.
  destruct (below_spec q Hq) as (Hb & Hlo & Hup).
  assert (Hba : Binary64.below q ≤ a).
  { destruct (Z.le_gt_cases (Binary64.below q) a) as [|Hgt]; [done|].
    assert (Binary64.magnitude a < Binary64.magnitude (Binary64.below q))%Q
      by (apply magnitude_lt; lia).
    lra. }
  destruct (Z.eq_dec (Binary64.below q) a) as [E|E].
  - rewrite nearest_exact; [rewrite E; apply Qle_refl|done|]. rewrite E in *. lra.
  - apply magnitude_le; [destruct (nearest_cases q) as [->| ->]; lia|].
    destruct (nearest_cases q) as [->| ->]; lia.
Qed.

Lemma nearest_nonneg (q : Q) : (0 <= q)%Q → 0 ≤ Binary64.nearest q.
Proof.
  intros Hq. destruct (below_spec q Hq) as (Hb & _).
  destruct (nearest_cases q) as [->| ->]; lia.
Qed.

Lemma value_round_nonneg (q : Q) :
  (0 <= q)%Q →
  (Binary64.value (Binary64.round q) == Binary64.magnitude (Binary64.nearest q))%Q.
Proof.
  intros Hq. unfold Binary64.round, Binary64.value. simpl.
  assert (Hb : Qle_bool 0 q = true) by (by apply Qle_bool_iff).
  rewrite Hb. pose proof (nearest_nonneg q Hq).
  destruct (Z.leb_spec 0 (Binary64.nearest q)); [reflexivity|lia].
Qed.

Lemma value_round_neg (q : Q) :
  (q < 0)%Q →
  (Binary64.value (Binary64.round q)
   == - Binary64.magnitude (Binary64.nearest (- q)))%Q.
Proof.
  intros Hq. unfold Binary64.round, Binary64.value. simpl.
  assert (Hb : Qle_bool 0 q = false).
  { destruct (Qle_bool 0 q) eqn:Hb; [|done].
    apply Qle_bool_iff in Hb. lra. }
  rewrite Hb. assert (Hn : (0 <= - q)%Q) by lra.
  pose proof (nearest_nonneg (- q) Hn).
  destruct (Z.leb_spec 0 (- Binary64.nearest (- q))) as [H0|H0].
  - assert (E : Binary64.nearest (- q) = 0) by lia. rewrite E. reflexivity.
  - by rewrite Z.opp_involutive.
Qed.

Lemma value_sign (x : Binary64.t) :
  (0 ≤ Binary64.bits x
   ∧ (Binary64.value x == Binary64.magnitude (Binary64.bits x))%Q)
  ∨ (Binary64.bits x < 0
     ∧ (Binary64.value x == - Binary64.magnitude (- Binary64.bits x))%Q
     ∧ (Binary64.value x < 0)%Q).
Proof.
  unfold Binary64.value. destruct (Z.leb_spec 0 (Binary64.bits x)) as [H|H].
  - left. split; [done|reflexivity].
  - right. split; [done|]. split; [reflexivity|].
    assert (0 < Binary64.magnitude (- Binary64.bits x))%Q
      by (apply magnitude_pos; lia).
    lra.
Qed.

(** Rounding never passes a double: what is at least a double rounds to at
    least that double ... *)
Lemma round_ge (x : Binary64.t) (q : Q) :
  (Binary64.value x <= q)%Q →
  (Binary64.value x <= Binary64.value (Binary64.round q))%Q.
Proof.
  intros Hle. destruct (Qlt_le_dec q 0) as [Hq|Hq].
  - rewrite (value_round_neg q Hq).
    destruct (value_sign x) as [[Hx Hv]|(Hx & Hv & _)].
    + pose proof (magnitude_nonneg _ Hx). lra.
    + rewrite Hv in *.
      assert (Binary64.magnitude (Binary64.nearest (- q))
              <= Binary64.magnitude (- Binary64.bits x))%Q
        by (apply nearest_le; [lia|lra|lra]).
      lra.
  - rewrite (value_round_nonneg q Hq).
    destruct (value_sign x) as [[Hx Hv]|(Hx & Hv & Hneg)].
    + rewrite Hv in *. by apply nearest_ge.
    + pose proof (magnitude_nonneg _ (nearest_nonneg q Hq)). lra.
Qed.

(** ... and what is at most a double rounds to at most that double. *)
Lemma round_le (x : Binary64.t) (q : Q) :
  (q <= Binary64.value x)%Q →
  (Binary64.value (Binary64.round q) <= Binary64.value x)%Q.
Proof.
  intros Hle. destruct (Qlt_le_dec q 0) as [Hq|Hq].
  - rewrite (value_round_neg q Hq).
    destruct (value_sign x) as [[Hx Hv]|(Hx & Hv & _)].
    + pose proof (magnitude_nonneg _ Hx).
      assert (Hn : (0 <= - q)%Q) by lra.
      pose proof (magnitude_nonneg _ (nearest_nonneg (- q) Hn)). lra.
    + rewrite Hv in *.
      assert (Binary64.magnitude (- Binary64.bits x)
              <= Binary64.magnitude (Binary64.nearest (- q)))%Q
        by (apply nearest_ge; [lia|lra]).
      lra.
  - rewrite (value_round_nonneg q Hq).
    destruct (value_sign x) as [[Hx Hv]|(Hx & Hv & Hneg)].
    + rewrite Hv in *. by apply nearest_le.
    + lra.
Qed.

(** Adding a duration that is not negative never moves a time back. *)
Lemma add_ge_l (x d : Binary64.t) :
  (0 <= Binary64.value d)%Q →
  (Binary64.value x <= Binary64.value (Binary64.add x d))%Q.
Proof. intros Hd. apply round_ge. lra. Qed.

Lemma add_nonneg (x d : Binary64.t) :
  (0 <= Binary64.value x)%Q → (0 <= Binary64.value d)%Q →
  (0 <= Binary64.value (Binary64.add x d))%Q.
Proof.
  intros Hx Hd. apply Qle_trans with (Binary64.value x); [done|].
  by apply add_ge_l.
Qed.

(** The nearest double is within half the gap between its two neighbours. *)
Lemma nearest_error (q : Q) :
  (0 <= q)%Q →
  (2 * (q - Binary64.magnitude (Binary64.nearest q))
   <= Binary64.magnitude (Binary64.below q + 1)
      - Binary64.magnitude (Binary64.below q))%Q.
Proof.
  intros Hq. destruct (below_spec q Hq) as (Hb & Hlo & Hup).
  unfold Binary64.nearest.
  destruct (Qcompare_spec (q - Binary64.magnitude (Binary64.below q))
              (Binary64.magnitude (Binary64.below q + 1) - q)) as [H|H|H].
  - destruct (Z.even (Binary64.below q)); lra.
  - lra.
  - lra.
Qed.

(** Every double is a whole number of steps of 2^-1074. *)
Lemma magnitude_grid (a : Z) :
  0 ≤ a → ∃ m : Z, (Binary64.magnitude a == inject_Z m * Binary64.pow2 (-1074))%Q.
Proof.
  intros Ha. unfold Binary64.magnitude.
  remember (Z.max 1 (a / 2 ^ 52)) as e eqn:He.
  exists ((a - (e - 1) * 2 ^ 52) * 2 ^ (e - 1)).
  replace (e - 1075) with ((e - 1) + -1074) by lia.
  rewrite pow2_add, (pow2_Z (e - 1)) by lia.
  rewrite inject_Z_mult.
  generalize (inject_Z (a - (e - 1) * 2 ^ 52)) (inject_Z (2 ^ (e - 1)))
    (Binary64.pow2 (-1074)).
  intros u v w. clear. ring.
Qed.

Lemma value_grid (x : Binary64.t) :
  ∃ m : Z, (Binary64.value x == inject_Z m * Binary64.pow2 (-1074))%Q.
Proof.
  destruct (value_sign x) as [[Hx Hv]|(Hx & Hv & _)].
  - destruct (magnitude_grid _ Hx) as [m Hm]. exists m. by rewrite Hv.
  - destruct (magnitude_grid (- Binary64.bits x)) as [m Hm]; [lia|].
    exists (- m). rewrite Hv, Hm, inject_Z_opp.
    generalize (inject_Z m) (Binary64.pow2 (-1074)). intros u w. clear. ring.
Qed.

(** The sum the code computes is below the exact sum by at most 2^-53 of
    it. *)
Lemma add_error (x y : Binary64.t) :
  (0 <= Binary64.value x + Binary64.value y)%Q →
  (Binary64.value x + Binary64.value y - Binary64.value (Binary64.add x y)
   <= (Binary64.value x + Binary64.value y) * Binary64.pow2 (-53))%Q.
Proof.
  intros Hq. unfold Binary64.add.
  remember (Binary64.value x + Binary64.value y)%Q as q eqn:Heq.
  rewrite (value_round_nonneg q Hq).
  destruct (below_spec q Hq) as (Hb & Hlo & Hup).
  pose proof (nearest_error q Hq) as Herr.
  assert (E53 : (Binary64.pow2 (-53) * 9007199254740992 == 1)%Q) by reflexivity.
  remember (Binary64.below q) as n eqn:Hn.
  destruct (Z.lt_ge_cases n (2 ^ 52)) as [Hsub|Hnorm].
  - (* below the normal range the sum is exact *)
    destruct (value_grid x) as [mx Hx]. destruct (value_grid y) as [my Hy].
    assert (Hgrid : (q == inject_Z (mx + my) * Binary64.pow2 (-1074))%Q).
    { rewrite Heq, Hx, Hy, inject_Z_plus.
      generalize (inject_Z mx) (inject_Z my) (Binary64.pow2 (-1074)).
      intros u v w. clear. ring. }
    assert (Hmag : ∀ a, 0 ≤ a → a ≤ 2 ^ 52 →
      (Binary64.magnitude a == inject_Z a * Binary64.pow2 (-1074))%Q).
    { intros a Ha0 Ha. destruct (Z.eq_dec a (2 ^ 52)) as [->|Hne]; [reflexivity|].
      unfold Binary64.magnitude.
      replace (a / 2 ^ 52) with 0 by (symmetry; apply Z.div_small; lia).
      replace (Z.max 1 0) with 1 by lia.
      replace (a - (1 - 1) * 2 ^ 52) with a by lia. reflexivity. }
    rewrite (Hmag n) in Hlo by lia. rewrite (Hmag (n + 1)) in Hup by lia.
    pose proof (pow2_pos (-1074)) as Hp.
    assert (Hmn : mx + my = n).
    { assert (inject_Z n <= inject_Z (mx + my))%Q by nra.
      assert (inject_Z (mx + my) < inject_Z (n + 1))%Q by nra.
      rewrite <- Zle_Qle in *. rewrite <- Zlt_Qlt in *. lia. }
    assert (Hex : (q == Binary64.magnitude n)%Q).
    { rewrite (Hmag n) by lia. by rewrite Hgrid, Hmn. }
    rewrite nearest_exact; [|done|by rewrite <- Hn].
    rewrite <- Hn, <- Hex. nra.
  - (* in the normal range the gap is at most 2^-52 of the number *)
    assert (Hgap : (Binary64.magnitude (n + 1) - Binary64.magnitude n
                    == Binary64.pow2 (Z.max 1 (n / 2 ^ 52) - 1075))%Q).
    { rewrite magnitude_succ by done. ring. }
    assert (Hbig : (4503599627370496
                    * Binary64.pow2 (Z.max 1 (n / 2 ^ 52) - 1075)
                    <= Binary64.magnitude n)%Q).
    { unfold Binary64.magnitude.
      remember (Z.max 1 (n / 2 ^ 52)) as e eqn:He.
      assert (2 ^ 52 ≤ n - (e - 1) * 2 ^ 52).
      { subst e. change (2 ^ 52) with 4503599627370496 in *.
        clear - Hnorm. Z.div_mod_to_equations. lia. }
      assert (Hi : (inject_Z (2 ^ 52) <= inject_Z (n - (e - 1) * 2 ^ 52))%Q)
        by (by rewrite <- Zle_Qle).
      change (inject_Z (2 ^ 52)) with 4503599627370496%Q in Hi.
      pose proof (pow2_pos (e - 1075)). nra. }
    nra.
Qed.

Lemma value_zero : (Binary64.value Binary64.zero == 0)%Q.
Proof. reflexivity. Qed.

(** A number that is not negative rounds to a double that is not negative. *)
Lemma round_nonneg (q : Q) : (0 <= q)%Q → (0 <= Binary64.value (Binary64.round q))%Q.
Proof.
  intros Hq. pose proof value_zero as Hz.
  assert (H : (Binary64.value Binary64.zero <= Binary64.value (Binary64.round q))%Q).
  { apply round_ge. lra. }
  lra.
Qed.

(** The bit patterns of a few doubles and sums, as any IEEE 754 machine
    gives them: 0.1 is 0x3FB999999999999A, 0.1 + 0.2 is 0x3FD3333333333334
    (above 0.3), 3 is 0x4008000000000000, and 2.505333333333333 + 2 is
    0x4012057619F0FB38, below the exact sum. *)
Example known_doubles :
  Binary64.bits (Binary64.round (1 # 10)) = 4591870180066957722
  ∧ Binary64.bits (Binary64.add (Binary64.round (1 # 10)) (Binary64.round (2 # 10)))
    = 4599075939470750516
  ∧ Binary64.bits (Binary64.round 3) = 4613937818241073152
  ∧ Binary64.bits
      (Binary64.add (Binary64.round (2505333333333333 # 1000000000000000))
         (Binary64.round 2))
    = 4616758572807682872
  ∧ (Binary64.value
       (Binary64.add (Binary64.round (2505333333333333 # 1000000000000000))
          (Binary64.round 2))
     < Binary64.value (Binary64.round (2505333333333333 # 1000000000000000))
       + Binary64.value (Binary64.round 2))%Q.
Proof. vm_compute. repeat split. Qed.


(** ** Capture encoding *)

Lemma ToInt16_range (x : Q) : -32768 ≤ Codec.ToInt16 x ≤ 32767.
Proof.
  unfold Codec.ToInt16.
  pose proof (Z.mod_pos_bound (Codec.truncate x) 65536 eq_refl) as Hm.
  destruct (Z.leb_spec 32768 (Codec.truncate x `mod` 65536)); lia.
Qed.

Lemma ToInt16_exact (x : Q) :
  -32768 ≤ Codec.truncate x ≤ 32767 → Codec.ToInt16 x = Codec.truncate x.
Proof.
  intros Hr. unfold Codec.ToInt16. cbv zeta.
  destruct (Z.leb_spec 32768 (Codec.truncate x `mod` 65536)) as [Hc|Hc];
    revert Hc; generalize (Codec.truncate x) Hr; clear; intros t Hr Hc;
    Z.div_mod_to_equations; lia.
Qed.

Lemma truncate_scaled_range (s : Q) :
  (-1 <= s)%Q → (s < 1)%Q → -32768 ≤ Codec.truncate (s * 32768)%Q ≤ 32767.
Proof.
  destruct s as [n d]. unfold Qle, Qlt, Codec.truncate. cbn [Qnum Qden Qmult].
  intros Hlo Hhi.
  rewrite Pos.mul_1_r.
  destruct (Z.neg_nonneg_cases n) as [Hn|Hn].
  - replace (n * 32768) with (- (-n * 32768)) by lia.
    rewrite Z.quot_opp_l by lia.
    rewrite Z.quot_div_nonneg by lia.
    assert (0 ≤ (- n * 32768) / Z.pos d ≤ 32768); [|lia].
    split; [apply Z.div_pos; lia|].
    apply Z.div_le_upper_bound; lia.
  - rewrite Z.quot_div_nonneg by lia.
    assert (0 ≤ (n * 32768) / Z.pos d < 32768); [|lia].
    split; [apply Z.div_pos; lia|].
    apply Z.div_lt_upper_bound; lia.
Qed.

Lemma int16_bytes_le (v : Z) :
  Codec.int16_bytes v = [v mod 256; v / 256 mod 256].
Proof.
  unfold Codec.int16_bytes. cbv zeta. f_equal; [|f_equal];
    Z.div_mod_to_equations; lia.
Qed.

Lemma buffer_bytes_lookup (int16 : list Z) (i : nat) (v : Z) :
  int16 !! i = Some v →
  Codec.Uint8Array_of_buffer int16 !! (2 * i)%nat = Some (v mod 256) ∧
  Codec.Uint8Array_of_buffer int16 !! (2 * i + 1)%nat = Some (v / 256 mod 256).
Proof.
  revert i. induction int16 as [|x rest IH]; intros i Hi; [done|].
  unfold Codec.Uint8Array_of_buffer in *. rewrite bind_cons, int16_bytes_le.
  destruct i as [|i]; simpl in Hi.
  - injection Hi as ->. done.
  - replace (2 * S i)%nat with (S (S (2 * i))) by lia.
    replace (S (S (2 * i)) + 1)%nat with (S (S (2 * i + 1))) by lia.
    simpl. by apply IH.
Qed.

Lemma buffer_bytes_length (int16 : list Z) :
  length (Codec.Uint8Array_of_buffer int16) = (2 * length int16)%nat.
Proof.
  induction int16 as [|x rest IH]; [done|].
  unfold Codec.Uint8Array_of_buffer in *. rewrite bind_cons, length_app, IH.
  simpl. lia.
Qed.

(** C5, as stated, fails: the stored value is not [round(sample * 32768)].
    The sample 3/131072 scales to 0.75, which rounds to 1 and is stored
    as 0. *)
Lemma capture_does_not_round :
  ¬ ∀ s : Q, (-1 <= s <= 1)%Q →
      Codec.sample_to_int16 s = Codec.spec_sample_to_int16 s.
Proof.
  intros H. specialize (H (3 # 131072)%Q).
  assert (Hin : (-1 <= 3 # 131072 <= 1)%Q) by (split; discriminate).
  specialize (H Hin). vm_compute in H. discriminate.
Qed.

(** C5 (amended): every captured sample in [-1,1] is stored as a 16-bit signed
    integer in [-32768, 32767], so 32768 is never produced; a sample below 1
    is stored as [sample * 32768] truncated toward zero (not rounded); the
    stored values are laid out two bytes each, low byte first, in two's
    complement, and that byte sequence is what [encode] receives for the
    frame sent on the session. *)
Theorem capture_encoding_truncates
    (encode : list Z → string) (inputData : list Q) :
  Forall (λ s, (-1 <= s <= 1)%Q) inputData →
  let int16 := Codec.Int16Array_from inputData in
  let bytes := Codec.Uint8Array_of_buffer int16 in
  (∀ i v, int16 !! i = Some v → -32768 ≤ v ≤ 32767) ∧
  (∀ i s, inputData !! i = Some s → (s < 1)%Q →
     int16 !! i = Some (Codec.truncate (s * 32768)%Q)) ∧
  (∀ i v, int16 !! i = Some v →
     bytes !! (2 * i)%nat = Some (v mod 256) ∧
     bytes !! (2 * i + 1)%nat = Some (v / 256 mod 256)) ∧
  length bytes = (2 * length inputData)%nat ∧
  (∀ st sess, sessionPromiseRef st = Some sess →
     effects_of (onaudioprocess encode inputData st)
     = [sendRealtimeInput sess (encode bytes) "audio/pcm;rate=16000"]).
Proof.
  intros Hin int16 bytes. subst int16 bytes. unfold Codec.Int16Array_from.
  split; [|split; [|split; [|split]]].
  - intros i v Hv. apply list_lookup_fmap_Some in Hv as (s & -> & _).
    apply ToInt16_range.
  - intros i s Hi Hlt. rewrite list_lookup_fmap, Hi. simpl. f_equal.
    unfold Codec.sample_to_int16. apply ToInt16_exact, truncate_scaled_range.
    + rewrite Forall_lookup in Hin. apply (Hin i s Hi).
    + exact Hlt.
  - intros i v Hv. by apply buffer_bytes_lookup.
  - by rewrite buffer_bytes_length, length_fmap.
  - intros st sess Hs. unfold onaudioprocess, effects_of, bind, read, optional.
    rewrite Hs. reflexivity.
Qed.

Lemma capture_encoding_truncates_witness :
  Codec.Int16Array_from [0; 1 # 2; -1; 3 # 131072; -(3 # 131072); 1]%Q
    = [0; 16384; -32768; 0; 0; -32768] ∧
  ∀ i v,
    Codec.Int16Array_from [0; 1 # 2; -1; 3 # 131072; -(3 # 131072); 1]%Q !! i = Some v →
    -32768 ≤ v ≤ 32767.
Proof.
  split; [reflexivity|].
  refine (proj1 (capture_encoding_truncates Reference.encode
                   [0; 1 # 2; -1; 3 # 131072; -(3 # 131072); 1]%Q _)).
  repeat constructor; discriminate.
Defined.

(** ** Transcript aggregation *)

Lemma update_snoc (sp : Speaker) (fr : Transcription)
    (init : list TranscriptEntry) (l : TranscriptEntry) :
  Transcript.append sp (fragment_text fr) (fragment_isFinal fr) (init ++ [l])
  = if bool_decide (speaker l = sp) && negb (isFinal l)
    then init ++ [mkEntry sp (text l +:+ fragment_text fr) (fragment_isFinal fr)]
    else init ++ [l; mkEntry sp (fragment_text fr) (fragment_isFinal fr)].
Proof.
  assert (Hlen : (length (init ++ [l]) - 1 = length init + 0)%nat)
    by (rewrite length_app; simpl; lia).
  assert (Hlast : (init ++ [l]) !! (length init + 0)%nat = Some l)
    by (by rewrite lookup_app_r, Nat.add_0_r, Nat.sub_diag by lia).
  destruct sp; unfold Transcript.append;
    [unfold Transcript.update_user | unfold Transcript.update_model];
    cbv zeta; simpl fragment_text; simpl fragment_isFinal;
    rewrite Hlen, Hlast;
    (destruct (bool_decide (speaker l = _)) eqn:Hsp; simpl;
     [destruct (isFinal l); simpl|]);
    rewrite <- ?(assoc_L (++)); try reflexivity;
    apply bool_decide_eq_true in Hsp; rewrite Hsp;
    by rewrite insert_app_r.
Qed.

(** C3: appending a fragment [(speaker, textFragment, isFinal)] to a
    transcript whose last entry exists, has the same speaker and is not final
    concatenates the text onto that entry and overwrites its [isFinal] with
    the incoming value, adding no entry; otherwise it adds the entry
    [{speaker, textFragment, isFinal}] at the end.  No entry is deleted or
    reordered: the result is at least as long and agrees with the old
    sequence everywhere before the last position. *)
Theorem append_merges_or_extends
    (sp : Speaker) (textFragment : string) (final : bool)
    (prev : list TranscriptEntry) :
  let next := Transcript.append sp textFragment final prev in
  match last prev with
  | Some l =>
      if bool_decide (speaker l = sp) && negb (isFinal l)
      then next = removelast prev ++ [mkEntry sp (text l +:+ textFragment) final]
           ∧ length next = length prev
      else next = prev ++ [mkEntry sp textFragment final]
  | None => next = [mkEntry sp textFragment final]
  end
  ∧ (length prev ≤ length next)%nat
  ∧ ∀ i, (i + 1 < length prev)%nat → next !! i = prev !! i.
Proof.
  intros next. subst next.
  destruct prev as [|e prev'] using rev_ind.
  - split; [by destruct sp|]. split; [destruct sp; simpl; lia|].
    intros i Hi. simpl in Hi. lia.
  - clear IHprev'.
    pose proof (update_snoc sp (mkTranscription textFragment final) prev' e) as Hup.
    simpl in Hup. rewrite Hup, last_snoc, removelast_last.
    destruct (bool_decide (speaker e = sp) && negb (isFinal e)).
    + split; [split; [done|by rewrite !length_app]|].
      split; [by rewrite !length_app|].
      intros i Hi. rewrite length_app in Hi. simpl in Hi.
      by rewrite !lookup_app_l by lia.
    + split; [by rewrite <- (assoc_L (++))|].
      split; [rewrite !length_app; simpl; lia|].
      intros i Hi. rewrite length_app in Hi. simpl in Hi.
      by rewrite !lookup_app_l by lia.
Qed.

(** The fragments of section 8 of the specification. *)
Example transcript_fragments_merge :
  Transcript.append user "lo" false (Transcript.append user "Hel" false [])
  = [mkEntry user "Hello" false].
Proof. reflexivity. Qed.

Example transcript_speaker_change :
  Transcript.append model "Hi" false [mkEntry user "Hello" false]
  = [mkEntry user "Hello" false; mkEntry model "Hi" false].
Proof. reflexivity. Qed.

Example transcript_final_closes :
  Transcript.append user "again" false
    (Transcript.append user " world" true [mkEntry user "Hello" false])
  = [mkEntry user "Hello world" true; mkEntry user "again" false].
Proof. reflexivity. Qed.

(** ** Teardown *)

Lemma forEach_calls {A} (xs : list A) (f : A → Effect) (s : ViewState) :
  forEach xs (λ x, call (f x)) s = (Returned (), s, f <$> xs).
Proof.
  induction xs as [|x xs IH]; [done|].
  simpl. unfold bind. simpl. by rewrite IH.
Qed.

(** What [cleanup] returns, written out. *)
Lemma cleanup_run (s : ViewState) :
  cleanup s =
  (Returned (),
   {| isConnecting := false; isActive := false;
      statusMessage := statusMessage s; transcripts := transcripts s;
      error := error s;
      sessionPromiseRef := None; inputAudioContextRef := None;
      outputAudioContextRef := None; scriptProcessorRef := None;
      mediaStreamRef := None; audioSourcesRef := ∅;
      nextStartTimeRef := Binary64.zero; nextObject := nextObject s |},
   (track_stop <$> from_option (λ ms, elements (tracks ms)) [] (mediaStreamRef s))
   ++ (processor_disconnect <$> option_list (scriptProcessorRef s))
   ++ (context_close <$> option_list (inputAudioContextRef s))
   ++ (context_close <$> option_list (outputAudioContextRef s))
   ++ (source_stop <$> elements (audioSourcesRef s))
   ++ (session_close <$> option_list (sessionPromiseRef s))).
Proof.
  destruct s as [ic ia sm tr er sp iac oac spr ms srcs nst no].
  unfold cleanup, bind, read, write, optional. simpl.
  destruct ms as [ms|], spr as [spr|], iac as [iac|], oac as [oac|], sp as [sp|];
    simpl; repeat (rewrite forEach_calls; simpl);
    rewrite ?app_nil_r; try reflexivity.
  all: f_equal; rewrite <- ?(assoc_L (++)); reflexivity.
Qed.

Lemma released_calls {A} (f : A → Effect) (g : A → Resource) (xs : list A) :
  (∀ x, release_of (f x) = Some (g x)) → released (f <$> xs) = g <$> xs.
Proof.
  intros Hfg. unfold released. induction xs as [|x xs IH]; [done|].
  rewrite !fmap_cons, <- IH. change (omap release_of (f x :: (f <$> xs)))
    with (match release_of (f x) with
          | Some r => r :: omap release_of (f <$> xs)
          | None => omap release_of (f <$> xs)
          end).
  by rewrite Hfg.
Qed.

Lemma released_app (out1 out2 : list Effect) :
  released (out1 ++ out2) = released out1 ++ released out2.
Proof. apply omap_app. Qed.

Lemma cleanup_releases_held (s : ViewState) :
  released (effects_of (cleanup s)) = held s.
Proof.
  rewrite cleanup_run. unfold effects_of, held. simpl.
  rewrite !released_app.
  by rewrite (released_calls track_stop a_track),
    (released_calls processor_disconnect a_processor),
    !(released_calls context_close a_context),
    (released_calls source_stop a_source),
    (released_calls session_close a_session).
Qed.

(** What is held depends on the refs only. *)
Lemma held_ext (s s' : ViewState) :
  mediaStreamRef s = mediaStreamRef s' →
  scriptProcessorRef s = scriptProcessorRef s' →
  inputAudioContextRef s = inputAudioContextRef s' →
  outputAudioContextRef s = outputAudioContextRef s' →
  audioSourcesRef s = audioSourcesRef s' →
  sessionPromiseRef s = sessionPromiseRef s' →
  held s = held s'.
Proof. unfold held. by intros -> -> -> -> -> ->. Qed.

Lemma NoDup_option_list {A} (o : option A) : NoDup (option_list o).
Proof. destruct o; simpl; [apply NoDup_singleton|apply NoDup_nil_2]. Qed.

(** Apart from one audio context sitting in both context refs, no handle is
    held twice. *)
Lemma held_NoDup (s : ViewState) :
  (∀ ctx, inputAudioContextRef s = Some ctx → outputAudioContextRef s ≠ Some ctx) →
  NoDup (held s).
Proof.
  intros Hdistinct. unfold held.
  repeat (apply NoDup_app; split; [|split]);
    try (apply NoDup_fmap_2;
         [by intros ?? [=]
         |first [apply NoDup_elements | apply NoDup_option_list
                | destruct (mediaStreamRef s); [apply NoDup_elements|apply NoDup_nil_2]]]).
  all: intros r Hr Hr'; apply list_elem_of_fmap in Hr as (x & -> & Hx);
    repeat (apply elem_of_app in Hr' as [Hr'|Hr']);
    apply list_elem_of_fmap in Hr' as (y & Hy & Hy'); try discriminate.
  injection Hy as <-.
  destruct (inputAudioContextRef s) as [c|] eqn:Hi; simpl in Hx; [|by inversion Hx].
  destruct (outputAudioContextRef s) as [c'|] eqn:Ho; simpl in Hy'; [|by inversion Hy'].
  apply list_elem_of_singleton in Hx, Hy'. subst.
  by apply (Hdistinct c').
Qed.

(** C2: [cleanup] never throws; called twice in succession from any state,
    the two calls together release exactly what the refs held, each held
    handle once (every track of the stream, the script processor, the input
    and the output context, every in-flight source, the session) and make no
    other call; the second call makes no call at all and leaves the state of
    the first, in which every handle is null, the in-flight set is empty and
    the cursor is zero. *)
Theorem cleanup_idempotent (s : ViewState) :
  let first := cleanup s in
  let second := cleanup (state_after first) in
  outcome_of first = Returned () ∧ outcome_of second = Returned ()
  ∧ released (effects_of first ++ effects_of second) = held s
  ∧ length (effects_of first ++ effects_of second) = length (held s)
  ∧ effects_of second = []
  ∧ state_after second = state_after first
  ∧ held (state_after first) = []
  ∧ mediaStreamRef (state_after first) = None
  ∧ scriptProcessorRef (state_after first) = None
  ∧ inputAudioContextRef (state_after first) = None
  ∧ outputAudioContextRef (state_after first) = None
  ∧ audioSourcesRef (state_after first) = ∅
  ∧ sessionPromiseRef (state_after first) = None
  ∧ nextStartTimeRef (state_after first) = Binary64.zero.
Proof.
  cbv zeta.
  assert (Hsecond : cleanup (state_after (cleanup s))
                    = (Returned (), state_after (cleanup s), [])).
  { rewrite (cleanup_run (state_after (cleanup s))).
    rewrite (cleanup_run s). unfold state_after. simpl.
    by rewrite elements_empty. }
  rewrite Hsecond. pose proof (cleanup_releases_held s) as Hrel.
  split; [by rewrite cleanup_run|]. split; [done|].
  unfold effects_of at 2 4. simpl. rewrite !app_nil_r.
  split; [done|]. split.
  { rewrite cleanup_run. unfold effects_of, held. simpl.
    by rewrite !length_app, !length_fmap. }
  split; [done|]. split; [done|].
  rewrite cleanup_run. unfold state_after, held. simpl.
  by rewrite elements_empty.
Qed.

(** ** Playback scheduling and interruption *)

Lemma Math_max_l (a b : Binary64.t) : (a <= Math_max a b)%Q.
Proof.
  unfold Math_max. destruct (Qle_bool a b) eqn:H.
  - by apply Qle_bool_iff.
  - apply Qle_refl.
Qed.

Lemma Math_max_r (a b : Binary64.t) : (b <= Math_max a b)%Q.
Proof.
  unfold Math_max. destruct (Qle_bool a b) eqn:H.
  - apply Qle_refl.
  - apply Qlt_le_weak, Qnot_le_lt. intros Hle.
    apply Qle_bool_iff in Hle. congruence.
Qed.

Lemma Math_max_from_zero (now : Binary64.t) :
  (0 <= now)%Q → Math_max Binary64.zero now = now.
Proof.
  intros H. unfold Math_max.
  assert (Hz : (Binary64.zero <= now)%Q) by (pose proof value_zero; lra).
  apply Qle_bool_iff in Hz. by rewrite Hz.
Qed.

Lemma back_to_back_earlier (from from' : Binary64.t)
    (plan : list (Binary64.t * Binary64.t)) :
  (from' <= from)%Q → back_to_back from plan → back_to_back from' plan.
Proof.
  destruct plan as [|[st d] rest]; [done|]. simpl.
  intros Hle (H1 & H2 & H3). split; [|done]. by apply Qle_trans with from.
Qed.

Lemma back_to_back_adjacent (from : Binary64.t)
    (plan : list (Binary64.t * Binary64.t)) (i : nat)
    (start1 d1 start2 d2 : Binary64.t) :
  back_to_back from plan →
  plan !! i = Some (start1, d1) → plan !! S i = Some (start2, d2) →
  (Binary64.add start1 d1 <= start2)%Q ∧ (start1 <= start2)%Q ∧ (0 <= d1)%Q.
Proof.
  revert from i. induction plan as [|[st d] rest IH]; intros from i; [done|].
  simpl. intros (Hfrom & Hd & Hrest) H1 H2. destruct i as [|i].
  - simpl in H1, H2. injection H1 as -> ->.
    destruct rest as [|[st' d'] rest']; [done|]. simpl in H2. injection H2 as -> ->.
    simpl in Hrest. destruct Hrest as (Hle & _). split; [done|].
    split; [|done].
    apply Qle_trans with (Binary64.add start1 d1); [|done]. by apply add_ge_l.
  - simpl in H1, H2. by eapply IH.
Qed.

Lemma scheduled_app (out1 out2 : list Effect) :
  scheduled (out1 ++ out2) = scheduled out1 ++ scheduled out2.
Proof. unfold scheduled. apply bind_app. Qed.

Lemma scheduled_stops (srcs : list nat) : scheduled (source_stop <$> srcs) = [].
Proof. induction srcs as [|x xs IH]; [done|]. exact IH. Qed.

Lemma transcribe_run (m : LiveServerMessage) (s : ViewState) :
  transcribe m s = (Returned (), state_after (transcribe m s), []).
Proof.
  unfold transcribe, state_after, bind, optional, read, write.
  destruct (inputTranscription m), (outputTranscription m); reflexivity.
Qed.

(** The transcript part touches the transcript only. *)
Lemma transcribe_frame (m : LiveServerMessage) (s : ViewState) :
  let s' := state_after (transcribe m s) in
  isConnecting s' = isConnecting s ∧ isActive s' = isActive s ∧
  statusMessage s' = statusMessage s ∧ error s' = error s ∧
  sessionPromiseRef s' = sessionPromiseRef s ∧
  inputAudioContextRef s' = inputAudioContextRef s ∧
  outputAudioContextRef s' = outputAudioContextRef s ∧
  scriptProcessorRef s' = scriptProcessorRef s ∧
  mediaStreamRef s' = mediaStreamRef s ∧
  audioSourcesRef s' = audioSourcesRef s ∧
  nextStartTimeRef s' = nextStartTimeRef s ∧
  nextObject s' = nextObject s.
Proof.
  unfold transcribe, state_after, bind, optional, read, write.
  destruct (inputTranscription m), (outputTranscription m); simpl; repeat split.
Qed.

Lemma interrupt_run (s : ViewState) :
  interrupt s =
  (Returned (), with_nextStartTimeRef Binary64.zero (with_audioSourcesRef ∅ s),
   source_stop <$> elements (audioSourcesRef s)).
Proof.
  unfold interrupt, bind, read, write. simpl. rewrite forEach_calls. simpl.
  by rewrite app_nil_r.
Qed.

Section Playback.

Variable decode : string → option (list Z).
Variable decodeAudioData : list Z → Z → Z → option AudioBuffer.

(** A chunk that decodes: it starts at [max(cursor, currentTime)] and the
    cursor moves to that start plus the chunk's length, rounded. *)
Lemma enqueue_decoded (base64Audio : string) (ctx : nat) (now : Binary64.t)
    (bytes : list Z) (buffer : AudioBuffer) (s : ViewState) :
  decode base64Audio = Some bytes →
  decodeAudioData bytes 24000 1 = Some buffer →
  enqueue decode decodeAudioData base64Audio ctx now s =
  (Returned (),
   {| isConnecting := isConnecting s; isActive := isActive s;
      statusMessage := "AI is speaking..."; transcripts := transcripts s;
      error := error s; sessionPromiseRef := sessionPromiseRef s;
      inputAudioContextRef := inputAudioContextRef s;
      outputAudioContextRef := outputAudioContextRef s;
      scriptProcessorRef := scriptProcessorRef s;
      mediaStreamRef := mediaStreamRef s;
      audioSourcesRef := audioSourcesRef s ∪ {[nextObject s]};
      nextStartTimeRef :=
        Binary64.add (Math_max (nextStartTimeRef s) now) (duration buffer);
      nextObject := S (nextObject s) |},
   [source_start (nextObject s) ctx (Math_max (nextStartTimeRef s) now) buffer]).
Proof.
  intros Hd Hb. unfold enqueue, bind, read, write, call, attempt, new_object.
  simpl. rewrite Hd. simpl. rewrite Hb. reflexivity.
Qed.

(** A chunk that does not decode: the handler throws after line 345, having
    made no call. *)
Lemma enqueue_malformed (base64Audio : string) (ctx : nat) (now : Binary64.t) (s : ViewState) :
  (decode base64Audio ≫= λ bytes, decodeAudioData bytes 24000 1) = None →
  enqueue decode decodeAudioData base64Audio ctx now s =
  (Thrown DecodeError,
   with_nextStartTimeRef (Math_max (nextStartTimeRef s) now)
     (with_statusMessage "AI is speaking..." s),
   []).
Proof.
  intros Hd. unfold enqueue, bind, read, write, call, attempt, new_object.
  simpl. destruct (decode base64Audio) as [bytes|]; simpl in *; [|reflexivity].
  rewrite Hd. reflexivity.
Qed.

(** [onmessage] by its three parts. *)
Lemma onmessage_parts (m : LiveServerMessage) (now : Binary64.t) (s : ViewState) :
  onmessage decode decodeAudioData m now s =
  let s1 := state_after (transcribe m s) in
  match truthy (inlineData m), outputAudioContextRef s with
  | Some base64Audio, Some ctx =>
      match enqueue decode decodeAudioData base64Audio ctx now s1 with
      | (Returned _, s2, out) =>
          if interrupted m
          then (Returned (), with_nextStartTimeRef Binary64.zero (with_audioSourcesRef ∅ s2),
                out ++ (source_stop <$> elements (audioSourcesRef s2)))
          else (Returned (), s2, out)
      | (Thrown e, s2, out) => (Thrown e, s2, out)
      end
  | _, _ =>
      if interrupted m
      then (Returned (), with_nextStartTimeRef Binary64.zero (with_audioSourcesRef ∅ s1),
            source_stop <$> elements (audioSourcesRef s1))
      else (Returned (), s1, [])
  end.
Proof.
  cbv zeta. unfold onmessage. unfold bind at 1. rewrite transcribe_run.
  destruct (transcribe_frame m s) as (_&_&_&_&_&_&Hout&_).
  unfold bind at 1. unfold read at 1. rewrite Hout.
  unfold bind at 1.
  destruct (truthy (inlineData m)) as [b64|], (outputAudioContextRef s) as [ctx|];
    try (unfold ret at 1; destruct (interrupted m); [rewrite interrupt_run|]; reflexivity).
  destruct (enqueue _ _ _ _ _ _) as [[[u|e] s2] out]; [|reflexivity].
  destruct (interrupted m); [rewrite interrupt_run|]; simpl; by rewrite ?app_nil_r.
Qed.

(** A chunk that decodes is scheduled at [max(cursor, currentTime)]. *)
Lemma onmessage_valid_schedules (m : LiveServerMessage) (now : Binary64.t) (s : ViewState)
    (base64Audio : string) (ctx : nat) (bytes : list Z) (buffer : AudioBuffer) :
  truthy (inlineData m) = Some base64Audio →
  outputAudioContextRef s = Some ctx →
  decode base64Audio = Some bytes →
  decodeAudioData bytes 24000 1 = Some buffer →
  scheduled (effects_of (onmessage decode decodeAudioData m now s))
  = [(Math_max (nextStartTimeRef s) now, duration buffer)].
Proof.
  intros Ht Ho Hd Hb. rewrite onmessage_parts. cbv zeta. rewrite Ht, Ho.
  destruct (transcribe_frame m s) as (_&_&_&_&_&_&_&_&_&_&Hcur&_).
  rewrite (enqueue_decoded _ _ _ _ _ _ Hd Hb), Hcur.
  destruct (interrupted m); unfold effects_of; cbn [snd];
    [rewrite scheduled_app, scheduled_stops|]; reflexivity.
Qed.

(** An audio buffer is never of negative length. *)
Hypothesis duration_nonneg :
  ∀ bytes buffer,
    decodeAudioData bytes 24000 1 = Some buffer → (0 <= duration buffer)%Q.

Lemma onmessage_schedules (m : LiveServerMessage) (now : Binary64.t) (s : ViewState) :
  interrupted m = false →
  let r := onmessage decode decodeAudioData m now s in
  (scheduled (effects_of r) = []
   ∧ (nextStartTimeRef s <= nextStartTimeRef (state_after r))%Q)
  ∨ (∃ startAt length,
       scheduled (effects_of r) = [(startAt, length)]
       ∧ (nextStartTimeRef s <= startAt)%Q ∧ (0 <= length)%Q
       ∧ nextStartTimeRef (state_after r) = Binary64.add startAt length).
Proof.
  intros Hint. cbv zeta. rewrite onmessage_parts. cbv zeta. rewrite Hint.
  destruct (transcribe_frame m s) as (_&_&_&_&_&_&_&_&_&_&Hcur&_).
  destruct (truthy (inlineData m)) as [b64|], (outputAudioContextRef s) as [ctx|];
    try (left; split; [reflexivity|];
         change (nextStartTimeRef s <= nextStartTimeRef (state_after (transcribe m s)))%Q;
         rewrite Hcur; apply Qle_refl).
  destruct (decode b64 ≫= λ bytes, decodeAudioData bytes 24000 1) as [buffer|] eqn:Hd.
  - destruct (decode b64) as [bytes|] eqn:Hb; [|done]. simpl in Hd.
    rewrite (enqueue_decoded _ _ _ _ _ _ Hb Hd). right.
    exists (Math_max (nextStartTimeRef (state_after (transcribe m s))) now),
      (duration buffer).
    split; [reflexivity|]. rewrite Hcur. split; [apply Math_max_l|].
    split; [by eapply duration_nonneg|reflexivity].
  - rewrite (enqueue_malformed _ _ _ _ Hd). left. split; [reflexivity|].
    simpl. rewrite Hcur. apply Math_max_l.
Qed.

Lemma feed_back_to_back (inbound : list (LiveServerMessage * Binary64.t)) (s : ViewState) :
  Forall (λ mt, interrupted mt.1 = false) inbound →
  back_to_back (nextStartTimeRef s)
    (scheduled (feed decode decodeAudioData inbound s).2).
Proof.
  revert s. induction inbound as [|[m now] rest IH]; intros s Hall; [done|].
  inversion Hall as [|? ? Hm Hrest]; subst. simpl in Hm.
  simpl. pose proof (onmessage_schedules m now s Hm) as Hstep. cbv zeta in Hstep.
  destruct (onmessage decode decodeAudioData m now s) as [[r s1] out1].
  specialize (IH s1 Hrest).
  destruct (feed decode decodeAudioData rest s1) as [s2 out2]. simpl in *.
  rewrite scheduled_app.
  unfold effects_of, state_after in Hstep. simpl in Hstep.
  destruct Hstep as [[-> Hle] | (st & d & -> & Hle & Hd & Hcur)]; simpl.
  - by apply back_to_back_earlier with (nextStartTimeRef s1).
  - rewrite Hcur in IH. done.
Qed.

(** C1, as amended: for every sequence of inbound messages without an
    interruption signal, whatever the readings of the output clock, the start
    times given to [source.start] are non-decreasing, and each is at or after
    the previous chunk's start plus its duration as line 357 adds them, in
    binary64; for a start that is not negative that sum is below the exact
    one by at most 2^-53 of it. *)
Theorem playback_follows_rounded_cursor
    (inbound : list (LiveServerMessage * Binary64.t)) (s : ViewState) :
  Forall (λ mt, interrupted mt.1 = false) inbound →
  let plan := scheduled (feed decode decodeAudioData inbound s).2 in
  ∀ i (start1 d1 start2 d2 : Binary64.t),
    plan !! i = Some (start1, d1) → plan !! S i = Some (start2, d2) →
    (Binary64.add start1 d1 <= start2)%Q ∧ (start1 <= start2)%Q
    ∧ ((0 <= start1)%Q →
       (start1 + d1 - start2 <= (start1 + d1) * Binary64.pow2 (-53))%Q).
Proof.
  intros Hall plan i start1 d1 start2 d2 H1 H2.
  destruct (back_to_back_adjacent (nextStartTimeRef s) plan i start1 d1 start2 d2
              (feed_back_to_back inbound s Hall) H1 H2) as (Hnext & Hle & Hd).
  split; [done|]. split; [done|]. intros Hpos.
  assert (Hsum : (0 <= start1 + d1)%Q) by lra.
  pose proof (add_error start1 d1 Hsum). lra.
Qed.

End Playback.

Lemma Reference_duration_nonneg (bytes : list Z) (buffer : AudioBuffer) :
  Reference.decodeAudioData bytes 24000 1 = Some buffer → (0 <= duration buffer)%Q.
Proof.
  unfold Reference.decodeAudioData. case_bool_decide; [|done].
  intros [= <-]. simpl. apply round_nonneg. unfold Qle. simpl. rewrite Z.div_1_r.
  assert (0 ≤ Z.of_nat (length bytes) / 2) by (apply Z.div_pos; lia). lia.
Qed.

(** Two chunks that arrive at the same clock reading, one half: the sum of
    one half and the first chunk's length (four frames at 24 kHz) is rounded
    down, and the second chunk is started at the rounded sum, before the
    exact end of the first. *)
Lemma playback_overlaps_by_rounding :
  let inbound :=
    [(Sample.audio Sample.chunk_a, Binary64.round (1 # 2));
     (Sample.audio Sample.chunk_b, Binary64.round (1 # 2))] in
  let plan :=
    scheduled (feed Reference.decode Reference.decodeAudioData inbound
                 (with_nextStartTimeRef Binary64.zero Sample.active)).2 in
  Forall (λ mt, interrupted mt.1 = false) inbound
  ∧ plan = [(Binary64.round (1 # 2), Binary64.round (4 # 24000));
            (Binary64.add (Binary64.round (1 # 2)) (Binary64.round (4 # 24000)),
             Binary64.round (2 # 24000))]
  ∧ ¬ (∀ i (start1 d1 start2 d2 : Binary64.t),
         plan !! i = Some (start1, d1) → plan !! S i = Some (start2, d2) →
         (start1 + d1 <= start2)%Q ∧ (start1 <= start2)%Q).
Proof.
  intros inbound plan.
  assert (E : plan = [(Binary64.round (1 # 2), Binary64.round (4 # 24000));
                      (Binary64.add (Binary64.round (1 # 2))
                         (Binary64.round (4 # 24000)),
                       Binary64.round (2 # 24000))])
    by (vm_compute; reflexivity).
  split; [repeat constructor|]. split; [exact E|].
  rewrite E. intros H.
  destruct (H 0%nat _ _ _ _ eq_refl eq_refl) as [Hle _].
  vm_compute in Hle. by apply Hle.
Qed.

Lemma playback_follows_rounded_cursor_witness :
  let inbound :=
    [(Sample.audio Sample.chunk_a, Binary64.round (1 # 2));
     (Sample.audio Sample.malformed, Binary64.round (1 # 2));
     (Sample.audio Sample.chunk_b, Binary64.round 3);
     (Sample.audio Sample.chunk_a, Binary64.round 3)] in
  let plan :=
    scheduled (feed Reference.decode Reference.decodeAudioData inbound Sample.active).2 in
  plan = [(Binary64.round (5 # 2), Binary64.round (4 # 24000));
          (Binary64.round 3, Binary64.round (2 # 24000));
          (Binary64.add (Binary64.round 3) (Binary64.round (2 # 24000)),
           Binary64.round (4 # 24000))]
  ∧ ∀ start1 d1 start2 d2 : Binary64.t,
      plan !! 1%nat = Some (start1, d1) → plan !! 2%nat = Some (start2, d2) →
      (Binary64.add start1 d1 <= start2)%Q ∧ (start1 <= start2)%Q
      ∧ ((0 <= start1)%Q →
         (start1 + d1 - start2 <= (start1 + d1) * Binary64.pow2 (-53))%Q).
Proof.
  split; [vm_compute; reflexivity|].
  apply (playback_follows_rounded_cursor Reference.decode Reference.decodeAudioData
           Reference_duration_nonneg).
  repeat constructor.
Defined.

Section Interruption.

Variable decode : string → option (list Z).
Variable decodeAudioData : list Z → Z → Z → option AudioBuffer.

(** When the handler of a message with the interruption flag gets past the
    audio part, it stops every source in flight and leaves the in-flight set
    empty and the cursor at zero; a chunk enqueued next, at clock reading
    [now'], is started at [now'] and not at the earlier cursor. *)
Lemma interruption_restarts_at_now
    (m : LiveServerMessage) (now : Binary64.t) (s : ViewState) :
  interrupted m = true →
  let r := onmessage decode decodeAudioData m now s in
  outcome_of r = Returned () →
  (∀ src, src ∈ audioSourcesRef s → source_stop src ∈ effects_of r)
  ∧ audioSourcesRef (state_after r) = ∅
  ∧ nextStartTimeRef (state_after r) = Binary64.zero
  ∧ ∀ m' (now' : Binary64.t) base64Audio ctx bytes buffer,
      truthy (inlineData m') = Some base64Audio →
      outputAudioContextRef s = Some ctx →
      decode base64Audio = Some bytes →
      decodeAudioData bytes 24000 1 = Some buffer →
      (0 <= now')%Q →
      scheduled (effects_of (onmessage decode decodeAudioData m' now' (state_after r)))
      = [(now', duration buffer)].
Proof.
  intros Hint r. subst r. rewrite onmessage_parts. cbv zeta. rewrite Hint.
  destruct (transcribe_frame m s) as (_&_&_&_&_&_&Hout&_&_&Hsrc&_).
  assert (Hnext : ∀ s0, outputAudioContextRef s0 = outputAudioContextRef s →
            nextStartTimeRef s0 = Binary64.zero →
            ∀ m' (now' : Binary64.t) base64Audio ctx bytes buffer,
              truthy (inlineData m') = Some base64Audio →
              outputAudioContextRef s = Some ctx →
              decode base64Audio = Some bytes →
              decodeAudioData bytes 24000 1 = Some buffer →
              (0 <= now')%Q →
              scheduled (effects_of (onmessage decode decodeAudioData m' now' s0))
              = [(now', duration buffer)]).
  { intros s0 Hctx Hzero m' now' b64 ctx bytes buffer Ht Ho Hd Hb Hnow.
    rewrite Ho in Hctx.
    rewrite (onmessage_valid_schedules _ _ m' now' s0 b64 ctx bytes buffer Ht Hctx Hd Hb).
    by rewrite Hzero, (Math_max_from_zero _ Hnow). }
  destruct (truthy (inlineData m)) as [b64|] eqn:Ht,
           (outputAudioContextRef s) as [ctx|] eqn:Ho.
  - destruct (enqueue _ _ _ _ _ _) as [[[u|e] s2] out] eqn:He; [|done].
    intros _.
    assert (Hs2 : audioSourcesRef s ⊆ audioSourcesRef s2
                  ∧ outputAudioContextRef s2 = Some ctx).
    { unfold enqueue, bind, read, write, call, attempt, new_object in He.
      simpl in He.
      destruct (decode b64) as [bytes|]; simpl in He; [|done].
      destruct (decodeAudioData bytes 24000 1) as [buffer|]; simpl in He; [|done].
      injection He as _ <- _. simpl. rewrite Hsrc. split; [apply union_subseteq_l|exact Hout]. }
    destruct Hs2 as [Hsub Hctx2].
    split; [|split; [done|split; [done|]]].
    + intros src Hin. unfold effects_of. simpl. apply elem_of_app. right.
      apply list_elem_of_fmap. exists src. split; [done|].
      apply elem_of_elements. by apply Hsub.
    + apply Hnext; [|done]. exact Hctx2.
  - intros _. split; [|split; [done|split; [done|]]].
    + intros src Hin. unfold effects_of. simpl.
      apply list_elem_of_fmap. exists src. split; [done|].
      apply elem_of_elements. by rewrite Hsrc.
    + apply Hnext; [|done]. exact Hout.
  - intros _. split; [|split; [done|split; [done|]]].
    + intros src Hin. unfold effects_of. simpl.
      apply list_elem_of_fmap. exists src. split; [done|].
      apply elem_of_elements. by rewrite Hsrc.
    + apply Hnext; [|done]. exact Hout.
  - intros _. split; [|split; [done|split; [done|]]].
    + intros src Hin. unfold effects_of. simpl.
      apply list_elem_of_fmap. exists src. split; [done|].
      apply elem_of_elements. by rewrite Hsrc.
    + apply Hnext; [|done]. exact Hout.
Qed.

(** C10: a message that carries only the interruption flag returns normally,
    makes no call other than stopping the sources in flight, and changes
    nothing but the in-flight set (emptied) and the cursor (zeroed): the
    transcript, the [isActive] and [isConnecting] flags, the stream, script
    processor, audio context and session handles, and every other cell keep
    their values. *)
Theorem interruption_only_frame (now : Binary64.t) (s : ViewState) :
  let r := onmessage decode decodeAudioData (mkMessage None None None true) now s in
  outcome_of r = Returned ()
  ∧ effects_of r = source_stop <$> elements (audioSourcesRef s)
  ∧ state_after r = with_nextStartTimeRef Binary64.zero (with_audioSourcesRef ∅ s)
  ∧ transcripts (state_after r) = transcripts s
  ∧ isActive (state_after r) = isActive s
  ∧ isConnecting (state_after r) = isConnecting s
  ∧ mediaStreamRef (state_after r) = mediaStreamRef s
  ∧ scriptProcessorRef (state_after r) = scriptProcessorRef s
  ∧ inputAudioContextRef (state_after r) = inputAudioContextRef s
  ∧ outputAudioContextRef (state_after r) = outputAudioContextRef s
  ∧ sessionPromiseRef (state_after r) = sessionPromiseRef s
  ∧ statusMessage (state_after r) = statusMessage s
  ∧ error (state_after r) = error s
  ∧ nextObject (state_after r) = nextObject s.
Proof.
  cbv zeta. rewrite onmessage_parts. simpl. repeat split.
Qed.

End Interruption.

(** ** Decode errors *)

Section DecodeErrors.

Variable decode : string → option (list Z).
Variable decodeAudioData : list Z → Z → Z → option AudioBuffer.

(** A chunk that does not decode makes [onmessage] throw out of its audio
    part: the chunk is not scheduled, nothing is logged, the interruption part
    is not reached, and apart from the transcript only the status line and the
    cursor (raised to the clock) have changed. *)
Lemma onmessage_malformed (m : LiveServerMessage) (now : Binary64.t) (s : ViewState)
    (base64Audio : string) (ctx : nat) :
  truthy (inlineData m) = Some base64Audio →
  outputAudioContextRef s = Some ctx →
  (decode base64Audio ≫= λ bytes, decodeAudioData bytes 24000 1) = None →
  onmessage decode decodeAudioData m now s =
  (Thrown DecodeError,
   with_nextStartTimeRef
     (Math_max (nextStartTimeRef (state_after (transcribe m s))) now)
     (with_statusMessage "AI is speaking..." (state_after (transcribe m s))),
   []).
Proof.
  intros Ht Ho Hd. rewrite onmessage_parts. cbv zeta. rewrite Ht, Ho.
  by rewrite (enqueue_malformed _ _ _ _ _ _ Hd).
Qed.

(** C7: a chunk that does not decode makes the handler throw [DecodeError]
    having made no call at all, so nothing is logged.  The chunk is dropped,
    the lifecycle flags, the handles and the in-flight set are as before (the
    session is not terminated), and a valid chunk that follows is scheduled,
    at the later of the clock readings and the old cursor. *)
Theorem decode_error_goes_unlogged
    (m m' : LiveServerMessage) (now now' : Binary64.t) (s : ViewState)
    (base64Audio base64Audio' : string) (ctx : nat)
    (bytes' : list Z) (buffer' : AudioBuffer) :
  truthy (inlineData m) = Some base64Audio →
  outputAudioContextRef s = Some ctx →
  (decode base64Audio ≫= λ bytes, decodeAudioData bytes 24000 1) = None →
  truthy (inlineData m') = Some base64Audio' →
  decode base64Audio' = Some bytes' →
  decodeAudioData bytes' 24000 1 = Some buffer' →
  let bad := onmessage decode decodeAudioData m now s in
  outcome_of bad = Thrown DecodeError
  ∧ effects_of bad = []
  ∧ filter (λ e, logs e = true) (effects_of bad) = []
  ∧ isActive (state_after bad) = isActive s
  ∧ isConnecting (state_after bad) = isConnecting s
  ∧ held (state_after bad) = held s
  ∧ scheduled (effects_of (onmessage decode decodeAudioData m' now' (state_after bad)))
    = [(Math_max (Math_max (nextStartTimeRef s) now) now', duration buffer')].
Proof.
  intros Ht Ho Hd Ht' Hb' Hd' bad. subst bad.
  rewrite (onmessage_malformed m now s base64Audio ctx Ht Ho Hd).
  destruct (transcribe_frame m s) as (Hc&Ha&_&_&Hs&Hi&Hout&Hp&Hm&Hsrc&Hcur&_).
  split; [done|]. split; [done|]. split; [done|].
  split; [exact Ha|]. split; [exact Hc|]. split.
  { apply held_ext; [exact Hm|exact Hp|exact Hi|exact Hout|exact Hsrc|exact Hs]. }
  match goal with
  | |- context [onmessage _ _ m' now' ?s0] =>
      rewrite (onmessage_valid_schedules _ _ m' now' s0 base64Audio' ctx bytes'
                 buffer' Ht' (eq_trans Hout Ho) Hb' Hd')
  end.
  change (nextStartTimeRef (state_after (Thrown DecodeError, _, [])))
    with (Math_max (nextStartTimeRef (state_after (transcribe m s))) now).
  by rewrite Hcur.
Qed.

End DecodeErrors.

Lemma decode_error_goes_unlogged_witness :
  let bad := onmessage Reference.decode Reference.decodeAudioData
               (Sample.audio Sample.malformed) (Binary64.round 3) Sample.active in
  outcome_of bad = Thrown DecodeError
  ∧ effects_of bad = []
  ∧ isActive (state_after bad) = true
  ∧ scheduled (effects_of (onmessage Reference.decode Reference.decodeAudioData
                             (Sample.audio Sample.chunk_a) (Binary64.round (7 # 2))
                             (state_after bad)))
    = [(Binary64.round (7 # 2), Binary64.round (4 # 24000))].
Proof.
  pose proof (decode_error_goes_unlogged Reference.decode Reference.decodeAudioData
                (Sample.audio Sample.malformed) (Sample.audio Sample.chunk_a)
                (Binary64.round 3) (Binary64.round (7 # 2)) Sample.active
                Sample.malformed Sample.chunk_a
                2%nat [0; 1; 2; 3; 4; 5; 6; 7] (mkBuffer (Binary64.round (4 # 24000)))
                eq_refl eq_refl eq_refl eq_refl eq_refl eq_refl)
    as (Hthrown & Hnone & _ & Hact & _ & _ & Hnext).
  split; [exact Hthrown|]. split; [exact Hnone|]. split; [exact Hact|exact Hnext].
Defined.

(** With the interruption flag on the same message, the sources in flight are
    not stopped: the handler has thrown before it gets there. *)
Example decode_error_skips_interruption :
  onmessage Reference.decode Reference.decodeAudioData
    (mkMessage None None (Some Sample.malformed) true) (Binary64.round 3)
    Sample.active
  = onmessage Reference.decode Reference.decodeAudioData
      (Sample.audio Sample.malformed) (Binary64.round 3) Sample.active.
Proof. reflexivity. Qed.

(** ** Interruption signals *)

Section InterruptionSignal.

Variable decode : string → option (list Z).
Variable decodeAudioData : list Z → Z → Z → option AudioBuffer.

(** The handler returns unless the message carries a chunk that does not
    decode while there is an output context. *)
Lemma onmessage_returns (m : LiveServerMessage) (now : Binary64.t) (s : ViewState) :
  (∀ base64Audio ctx,
     truthy (inlineData m) = Some base64Audio →
     outputAudioContextRef s = Some ctx →
     (decode base64Audio ≫= λ bytes, decodeAudioData bytes 24000 1) ≠ None) →
  outcome_of (onmessage decode decodeAudioData m now s) = Returned ().
Proof.
  intros Hok. rewrite onmessage_parts. cbv zeta.
  destruct (truthy (inlineData m)) as [b64|] eqn:Ht,
           (outputAudioContextRef s) as [ctx|] eqn:Ho;
    try (by destruct (interrupted m)).
  specialize (Hok b64 ctx eq_refl eq_refl).
  destruct (decode b64) as [bytes|] eqn:Hd; [|done]. simpl in Hok.
  destruct (decodeAudioData bytes 24000 1) as [buffer|] eqn:Hb; [|done].
  rewrite (enqueue_decoded _ _ _ _ _ _ _ _ Hd Hb).
  by destruct (interrupted m).
Qed.

(** C4: what an inbound message with the interruption flag does.  Unless it
    also carries a chunk that does not decode, its handler stops every source
    in flight, leaves the in-flight set empty and the cursor at zero, and a
    chunk enqueued next, at clock reading [now'], is started at [now'].  When
    it carries such a chunk the handler throws at line 346 before it reaches
    lines 361-365: no source is stopped, the in-flight set is as it was, the
    cursor is the later of the old cursor and the clock, and a chunk enqueued
    next is started at the later of that and [now']. *)
Theorem interruption_lost_with_undecodable_chunk
    (m : LiveServerMessage) (now : Binary64.t) (s : ViewState) :
  interrupted m = true →
  let r := onmessage decode decodeAudioData m now s in
  let undecodable :=
    ∃ base64Audio ctx,
      truthy (inlineData m) = Some base64Audio
      ∧ outputAudioContextRef s = Some ctx
      ∧ (decode base64Audio ≫= λ bytes, decodeAudioData bytes 24000 1) = None in
  (¬ undecodable →
   outcome_of r = Returned ()
   ∧ (∀ src, src ∈ audioSourcesRef s → source_stop src ∈ effects_of r)
   ∧ audioSourcesRef (state_after r) = ∅
   ∧ nextStartTimeRef (state_after r) = Binary64.zero
   ∧ ∀ m' (now' : Binary64.t) base64Audio ctx bytes buffer,
       truthy (inlineData m') = Some base64Audio →
       outputAudioContextRef s = Some ctx →
       decode base64Audio = Some bytes →
       decodeAudioData bytes 24000 1 = Some buffer →
       (0 <= now')%Q →
       scheduled (effects_of (onmessage decode decodeAudioData m' now' (state_after r)))
       = [(now', duration buffer)])
  ∧ (undecodable →
     outcome_of r = Thrown DecodeError
     ∧ effects_of r = []
     ∧ audioSourcesRef (state_after r) = audioSourcesRef s
     ∧ nextStartTimeRef (state_after r) = Math_max (nextStartTimeRef s) now
     ∧ ∀ m' (now' : Binary64.t) base64Audio ctx bytes buffer,
         truthy (inlineData m') = Some base64Audio →
         outputAudioContextRef s = Some ctx →
         decode base64Audio = Some bytes →
         decodeAudioData bytes 24000 1 = Some buffer →
         scheduled (effects_of (onmessage decode decodeAudioData m' now' (state_after r)))
         = [(Math_max (Math_max (nextStartTimeRef s) now) now', duration buffer)]).
Proof.
  intros Hint r undecodable. split.
  - intros Hok.
    assert (Hret : outcome_of r = Returned ()).
    { apply onmessage_returns. intros b64 ctx Ht Ho Hd.
      apply Hok. by exists b64, ctx. }
    split; [exact Hret|].
    exact (interruption_restarts_at_now decode decodeAudioData m now s Hint Hret).
  - intros (b64 & ctx & Ht & Ho & Hd). subst r.
    rewrite (onmessage_malformed decode decodeAudioData m now s b64 ctx Ht Ho Hd).
    destruct (transcribe_frame m s) as (_&_&_&_&_&_&Hout&_&_&Hsrc&Hcur&_).
    split; [done|]. split; [done|]. split; [exact Hsrc|].
    split.
    { change (Math_max (nextStartTimeRef (state_after (transcribe m s))) now
              = Math_max (nextStartTimeRef s) now).
      by rewrite Hcur. }
    intros m' now' b64' ctx' bytes' buffer' Ht' Ho' Hd' Hb'.
    match goal with
    | |- context [onmessage _ _ m' now' ?s0] =>
        rewrite (onmessage_valid_schedules decode decodeAudioData m' now' s0 b64'
                   ctx' bytes' buffer' Ht' (eq_trans Hout Ho') Hd' Hb')
    end.
    change (nextStartTimeRef (state_after (Thrown DecodeError, _, [])))
      with (Math_max (nextStartTimeRef (state_after (transcribe m s))) now).
    by rewrite Hcur.
Qed.

End InterruptionSignal.

(** An interruption signal that carries a chunk which is not base64 arrives
    at clock reading 1, with two sources in flight and audio queued up to
    2.5: nothing is stopped, and a chunk that arrives at clock reading 2 is
    started at 2.5. *)
Lemma interruption_lost_with_undecodable_chunk_witness :
  let r := onmessage Reference.decode Reference.decodeAudioData
             (mkMessage None None (Some Sample.malformed) true)
             (Binary64.round 1) Sample.active in
  outcome_of r = Thrown DecodeError
  ∧ effects_of r = []
  ∧ audioSourcesRef (state_after r) = audioSourcesRef Sample.active
  ∧ nextStartTimeRef (state_after r) = Binary64.round (5 # 2)
  ∧ scheduled (effects_of (onmessage Reference.decode Reference.decodeAudioData
                             (Sample.audio Sample.chunk_a) (Binary64.round 2)
                             (state_after r)))
    = [(Binary64.round (5 # 2), Binary64.round (4 # 24000))].
Proof.
  destruct (interruption_lost_with_undecodable_chunk Reference.decode
              Reference.decodeAudioData
              (mkMessage None None (Some Sample.malformed) true)
              (Binary64.round 1) Sample.active eq_refl) as [_ Hlost].
  destruct Hlost as (Hthrown & Hnone & Hsrc & Hcur & Hnext).
  { exists Sample.malformed, 2%nat. by repeat split. }
  split; [exact Hthrown|]. split; [exact Hnone|]. split; [exact Hsrc|].
  split; [exact Hcur|].
  exact (Hnext (Sample.audio Sample.chunk_a) (Binary64.round 2) Sample.chunk_a 2%nat
           [0; 1; 2; 3; 4; 5; 6; 7] (mkBuffer (Binary64.round (4 # 24000)))
           eq_refl eq_refl eq_refl eq_refl).
Defined.

(** ** Starting and stopping *)

Lemma bind_cleanup {B} (k : unit → Handler B) (s : ViewState) :
  bind cleanup k s =
  let '(r, s2, out2) := k () (state_after (cleanup s)) in
  (r, s2, effects_of (cleanup s) ++ out2).
Proof. unfold bind. rewrite (cleanup_run s). reflexivity. Qed.

Lemma resume_denied (s : ViewState) :
  handleToggleConversation_resume None s =
  (Returned None,
   with_statusMessage "Error. Press microphone to retry."
     (state_after (cleanup (with_error
        (Some "Could not start the microphone. Please check permissions and try again.") s))),
   console_error DeviceUnavailable :: effects_of (cleanup s)).
Proof.
  unfold handleToggleConversation_resume, try_catch, attempt, throw.
  unfold bind at 1. simpl.
  unfold bind at 1. unfold call at 1. unfold bind at 1. unfold write at 1.
  rewrite bind_cleanup. rewrite !cleanup_run. simpl.
  by rewrite ?app_nil_r.
Qed.

Lemma resume_granted (ms : MediaStream) (s : ViewState) :
  handleToggleConversation_resume (Some ms) s =
  (Returned (Some (S (S (nextObject s)))),
   {| isConnecting := isConnecting s; isActive := isActive s;
      statusMessage := statusMessage s; transcripts := transcripts s;
      error := error s;
      sessionPromiseRef := Some (S (S (nextObject s)));
      inputAudioContextRef := Some (nextObject s);
      outputAudioContextRef := Some (S (nextObject s));
      scriptProcessorRef := scriptProcessorRef s;
      mediaStreamRef := Some ms; audioSourcesRef := audioSourcesRef s;
      nextStartTimeRef := nextStartTimeRef s;
      nextObject := S (S (S (nextObject s))) |},
   [context_new (nextObject s) 16000; context_new (S (nextObject s)) 24000;
    live_connect (S (S (nextObject s)))]).
Proof. reflexivity. Qed.

Lemma toggle_idle (s : ViewState) :
  isActive s = false →
  handleToggleConversation s =
  (Returned (Some (nextObject s)),
   {| isConnecting := true; isActive := false;
      statusMessage := "Connecting to Gemini and requesting microphone...";
      transcripts := []; error := None;
      sessionPromiseRef := sessionPromiseRef s;
      inputAudioContextRef := inputAudioContextRef s;
      outputAudioContextRef := outputAudioContextRef s;
      scriptProcessorRef := scriptProcessorRef s;
      mediaStreamRef := mediaStreamRef s; audioSourcesRef := audioSourcesRef s;
      nextStartTimeRef := nextStartTimeRef s;
      nextObject := S (nextObject s) |},
   [getUserMedia (nextObject s)]).
Proof.
  intros H. unfold handleToggleConversation. unfold bind at 1. unfold read at 1.
  rewrite H. simpl. unfold with_nextObject, with_statusMessage, with_transcripts, with_error, with_isConnecting. simpl. rewrite ?H. reflexivity.
Qed.

Lemma toggle_active (s : ViewState) :
  isActive s = true →
  handleToggleConversation s =
  (Returned None,
   with_statusMessage "Session ended. Press the microphone to start again."
     (state_after (cleanup s)),
   effects_of (cleanup s)).
Proof.
  intros H. unfold handleToggleConversation. unfold bind at 1. unfold read at 1.
  rewrite H. rewrite bind_cleanup. rewrite !cleanup_run. simpl.
  by rewrite !app_nil_r.
Qed.

Lemma onerror_run (s : ViewState) :
  onerror s =
  (Returned (),
   with_statusMessage "Error. Press microphone to retry."
     (state_after (cleanup (with_error
        (Some "An error occurred during the session. Please try again.") s))),
   console_error ErrorEvent :: effects_of (cleanup s)).
Proof.
  unfold onerror. unfold bind at 1. unfold call at 1. unfold bind at 1.
  unfold write at 1. rewrite bind_cleanup. rewrite !cleanup_run. simpl.
  by rewrite !app_nil_r.
Qed.

Lemma onclose_run (s : ViewState) :
  onclose s =
  (Returned (),
   with_statusMessage "Session closed. Press microphone to start again."
     (state_after (cleanup s)),
   effects_of (cleanup s)).
Proof.
  unfold onclose. rewrite bind_cleanup. rewrite !cleanup_run. simpl.
  by rewrite !app_nil_r.
Qed.

(** ** The event loop and the cursor *)

Lemma account_component (w : World) (e : Effect) :
  component (account w e) = component w.
Proof. by destruct w, e. Qed.

Lemma foldl_account_component (out : list Effect) (w : World) :
  component (foldl account w out) = component w.
Proof.
  revert w. induction out as [|e out IH]; intros w; [done|].
  simpl. by rewrite IH, account_component.
Qed.

Lemma dispatch_component {A} (h : Handler A) (w : World) :
  component (dispatch h w).2 = state_after (h (component w)).
Proof.
  unfold dispatch, state_after. destruct (h (component w)) as [[r s] out].
  simpl. by rewrite foldl_account_component.
Qed.

Lemma settle_component (req : nat) (granted : option MediaStream) (w : World) :
  component (settle req granted w)
  = state_after (handleToggleConversation_resume granted (component w)).
Proof.
  destruct w as [c m pd ss lt lc pr pl h]. unfold settle.
  match goal with
  | |- context [dispatch ?hd ?w0] =>
      pose proof (dispatch_component hd w0) as Hc;
      destruct (dispatch hd w0) as [r w']
  end.
  cbn [component] in *. rewrite <- Hc.
  destruct r as [[sess|]|e], granted as [ms|]; try reflexivity.
  by destruct w'.
Qed.

Lemma onopen_cursor (stream : MediaStream) (s : ViewState) :
  nextStartTimeRef (state_after (onopen stream s)) = nextStartTimeRef s.
Proof.
  unfold onopen, state_after, bind, read, write, call, attempt, new_object.
  simpl. by destruct (inputAudioContextRef s).
Qed.

Lemma onaudioprocess_cursor (encode : list Z → string) (inputData : list Q)
    (s : ViewState) :
  nextStartTimeRef (state_after (onaudioprocess encode inputData s))
  = nextStartTimeRef s.
Proof.
  unfold onaudioprocess, state_after, bind, read, optional, call.
  simpl. by destruct (sessionPromiseRef s).
Qed.

Lemma onended_cursor (src : nat) (s : ViewState) :
  nextStartTimeRef (state_after (onended src s)) = nextStartTimeRef s.
Proof.
  unfold onended, state_after, bind, read, write. simpl.
  by case_bool_decide.
Qed.

Lemma cleanup_cursor (s : ViewState) :
  nextStartTimeRef (state_after (cleanup s)) = Binary64.zero.
Proof. by rewrite cleanup_run. Qed.

Section Cursor.

Variable decode : string → option (list Z).
Variable decodeAudioData : list Z → Z → Z → option AudioBuffer.
Variable encode : list Z → string.

Hypothesis duration_nonneg :
  ∀ bytes buffer,
    decodeAudioData bytes 24000 1 = Some buffer → (0 <= duration buffer)%Q.

Lemma onmessage_cursor (m : LiveServerMessage) (now : Binary64.t) (s : ViewState) :
  let s' := state_after (onmessage decode decodeAudioData m now s) in
  (nextStartTimeRef s <= nextStartTimeRef s')%Q
  ∨ (interrupted m = true ∧ nextStartTimeRef s' = Binary64.zero).
Proof.
  cbv zeta. destruct (interrupted m) eqn:Hint.
  - rewrite onmessage_parts. cbv zeta. rewrite Hint.
    destruct (transcribe_frame m s) as (_&_&_&_&_&_&_&_&_&_&Hcur&_).
    destruct (truthy (inlineData m)) as [b64|], (outputAudioContextRef s) as [ctx|];
      try (right; split; reflexivity).
    destruct (decode b64 ≫= λ bytes, decodeAudioData bytes 24000 1)
      as [buffer|] eqn:Hd.
    + destruct (decode b64) as [bytes|] eqn:Hb; [|done]. simpl in Hd.
      rewrite (enqueue_decoded _ _ _ _ _ _ _ _ Hb Hd). right. split; reflexivity.
    + rewrite (enqueue_malformed _ _ _ _ _ _ Hd). left.
      simpl. rewrite Hcur. apply Math_max_l.
  - left. pose proof (onmessage_schedules decode decodeAudioData duration_nonneg
                        m now s Hint) as H.
    cbv zeta in H. destruct H as [[_ H]|(st & d & _ & Hle & Hd & ->)]; [done|].
    apply Qle_trans with st; [done|]. by apply add_ge_l.
Qed.

(** C6 (amended): every turn of the event loop leaves the cursor at or above
    its previous value, except that it is set to zero by the interruption
    part of [onmessage] and by every handler that calls [cleanup] (a click
    while active, a failed start, a transport error or close, unmount). *)
Theorem cursor_decreases_only_on_reset (w w' : World) (ev : Event) :
  step decode decodeAudioData encode w ev = Some w' →
  (cursor w <= cursor w')%Q
  ∨ (interruption ev || teardown w ev = true ∧ cursor w' = Binary64.zero).
Proof.
  unfold cursor. destruct ev as [|req ms|req|sess|sess m now|sess|sess|p data|src|];
    simpl.
  - destruct (mounted w && negb (isConnecting (component w))); [|done].
    intros [= <-]. rewrite dispatch_component.
    destruct (isActive (component w)) eqn:Hact.
    + right. split; [done|]. by rewrite (toggle_active _ Hact), cleanup_run.
    + left. rewrite (toggle_idle _ Hact). apply Qle_refl.
  - case_bool_decide; [|done]. intros [= <-]. rewrite settle_component.
    left. rewrite resume_granted. apply Qle_refl.
  - case_bool_decide; [|done]. intros [= <-]. rewrite settle_component.
    right. split; [done|]. by rewrite resume_denied, cleanup_run.
  - destruct (sessions w !! sess) as [stream|]; [|done]. simpl.
    intros [= <-]. rewrite dispatch_component, onopen_cursor. left. apply Qle_refl.
  - destruct (sessions w !! sess) as [stream|]; [|done]. simpl.
    intros [= <-]. rewrite dispatch_component.
    destruct (onmessage_cursor m now (component w)) as [H|[H1 H2]]; [by left|].
    right. by rewrite H1.
  - destruct (sessions w !! sess) as [stream|]; [|done]. simpl.
    intros [= <-]. rewrite dispatch_component. right. split; [done|].
    by rewrite onerror_run, cleanup_run.
  - destruct (sessions w !! sess) as [stream|]; [|done]. simpl.
    pose proof (dispatch_component onclose w) as Hc.
    destruct (dispatch onclose w).2 as [c m pd ss lt lc pr pl h].
    intros [= <-]. simpl in *. subst c. right. split; [done|].
    by rewrite onclose_run, cleanup_run.
  - case_bool_decide; [|done]. intros [= <-].
    rewrite dispatch_component, onaudioprocess_cursor. left. apply Qle_refl.
  - case_bool_decide; [|done].
    pose proof (dispatch_component (onended src) w) as Hc.
    destruct (dispatch (onended src) w).2 as [c m pd ss lt lc pr pl h].
    intros [= <-]. simpl in *. subst c. rewrite onended_cursor. left. apply Qle_refl.
  - destruct (mounted w); [|done].
    pose proof (dispatch_component cleanup w) as Hc.
    destruct (dispatch cleanup w).2 as [c m pd ss lt lc pr pl h].
    intros [= <-]. simpl in *. subst c. right. split; [done|].
    by rewrite cleanup_run.
Qed.
End Cursor.


(** C6, as stated, fails: a click on the button of an active session is not an
    interruption, and it takes the cursor from 1/2 + 4/24000 (as the code
    adds them) back to zero. *)
Lemma cursor_reset_by_teardown :
  cursor <$> run Reference.decode Reference.decodeAudioData Reference.encode boot
               Sample.one_chunk_played
    = Some (Binary64.add (Binary64.round (1 # 2)) (Binary64.round (4 # 24000)))
  ∧ cursor <$> run Reference.decode Reference.decodeAudioData Reference.encode boot
                 (Sample.one_chunk_played ++ [Click])
    = Some Binary64.zero
  ∧ interruption Click = false
  ∧ (0 < Binary64.add (Binary64.round (1 # 2)) (Binary64.round (4 # 24000)))%Q.
Proof. vm_compute. repeat split. Qed.

Lemma chunk_arrives_step :
  step Reference.decode Reference.decodeAudioData Reference.encode
    Sample.world Sample.chunk_arrives = Some Sample.world_after_chunk.
Proof. vm_compute. reflexivity. Qed.

Lemma cursor_decreases_only_on_reset_witness :
  cursor Sample.world = Binary64.round (5 # 2)
  ∧ cursor Sample.world_after_chunk
    = Binary64.add (Binary64.round 3) (Binary64.round (4 # 24000))
  ∧ ((cursor Sample.world <= cursor Sample.world_after_chunk)%Q
     ∨ (interruption Sample.chunk_arrives || teardown Sample.world Sample.chunk_arrives
        = true ∧ cursor Sample.world_after_chunk = Binary64.zero)).
Proof.
  split; [reflexivity|]. split; [reflexivity|].
  exact (cursor_decreases_only_on_reset Reference.decode Reference.decodeAudioData
           Reference.encode Reference_duration_nonneg
           Sample.world Sample.world_after_chunk Sample.chunk_arrives
           chunk_arrives_step).
Defined.

(** ** Runs without a reset *)

Lemma account_history (w : World) (e : Effect) :
  history (account w e) = history w ++ [e].
Proof. by destruct w, e. Qed.

Lemma foldl_account_history (out : list Effect) (w : World) :
  history (foldl account w out) = history w ++ out.
Proof.
  revert w. induction out as [|e out IH]; intros w; simpl.
  - by rewrite app_nil_r.
  - by rewrite IH, account_history, <- (assoc_L (++)).
Qed.

Lemma dispatch_history {A} (h : Handler A) (w : World) :
  history (dispatch h w).2 = history w ++ effects_of (h (component w)).
Proof.
  unfold dispatch, effects_of. destruct (h (component w)) as [[r s] out].
  simpl. rewrite foldl_account_history. by destruct w.
Qed.

Lemma settle_history (req : nat) (granted : option MediaStream) (w : World) :
  history (settle req granted w)
  = history w ++ effects_of (handleToggleConversation_resume granted (component w)).
Proof.
  destruct w as [c m pd ss lt lc pr pl h]. unfold settle.
  match goal with
  | |- context [dispatch ?hd ?w0] =>
      pose proof (dispatch_history hd w0) as Hh;
      destruct (dispatch hd w0) as [r w']
  end.
  cbn [component history snd] in *. rewrite <- Hh.
  destruct r as [[sess|]|e], granted as [ms|]; try reflexivity.
  by destruct w'.
Qed.

Section Runs.

Variable decode : string → option (list Z).
Variable decodeAudioData : list Z → Z → Z → option AudioBuffer.
Variable encode : list Z → string.

Hypothesis duration_nonneg :
  ∀ bytes buffer,
    decodeAudioData bytes 24000 1 = Some buffer → (0 <= duration buffer)%Q.

Lemma step_schedules (w w' : World) (ev : Event) :
  plays_on ev = true →
  step decode decodeAudioData encode w ev = Some w' →
  ∃ plan, scheduled (history w') = scheduled (history w) ++ plan
    ∧ ((plan = [] ∧ (cursor w <= cursor w')%Q)
       ∨ ∃ startAt length, plan = [(startAt, length)]
           ∧ (cursor w <= startAt)%Q ∧ (0 <= length)%Q
           ∧ cursor w' = Binary64.add startAt length).
Proof.
  unfold cursor.
  destruct ev as [|req ms|req|sess|sess m now|sess|sess|p data|src|];
    simpl; try done; intros Hplay.
  - case_bool_decide; [|done]. intros [= <-].
    rewrite settle_history, settle_component, resume_granted.
    exists []. split; [by rewrite scheduled_app|]. left. split; [done|apply Qle_refl].
  - destruct (sessions w !! sess) as [stream|]; [|done]. simpl. intros [= <-].
    rewrite dispatch_history, dispatch_component, onopen_cursor, scheduled_app.
    exists []. split; [|left; split; [done|apply Qle_refl]].
    f_equal. unfold onopen, effects_of, bind, read, write, call, attempt, new_object.
    simpl. by destruct (inputAudioContextRef (component w)).
  - destruct (sessions w !! sess) as [stream|]; [|done]. simpl. intros [= <-].
    rewrite dispatch_history, dispatch_component, scheduled_app.
    apply negb_true_iff in Hplay.
    pose proof (onmessage_schedules decode decodeAudioData duration_nonneg
                  m now (component w) Hplay) as H. cbv zeta in H.
    destruct H as [[-> Hle]|(st & d & -> & Hle & Hd & Hcur)].
    + exists []. split; [done|]. by left.
    + exists [(st, d)]. split; [done|]. right. by exists st, d.
  - case_bool_decide; [|done]. intros [= <-].
    rewrite dispatch_history, dispatch_component, onaudioprocess_cursor, scheduled_app.
    exists []. split; [|left; split; [done|apply Qle_refl]].
    f_equal. unfold onaudioprocess, effects_of, bind, read, optional, call.
    simpl. by destruct (sessionPromiseRef (component w)).
  - case_bool_decide; [|done].
    pose proof (dispatch_component (onended src) w) as Hc.
    pose proof (dispatch_history (onended src) w) as Hh.
    destruct (dispatch (onended src) w).2 as [c m pd ss lt lc pr pl h].
    intros [= <-]. simpl in *. subst c h. rewrite onended_cursor, scheduled_app.
    exists []. split; [|left; split; [done|apply Qle_refl]].
    f_equal. unfold onended, effects_of, bind, read, write. simpl.
    by case_bool_decide.
Qed.

(** Whatever else happens in between (grants, opens, captured frames, ended
    sources), as long as no handler resets the cursor the starts added to the
    history are back to back. *)
Lemma run_back_to_back (evs : list Event) (w w' : World) :
  Forall (λ ev, plays_on ev = true) evs →
  run decode decodeAudioData encode w evs = Some w' →
  ∃ plan, scheduled (history w') = scheduled (history w) ++ plan
    ∧ back_to_back (cursor w) plan.
Proof.
  revert w. induction evs as [|ev rest IH]; intros w Hall; simpl.
  - intros [= <-]. exists []. by rewrite app_nil_r.
  - inversion Hall as [|? ? Hev Hrest]; subst.
    destruct (step decode decodeAudioData encode w ev) as [w1|] eqn:Hstep; [|done].
    simpl. intros Hrun.
    destruct (step_schedules w w1 ev Hev Hstep) as (plan1 & Hh1 & Hcase).
    destruct (IH w1 Hrest Hrun) as (plan2 & Hh2 & Hb2).
    exists (plan1 ++ plan2). split; [by rewrite Hh2, Hh1, (assoc_L (++))|].
    destruct Hcase as [[-> Hle]|(st & d & -> & Hle & Hd & Hcur)]; simpl.
    + by apply back_to_back_earlier with (cursor w1).
    + split; [done|]. split; [done|]. by rewrite <- Hcur.
Qed.
End Runs.

(** ** Failed microphone acquisition *)

(** C8: a start attempt whose [getUserMedia] request is rejected calls
    neither [ai.live.connect] nor [sendRealtimeInput], before or after the
    rejection, and registers no session; it logs the failure, runs [cleanup]
    and ends with both lifecycle flags false, the error message set, every
    handle null, and no frame sent by a capture callback that might still
    fire. *)
Theorem failed_microphone_never_reaches_transport
    (encode : list Z → string) (s s' : ViewState) :
  isActive s = false →
  let begun := handleToggleConversation s in
  let aborted := handleToggleConversation_resume None s' in
  effects_of begun = [getUserMedia (nextObject s)]
  ∧ Forall (λ e, uses_transport e = false) (effects_of begun ++ effects_of aborted)
  ∧ console_error DeviceUnavailable ∈ effects_of aborted
  ∧ outcome_of aborted = Returned None
  ∧ isConnecting (state_after aborted) = false
  ∧ isActive (state_after aborted) = false
  ∧ error (state_after aborted)
    = Some "Could not start the microphone. Please check permissions and try again."
  ∧ statusMessage (state_after aborted) = "Error. Press microphone to retry."
  ∧ held (state_after aborted) = []
  ∧ sessionPromiseRef (state_after aborted) = None
  ∧ ∀ inputData,
      effects_of (onaudioprocess encode inputData (state_after aborted)) = [].
Proof.
  intros Hidle. cbv zeta. rewrite (toggle_idle s Hidle), resume_denied.
  rewrite !cleanup_run. unfold effects_of, state_after, outcome_of. simpl.
  split; [done|]. split.
  { repeat first [apply Forall_cons; split; [reflexivity|]
                 | apply Forall_app; split
                 | apply Forall_fmap, Forall_true; intros ?; reflexivity]. }
  split; [apply list_elem_of_here|].
  repeat split.
Qed.

Lemma failed_microphone_never_reaches_transport_witness :
  let begun := handleToggleConversation initial in
  let aborted := handleToggleConversation_resume None (state_after begun) in
  effects_of begun ++ effects_of aborted
  = [getUserMedia 0; console_error DeviceUnavailable]
  ∧ Forall (λ e, uses_transport e = false) (effects_of begun ++ effects_of aborted)
  ∧ isConnecting (state_after aborted) = false
  ∧ isActive (state_after aborted) = false.
Proof.
  pose proof (failed_microphone_never_reaches_transport Reference.encode initial
                (state_after (handleToggleConversation initial)) eq_refl)
    as (_ & Hnone & _ & _ & Hconn & Hact & _).
  split; [reflexivity|]. split; [exact Hnone|]. split; [exact Hconn|exact Hact].
Defined.

(** ** Concurrent sessions *)

(** The button does nothing while [isConnecting] is set (line 414). *)
Lemma click_rejected_while_connecting
    (decode : string → option (list Z))
    (decodeAudioData : list Z → Z → Z → option AudioBuffer)
    (encode : list Z → string) (w : World) :
  isConnecting (component w) = true →
  step decode decodeAudioData encode w Click = None.
Proof. intros H. simpl. rewrite H. by destruct (mounted w). Qed.

(** C9: the run [Sample.restart_race] is possible.  After its sixth turn
    [isConnecting] is false although the request of the fifth is still
    pending, which is what lets the seventh through.  After the ninth, two
    sessions are connected and not closed, each with its own microphone stream
    whose track is live, and four audio contexts are open, while the refs
    point at the later ones only; nothing of either session has been released.
    After the last, both connections have opened and each has its capture
    processor connected. *)
Theorem restart_race_holds_two_microphones
    (decode : string → option (list Z))
    (decodeAudioData : list Z → Z → Z → option AudioBuffer)
    (encode : list Z → string) :
  let run_to n :=
    run decode decodeAudioData encode boot (take n Sample.restart_race) in
  (λ w, (isConnecting (component w), isActive (component w), elements (pending w)))
    <$> run_to 6%nat = Some (false, false, [5%nat])
  ∧ sessions <$> run_to 9%nat
    = Some {[9%nat := Sample.microphone 20; 12%nat := Sample.microphone 30]}
  ∧ liveTracks <$> run_to 9%nat = Some {[20%nat; 30%nat]}
  ∧ liveContexts <$> run_to 9%nat = Some {[7%nat; 8%nat; 10%nat; 11%nat]}
  ∧ (λ w, released (history w)) <$> run_to 9%nat
    = Some [a_track 10; a_processor 4; a_context 1; a_context 2; a_session 3]
  ∧ (λ w, held (component w)) <$> run_to 9%nat
    = Some [a_track 30; a_context 10; a_context 11; a_session 12]
  ∧ (λ w, (isActive (component w), processors w, liveTracks w, sessions w))
      <$> run_to 11%nat
    = Some (true, {[13%nat; 14%nat]}, {[20%nat; 30%nat]},
            {[9%nat := Sample.microphone 20; 12%nat := Sample.microphone 30]}).
Proof. vm_compute. repeat split. Qed.

(** * Further properties *)

(** ** More on the capture encoding *)

Lemma truncate_nonneg (x : Q) : (0 <= x)%Q → Codec.truncate x = Qfloor x.
Proof.
  destruct x as [n d]. unfold Qle, Codec.truncate, Qfloor. simpl.
  intros H. apply Z.quot_div_nonneg; lia.
Qed.

Lemma truncate_nonpos (x : Q) : (x <= 0)%Q → Codec.truncate x = Qceiling x.
Proof.
  destruct x as [n d]. unfold Qle, Codec.truncate, Qceiling, Qfloor. simpl.
  intros H. replace n with (- - n) at 1 by lia.
  rewrite Z.quot_opp_l by lia. f_equal. apply Z.quot_div_nonneg; lia.
Qed.

Lemma truncate_mono (x y : Q) :
  (x <= y)%Q → Codec.truncate x ≤ Codec.truncate y.
Proof.
  intros Hxy. destruct (Qlt_le_dec x 0) as [Hx|Hx].
  - rewrite (truncate_nonpos x) by (by apply Qlt_le_weak).
    destruct (Qlt_le_dec y 0) as [Hy|Hy].
    + rewrite (truncate_nonpos y) by (by apply Qlt_le_weak).
      by apply Qceiling_resp_le.
    + rewrite (truncate_nonneg y Hy).
      assert (Qceiling x ≤ Qceiling 0) by (apply Qceiling_resp_le; by apply Qlt_le_weak).
      assert (Qfloor 0 ≤ Qfloor y) by (by apply Qfloor_resp_le).
      change (Qceiling 0) with 0 in *. change (Qfloor 0) with 0 in *. lia.
  - rewrite (truncate_nonneg x Hx), (truncate_nonneg y) by (by apply Qle_trans with x).
    by apply Qfloor_resp_le.
Qed.

Lemma sample_in_range (s : Q) :
  (-1 <= s)%Q → (s < 1)%Q →
  Codec.sample_to_int16 s = Codec.truncate (s * 32768)%Q.
Proof.
  intros Hlo Hhi. unfold Codec.sample_to_int16.
  by apply ToInt16_exact, truncate_scaled_range.
Qed.

(** X1: for a sample in [-1,1) the stored value is within one step of
    [sample * 32768] and never further from zero: for a non-negative sample
    it is at most the scaled value and less than one below it, for a
    non-positive sample at least the scaled value and less than one above. *)
Theorem capture_error_below_one_step (s : Q) :
  (-1 <= s)%Q → (s < 1)%Q →
  let v := Codec.sample_to_int16 s in
  ((0 <= s)%Q → (inject_Z v <= s * 32768)%Q ∧ (s * 32768 < inject_Z (v + 1))%Q)
  ∧ ((s <= 0)%Q → (inject_Z (v - 1) < s * 32768)%Q ∧ (s * 32768 <= inject_Z v)%Q).
Proof.
  intros Hlo Hhi v. subst v. rewrite (sample_in_range s Hlo Hhi). split; intros Hs.
  - rewrite truncate_nonneg by lra. split; [apply Qfloor_le|apply Qlt_floor].
  - rewrite truncate_nonpos by lra. split; [apply Qceiling_lt|apply Qle_ceiling].
Qed.

Lemma capture_error_below_one_step_witness :
  Codec.sample_to_int16 (-(3 # 131072)) = 0
  ∧ ((-(3 # 131072) <= 0)%Q →
     (inject_Z (0 - 1) < -(3 # 131072) * 32768)%Q
     ∧ (-(3 # 131072) * 32768 <= inject_Z 0)%Q).
Proof.
  split; [reflexivity|].
  refine (proj2 (capture_error_below_one_step (-(3 # 131072))%Q _ _)); discriminate || reflexivity.
Defined.

(** X2: on [-1,1) the conversion is monotone: a larger sample is never
    stored as a smaller value. *)
Theorem capture_is_monotone (s s' : Q) :
  (-1 <= s)%Q → (s <= s')%Q → (s' < 1)%Q →
  Codec.sample_to_int16 s ≤ Codec.sample_to_int16 s'.
Proof.
  intros Hlo Hle Hhi.
  rewrite (sample_in_range s), (sample_in_range s') by lra.
  apply truncate_mono. lra.
Qed.

Lemma capture_is_monotone_witness :
  Codec.sample_to_int16 (-(1 # 2)) ≤ Codec.sample_to_int16 (1 # 3).
Proof.
  apply capture_is_monotone; discriminate || reflexivity.
Defined.

(** X3: a sample at or above full scale (in [1,2)) is not clamped: it is
    stored as its truncated scaled value less 65536, a negative number. *)
Theorem capture_overload_wraps (s : Q) :
  (1 <= s)%Q → (s < 2)%Q →
  Codec.sample_to_int16 s = Codec.truncate (s * 32768)%Q - 65536
  ∧ -32768 ≤ Codec.sample_to_int16 s ≤ -1.
Proof.
  intros Hlo Hhi.
  assert (Hr : 32768 ≤ Codec.truncate (s * 32768)%Q ≤ 65535).
  { rewrite truncate_nonneg by lra. split.
    - assert (H : (32768 <= s * 32768)%Q) by lra.
      apply Qfloor_resp_le in H. exact H.
    - destruct (Z_lt_le_dec (Qfloor (s * 32768)) 65536) as [Hlt|Hge]; [lia|].
      exfalso. pose proof (Qfloor_le (s * 32768)) as Hf.
      assert (inject_Z 65536 <= inject_Z (Qfloor (s * 32768)))%Q
        by (by rewrite <- Zle_Qle).
      change (inject_Z 65536) with 65536%Q in *. lra. }
  unfold Codec.sample_to_int16, Codec.ToInt16. cbv zeta.
  rewrite (Z.mod_small (Codec.truncate _) 65536) by lia.
  destruct (Z.leb_spec 32768 (Codec.truncate (s * 32768)%Q)); lia.
Qed.

Lemma capture_overload_wraps_witness :
  Codec.sample_to_int16 1 = -32768 ∧ -32768 ≤ Codec.sample_to_int16 1 ≤ -1.
Proof.
  split; [reflexivity|].
  refine (proj2 (capture_overload_wraps 1%Q _ _)); discriminate || reflexivity.
Defined.

(** Two 16-bit values with the same two bytes are equal. *)
Lemma int16_bytes_inj (v v' : Z) :
  -32768 ≤ v ≤ 32767 → -32768 ≤ v' ≤ 32767 →
  Codec.int16_bytes v = Codec.int16_bytes v' → v = v'.
Proof.
  intros Hv Hv'. rewrite !int16_bytes_le. intros [= H1 H2].
  revert H1 H2. Z.div_mod_to_equations. lia.
Qed.

(** X4: the bytes handed to [encode] determine the stored samples: two
    buffers of 16-bit values with the same bytes are the same buffer, so the
    two-bytes-per-sample layout loses nothing. *)
Theorem capture_bytes_determine_samples (int16 int16' : list Z) :
  Forall (λ v, -32768 ≤ v ≤ 32767) int16 →
  Forall (λ v, -32768 ≤ v ≤ 32767) int16' →
  Codec.Uint8Array_of_buffer int16 = Codec.Uint8Array_of_buffer int16' →
  int16 = int16'.
Proof.
  intros Hr. revert int16'. induction Hr as [|v rest Hv Hrest IH];
    intros int16' Hr' Heq.
  - destruct int16' as [|v' rest']; [done|].
    unfold Codec.Uint8Array_of_buffer in Heq. rewrite bind_cons, int16_bytes_le in Heq.
    discriminate.
  - destruct int16' as [|v' rest']; unfold Codec.Uint8Array_of_buffer in Heq.
    + rewrite bind_cons, int16_bytes_le in Heq. discriminate.
    + inversion Hr' as [|? ? Hv' Hrest']; subst.
      rewrite !bind_cons, !int16_bytes_le in Heq.
      injection Heq as H1 H2 Htail.
      f_equal.
      * apply int16_bytes_inj; [done..|]. rewrite !int16_bytes_le. congruence.
      * by apply IH.
Qed.

(** ** More on the transcript *)

Lemma string_app_assoc (a b c : string) : (a +:+ b) +:+ c = a +:+ (b +:+ c).
Proof.
  induction a as [|ch a IH]; [reflexivity|].
  change (String ch ((a +:+ b) +:+ c) = String ch (a +:+ (b +:+ c))).
  by rewrite IH.
Qed.

Lemma string_app_empty_r (a : string) : a +:+ "" = a.
Proof.
  induction a as [|ch a IH]; [reflexivity|].
  change (String ch (a +:+ "") = String ch a). by rewrite IH.
Qed.

Lemma transcript_text_app (l1 l2 : list TranscriptEntry) :
  transcript_text (l1 ++ l2) = transcript_text l1 +:+ transcript_text l2.
Proof.
  induction l1 as [|e l1 IH]; simpl; [done|].
  by rewrite IH, string_app_assoc.
Qed.

Lemma append_cases (sp : Speaker) (t : string) (f : bool)
    (prev : list TranscriptEntry) :
  (∃ init l, prev = init ++ [l] ∧ speaker l = sp ∧ isFinal l = false
             ∧ Transcript.append sp t f prev = init ++ [mkEntry sp (text l +:+ t) f])
  ∨ ((∀ l, last prev = Some l → speaker l = sp → isFinal l = true)
     ∧ Transcript.append sp t f prev = prev ++ [mkEntry sp t f]).
Proof.
  destruct prev as [|l init _] using rev_ind.
  - right. split; [done|]. by destruct sp.
  - pose proof (update_snoc sp (mkTranscription t f) init l) as Hup. simpl in Hup.
    rewrite Hup. destruct (bool_decide (speaker l = sp)) eqn:Hsp; simpl.
    + apply bool_decide_eq_true in Hsp. destruct (isFinal l) eqn:Hfin; simpl.
      * right. split; [|by rewrite <- (assoc_L (++))].
        intros l'. rewrite last_snoc. by intros [= <-].
      * left. by exists init, l.
    + apply bool_decide_eq_false in Hsp. right.
      split; [|by rewrite <- (assoc_L (++))].
      intros l'. rewrite last_snoc. by intros [= <-].
Qed.

(** X5: a fragment adds exactly its text to the transcript: whether it is
    merged into the last entry or starts a new one, the text of all entries
    read in order is the old text followed by the fragment. *)
Theorem append_adds_exactly_the_fragment
    (sp : Speaker) (textFragment : string) (final : bool)
    (prev : list TranscriptEntry) :
  transcript_text (Transcript.append sp textFragment final prev)
  = transcript_text prev +:+ textFragment.
Proof.
  destruct (append_cases sp textFragment final prev)
    as [(init & l & -> & _ & _ & ->)|[_ ->]];
    rewrite !transcript_text_app; simpl; rewrite !string_app_empty_r; [|done].
  by rewrite string_app_assoc.
Qed.

(** X7: an existing entry is only ever extended: after a fragment it is
    still at its position with its speaker, its old text is a prefix of its
    new text, and it is unchanged if it was final or belongs to the other
    speaker. *)
Theorem append_only_extends_entries
    (sp : Speaker) (textFragment : string) (final : bool)
    (prev : list TranscriptEntry) (i : nat) (e : TranscriptEntry) :
  prev !! i = Some e →
  ∃ e', Transcript.append sp textFragment final prev !! i = Some e'
        ∧ speaker e' = speaker e
        ∧ (∃ more, text e' = text e +:+ more)
        ∧ (isFinal e = true ∨ speaker e ≠ sp → e' = e).
Proof.
  intros Hi.
  destruct (append_cases sp textFragment final prev)
    as [(init & l & -> & Hsp & Hfin & ->)|[_ ->]].
  - destruct (decide (i < length init)%nat) as [Hlt|Hge].
    + rewrite lookup_app_l in Hi |- * by done. exists e.
      split; [done|]. split; [done|]. split; [|done].
      exists "". by rewrite string_app_empty_r.
    + assert (i = length init) as ->.
      { apply lookup_lt_Some in Hi. rewrite length_app in Hi. simpl in Hi. lia. }
      rewrite list_lookup_middle in Hi |- * by done. injection Hi as <-.
      eexists. split; [done|]. simpl. split; [done|]. split; [by eexists|].
      intros [Hf|Hne]; congruence.
  - exists e. rewrite lookup_app_l by (by eapply lookup_lt_Some).
    split; [done|]. split; [done|]. split; [|done].
    exists "". by rewrite string_app_empty_r.
Qed.

Lemma append_keeps_turns_closed (sp : Speaker) (t : string) (f : bool)
    (prev : list TranscriptEntry) :
  turns_closed prev → turns_closed (Transcript.append sp t f prev).
Proof.
  intros Hprev i e1 e2.
  destruct (append_cases sp t f prev)
    as [(init & l & -> & Hsp & Hfin & ->)|[Hlast ->]].
  - intros H1 H2 Hs.
    destruct (decide (S i < length init)%nat) as [Hlt|Hge].
    + apply (Hprev i e1 e2); [| |done].
      * rewrite lookup_app_l by lia. by rewrite lookup_app_l in H1 by lia.
      * rewrite lookup_app_l by lia. by rewrite lookup_app_l in H2 by lia.
    + assert (S i = length init) as Hi.
      { apply lookup_lt_Some in H2. rewrite length_app in H2. simpl in H2. lia. }
      rewrite Hi, list_lookup_middle in H2 by done. injection H2 as <-.
      rewrite lookup_app_l in H1 by lia. simpl in Hs.
      apply (Hprev i e1 l); [by rewrite lookup_app_l by lia| |congruence].
      by rewrite Hi, list_lookup_middle.
  - intros H1 H2 Hs.
    destruct (decide (S i < length prev)%nat) as [Hlt|Hge].
    + apply (Hprev i e1 e2); [by rewrite lookup_app_l in H1 by lia
                             |by rewrite lookup_app_l in H2 by lia|done].
    + assert (S i = length prev) as Hi.
      { apply lookup_lt_Some in H2. rewrite length_app in H2. simpl in H2. lia. }
      rewrite Hi, list_lookup_middle in H2 by done. injection H2 as <-.
      rewrite lookup_app_l in H1 by lia. simpl in Hs.
      apply Hlast; [|done]. rewrite last_lookup.
      by replace (pred (length prev)) with i by lia.
Qed.

Lemma replay_snoc (frs : list (Speaker * string * bool)) (fr : Speaker * string * bool) :
  replay (frs ++ [fr]) = Transcript.append fr.1.1 fr.1.2 fr.2 (replay frs).
Proof. unfold replay. by rewrite foldl_app. Qed.

(** X6: in a transcript built from nothing by any list of fragments, two
    neighbouring entries of the same speaker are separated by a final flag:
    the earlier one is final. *)
Theorem replay_closes_turns (fragments : list (Speaker * string * bool))
    (i : nat) (e1 e2 : TranscriptEntry) :
  replay fragments !! i = Some e1 → replay fragments !! S i = Some e2 →
  speaker e1 = speaker e2 → isFinal e1 = true.
Proof.
  revert i e1 e2. change (turns_closed (replay fragments)).
  induction fragments as [|fr frs IH] using rev_ind.
  - intros i e1 e2 H. done.
  - rewrite replay_snoc. by apply append_keeps_turns_closed.
Qed.

(** ** More on single handlers *)

(** X8: when a source ends it leaves the in-flight set and nothing else
    about playback changes; the status line returns to ["Listening..."]
    when no other source is in flight, and stays as it is while one is. *)
Theorem ended_source_leaves_the_set (src : nat) (s : ViewState) :
  let r := onended src s in
  outcome_of r = Returned () ∧ effects_of r = []
  ∧ audioSourcesRef (state_after r) = audioSourcesRef s ∖ {[src]}
  ∧ (audioSourcesRef s ⊆ {[src]} → statusMessage (state_after r) = "Listening...")
  ∧ (∀ other, other ∈ audioSourcesRef s → other ≠ src →
       statusMessage (state_after r) = statusMessage s)
  ∧ nextStartTimeRef (state_after r) = nextStartTimeRef s
  ∧ isActive (state_after r) = isActive s
  ∧ transcripts (state_after r) = transcripts s
  ∧ outputAudioContextRef (state_after r) = outputAudioContextRef s
  ∧ sessionPromiseRef (state_after r) = sessionPromiseRef s.
Proof.
  cbv zeta. unfold onended, outcome_of, effects_of, state_after, bind, read, write.
  simpl. case_bool_decide as Hsize; simpl; repeat split.
  - intros other Hin Hne. exfalso. apply size_empty_inv in Hsize.
    apply (not_elem_of_empty (C := gset nat) other). rewrite <- Hsize.
    apply elem_of_difference. split; [done|]. by rewrite elem_of_singleton.
  - intros Hsub. exfalso. apply Hsize. apply size_empty_iff.
    apply set_equiv. intros x. rewrite elem_of_difference. split; [|by intros ?%not_elem_of_empty].
    intros [Hx Hn]. by apply Hsub in Hx.
Qed.

Lemma ended_source_leaves_the_set_witness :
  statusMessage (state_after (onended 5 Sample.active)) = "AI is speaking..."
  ∧ statusMessage (state_after (onended 6 (state_after (onended 5 Sample.active))))
    = "Listening...".
Proof.
  split.
  - refine (proj1 (proj2 (proj2 (proj2 (proj2
              (ended_source_leaves_the_set 5 Sample.active))))) 6%nat _ _);
      [by apply elem_of_union_r, elem_of_singleton|done].
  - refine (proj1 (proj2 (proj2 (proj2
              (ended_source_leaves_the_set 6 (state_after (onended 5 Sample.active)))))) _).
    set_solver.
Defined.

(** X9: [onopen] marks the session active and no longer connecting in every
    case.  With an input context it connects one new script processor to that
    context and to the stream of its own start call; without one (teardown
    ran before the connection opened) it throws a [TypeError] having made no
    call, and the session is left marked active with no capture running. *)
Theorem onopen_marks_active_even_without_context
    (stream : MediaStream) (s : ViewState) :
  let r := onopen stream s in
  isActive (state_after r) = true
  ∧ isConnecting (state_after r) = false
  ∧ statusMessage (state_after r) = "Listening... Speak now."
  ∧ match inputAudioContextRef s with
    | Some ctx =>
        outcome_of r = Returned ()
        ∧ effects_of r = [processor_connect (nextObject s) ctx stream]
        ∧ scriptProcessorRef (state_after r) = Some (nextObject s)
    | None =>
        outcome_of r = Thrown TypeError
        ∧ effects_of r = []
        ∧ scriptProcessorRef (state_after r) = scriptProcessorRef s
    end
  ∧ mediaStreamRef (state_after r) = mediaStreamRef s
  ∧ inputAudioContextRef (state_after r) = inputAudioContextRef s
  ∧ outputAudioContextRef (state_after r) = outputAudioContextRef s
  ∧ sessionPromiseRef (state_after r) = sessionPromiseRef s
  ∧ transcripts (state_after r) = transcripts s.
Proof.
  cbv zeta.
  unfold onopen, outcome_of, effects_of, state_after, bind, read, write, call,
    attempt, new_object.
  simpl. destruct (inputAudioContextRef s) eqn:Hin; simpl; rewrite ?Hin;
    repeat split.
Qed.

(** X14: a transport error followed by the close of the socket tears the
    session down once: [onerror] logs, releases everything held and sets the
    error message; [onclose] then makes no call, keeps the error message and
    the transcript, and replaces the status line. *)
Theorem error_then_close_tears_down_once (s : ViewState) :
  let failed := onerror s in
  let closed := onclose (state_after failed) in
  outcome_of failed = Returned () ∧ outcome_of closed = Returned ()
  ∧ effects_of failed = console_error ErrorEvent :: effects_of (cleanup s)
  ∧ released (effects_of failed) = held s
  ∧ effects_of closed = []
  ∧ held (state_after closed) = []
  ∧ isActive (state_after closed) = false
  ∧ isConnecting (state_after closed) = false
  ∧ error (state_after closed)
    = Some "An error occurred during the session. Please try again."
  ∧ statusMessage (state_after failed) = "Error. Press microphone to retry."
  ∧ statusMessage (state_after closed)
    = "Session closed. Press microphone to start again."
  ∧ transcripts (state_after closed) = transcripts s.
Proof.
  cbv zeta. rewrite onerror_run, onclose_run.
  pose proof (cleanup_releases_held s) as Hrel.
  rewrite !cleanup_run in *. unfold outcome_of, effects_of, state_after, held in *.
  simpl in *. rewrite elements_empty. repeat split. exact Hrel.
Qed.

(** X16: stopping an active conversation releases everything held, asks
    for nothing and keeps the transcript and the error on screen; it is the
    next start that clears both, before the microphone is granted. *)
Theorem stop_keeps_transcript_start_clears_it (s : ViewState) :
  isActive s = true →
  let stopped := handleToggleConversation s in
  let restarted := handleToggleConversation (state_after stopped) in
  outcome_of stopped = Returned None
  ∧ released (effects_of stopped) = held s
  ∧ length (effects_of stopped) = length (held s)
  ∧ transcripts (state_after stopped) = transcripts s
  ∧ error (state_after stopped) = error s
  ∧ statusMessage (state_after stopped)
    = "Session ended. Press the microphone to start again."
  ∧ isActive (state_after stopped) = false
  ∧ held (state_after stopped) = []
  ∧ outcome_of restarted = Returned (Some (nextObject s))
  ∧ effects_of restarted = [getUserMedia (nextObject s)]
  ∧ transcripts (state_after restarted) = []
  ∧ error (state_after restarted) = None
  ∧ isConnecting (state_after restarted) = true.
Proof.
  intros Hact. cbv zeta. rewrite (toggle_active s Hact).
  rewrite toggle_idle by (by rewrite cleanup_run).
  pose proof (cleanup_releases_held s) as Hrel.
  assert (Hlen : length (effects_of (cleanup s)) = length (held s)).
  { rewrite cleanup_run. unfold effects_of, held. simpl.
    by rewrite !length_app, !length_fmap. }
  rewrite !cleanup_run in *. unfold outcome_of, effects_of, state_after, held in *.
  simpl in *. rewrite elements_empty. repeat split; done.
Qed.

Lemma stop_keeps_transcript_start_clears_it_witness :
  transcripts (state_after (handleToggleConversation Sample.active))
  = [mkEntry user "Hello" true; mkEntry model "Hi" false]
  ∧ transcripts (state_after (handleToggleConversation
                   (state_after (handleToggleConversation Sample.active)))) = [].
Proof.
  pose proof (stop_keeps_transcript_start_clears_it Sample.active eq_refl)
    as (_&_&_&Hkeep&_&_&_&_&_&_&Hclear&_).
  split; [exact Hkeep|exact Hclear].
Defined.

(** ** What every reachable world satisfies *)

Lemma started_sources_app (a b : list Effect) :
  started_sources (a ++ b) = started_sources a ∪ started_sources b.
Proof. unfold started_sources. by rewrite bind_app, list_to_set_app_L. Qed.

Lemma unstarted_stops_app (seen : gset nat) (a b : list Effect) :
  unstarted_stops seen (a ++ b)
  = unstarted_stops seen a ++ unstarted_stops (seen ∪ started_sources a) b.
Proof.
  revert seen. induction a as [|e a IH]; intros seen; simpl.
  - unfold started_sources. simpl. by rewrite (right_id_L ∅ (∪)).
  - destruct e; simpl; rewrite ?IH; try done.
    + f_equal. unfold started_sources. simpl. f_equal.
      rewrite (assoc_L (∪)). done.
    + by rewrite (assoc_L (++)).
Qed.

Lemma off_stage_quiet (seen : gset nat) (calls : list Effect) :
  Forall (λ e, off_stage e = true) calls →
  unstarted_stops seen calls = [] ∧ started_sources calls = ∅.
Proof.
  induction 1 as [|e rest He _ [IH1 IH2]]; [done|].
  destruct e; try done; simpl; split; try done.
Qed.

Lemma stops_of_started (seen : gset nat) (srcs : list nat) :
  (∀ src, src ∈ srcs → src ∈ seen) →
  unstarted_stops seen (source_stop <$> srcs) = []
  ∧ started_sources (source_stop <$> srcs) = ∅.
Proof.
  induction srcs as [|src rest IH]; intros Hin; [done|].
  simpl. rewrite bool_decide_true by (apply Hin, list_elem_of_here).
  apply IH. intros x Hx. by apply Hin, list_elem_of_further.
Qed.

Lemma unstarted_stops_more (seen seen' : gset nat) (calls : list Effect) :
  seen ⊆ seen' → unstarted_stops seen calls = [] → unstarted_stops seen' calls = [].
Proof.
  revert seen seen'. induction calls as [|e rest IH]; intros seen seen' Hsub; [done|].
  destruct e; simpl; try (by apply IH).
  - apply IH. by apply union_mono_r.
  - case_bool_decide as Hin; [|done]. simpl.
    rewrite bool_decide_true by (by apply Hsub). by apply IH.
Qed.

Lemma stage_app (seen : gset nat) (a b : list Effect) :
  unstarted_stops seen a = [] ∧ started_sources a = ∅ →
  unstarted_stops seen b = [] ∧ started_sources b = ∅ →
  unstarted_stops seen (a ++ b) = [] ∧ started_sources (a ++ b) = ∅.
Proof.
  intros [Ha1 Ha2] [Hb1 Hb2].
  rewrite unstarted_stops_app, started_sources_app, Ha1, Ha2, Hb2.
  by rewrite !(right_id_L ∅ (∪)), Hb1.
Qed.

Lemma stage_fmap {A} (seen : gset nat) (f : A → Effect) (l : list A) :
  (∀ x, off_stage (f x) = true) →
  unstarted_stops seen (f <$> l) = [] ∧ started_sources (f <$> l) = ∅.
Proof. intros Hf. by apply off_stage_quiet, Forall_fmap, Forall_true. Qed.

(** [cleanup] stops sources of the in-flight set only, and starts none. *)
Lemma cleanup_stage (seen : gset nat) (s : ViewState) :
  audioSourcesRef s ⊆ seen →
  unstarted_stops seen (effects_of (cleanup s)) = []
  ∧ started_sources (effects_of (cleanup s)) = ∅.
Proof.
  intros Hsub. rewrite cleanup_run. unfold effects_of. simpl.
  repeat apply stage_app; try (by apply stage_fmap).
  apply stops_of_started. intros src Hsrc. by apply Hsub, elem_of_elements.
Qed.

Lemma account_sessions (w : World) (e : Effect) :
  sessions (account w e) = sessions w.
Proof. by destruct w, e. Qed.

Lemma dispatch_sessions {A} (h : Handler A) (w : World) :
  sessions (dispatch h w).2 = sessions w.
Proof.
  unfold dispatch. destruct (h (component w)) as [[r s] out]. simpl.
  assert (H : ∀ w0, sessions (foldl account w0 out) = sessions w0).
  { induction out as [|e out IH]; intros w0; [done|].
    simpl. by rewrite IH, account_sessions. }
  rewrite H. by destruct w.
Qed.

Lemma dispatch_outcome {A} (h : Handler A) (w : World) :
  (dispatch h w).1 = outcome_of (h (component w)).
Proof.
  unfold dispatch, outcome_of. by destruct (h (component w)) as [[r s] out].
Qed.

Lemma settle_sessions (req : nat) (granted : option MediaStream) (w : World) :
  sessions (settle req granted w)
  = match granted with
    | Some ms => <[S (S (nextObject (component w))) := ms]> (sessions w)
    | None => sessions w
    end.
Proof.
  destruct w as [c m pd ss lt lc pr pl h]. unfold settle.
  match goal with
  | |- context [dispatch ?hd ?w0] =>
      pose proof (dispatch_sessions hd w0) as Hs;
      pose proof (dispatch_outcome hd w0) as Ho;
      destruct (dispatch hd w0) as [r w']
  end.
  cbn [component sessions fst snd] in *.
  destruct granted as [ms|].
  - rewrite resume_granted in Ho. unfold outcome_of in Ho. simpl in Ho. subst r.
    destruct w'. simpl in *. by subst.
  - rewrite resume_denied in Ho. unfold outcome_of in Ho. simpl in Ho. by subst r.
Qed.

(** The facts [consistent] needs about what a turn leaves behind. *)
Lemma consistent_after (w w' : World) (out : list Effect) :
  consistent w →
  history w' = history w ++ out →
  (∀ ctx, inputAudioContextRef (component w') = Some ctx →
          outputAudioContextRef (component w') ≠ Some ctx) →
  audioSourcesRef (component w')
    ⊆ started_sources (history w) ∪ started_sources out →
  unstarted_stops (started_sources (history w)) out = [] →
  (∀ sess, sessionPromiseRef (component w') = Some sess →
           is_Some (sessions w' !! sess)) →
  consistent w'.
Proof.
  intros (_ & _ & Hord & _) Hh Hctx Hsrc Hout Hsess.
  split; [done|]. rewrite Hh, started_sources_app, unstarted_stops_app, Hord.
  rewrite (left_id_L ∅ (∪)). done.
Qed.

Lemma onopen_summary (stream : MediaStream) (s : ViewState) :
  let r := onopen stream s in
  inputAudioContextRef (state_after r) = inputAudioContextRef s
  ∧ outputAudioContextRef (state_after r) = outputAudioContextRef s
  ∧ sessionPromiseRef (state_after r) = sessionPromiseRef s
  ∧ audioSourcesRef (state_after r) = audioSourcesRef s
  ∧ Forall (λ e, off_stage e = true) (effects_of r).
Proof.
  cbv zeta.
  unfold onopen, effects_of, state_after, bind, read, write, call, attempt, new_object.
  simpl. destruct (inputAudioContextRef s) eqn:Hin; simpl; rewrite ?Hin;
    repeat split; repeat constructor.
Qed.

Lemma onaudioprocess_summary (encode : list Z → string) (inputData : list Q)
    (s : ViewState) :
  let r := onaudioprocess encode inputData s in
  state_after r = s ∧ Forall (λ e, off_stage e = true) (effects_of r)
  ∧ ∀ sess data mime, sendRealtimeInput sess data mime ∈ effects_of r →
                      sessionPromiseRef s = Some sess.
Proof.
  cbv zeta. unfold onaudioprocess, effects_of, state_after, bind, read, optional, call.
  simpl. destruct (sessionPromiseRef s) as [sess|]; simpl;
    (split; [done|]); (split; [repeat constructor|]); intros sess' d m Hin.
  - apply list_elem_of_singleton in Hin. congruence.
  - by apply not_elem_of_nil in Hin.
Qed.

Lemma onended_summary (src : nat) (s : ViewState) :
  let r := onended src s in
  inputAudioContextRef (state_after r) = inputAudioContextRef s
  ∧ outputAudioContextRef (state_after r) = outputAudioContextRef s
  ∧ sessionPromiseRef (state_after r) = sessionPromiseRef s
  ∧ audioSourcesRef (state_after r) ⊆ audioSourcesRef s
  ∧ effects_of r = [].
Proof.
  cbv zeta. unfold onended, effects_of, state_after, bind, read, write. simpl.
  case_bool_decide; simpl; repeat split; apply subseteq_difference_l; done.
Qed.

Section Invariants.

Variable decode : string → option (list Z).
Variable decodeAudioData : list Z → Z → Z → option AudioBuffer.
Variable encode : list Z → string.

Lemma onmessage_summary (m : LiveServerMessage) (now : Binary64.t) (s : ViewState)
    (seen : gset nat) :
  audioSourcesRef s ⊆ seen →
  let r := onmessage decode decodeAudioData m now s in
  inputAudioContextRef (state_after r) = inputAudioContextRef s
  ∧ outputAudioContextRef (state_after r) = outputAudioContextRef s
  ∧ sessionPromiseRef (state_after r) = sessionPromiseRef s
  ∧ audioSourcesRef (state_after r) ⊆ seen ∪ started_sources (effects_of r)
  ∧ unstarted_stops seen (effects_of r) = [].
Proof.
  intros Hsub. cbv zeta. rewrite onmessage_parts. cbv zeta.
  destruct (transcribe_frame m s) as (_&_&_&_&Hs&Hi&Ho&_&_&Hsrc&_&_).
  assert (Htail : ∀ (r : Outcome ()) s2 out2,
            inputAudioContextRef s2 = inputAudioContextRef s →
            outputAudioContextRef s2 = outputAudioContextRef s →
            sessionPromiseRef s2 = sessionPromiseRef s →
            audioSourcesRef s2 ⊆ seen ∪ started_sources out2 →
            unstarted_stops seen out2 = [] →
            let r' := if interrupted m
                      then (Returned (),
                            with_nextStartTimeRef Binary64.zero (with_audioSourcesRef ∅ s2),
                            out2 ++ (source_stop <$> elements (audioSourcesRef s2)))
                      else (r, s2, out2) in
            inputAudioContextRef (state_after r') = inputAudioContextRef s
            ∧ outputAudioContextRef (state_after r') = outputAudioContextRef s
            ∧ sessionPromiseRef (state_after r') = sessionPromiseRef s
            ∧ audioSourcesRef (state_after r') ⊆ seen ∪ started_sources (effects_of r')
            ∧ unstarted_stops seen (effects_of r') = []).
  { intros r s2 out2 H1 H2 H3 H4 H5. cbv zeta.
    destruct (interrupted m); unfold state_after, effects_of; simpl; [|done].
    split; [done|]. split; [done|]. split; [done|]. split; [apply empty_subseteq|].
    rewrite unstarted_stops_app, H5. simpl.
    apply stops_of_started. intros src Hin. by apply H4, elem_of_elements. }
  assert (Hnone : unstarted_stops seen [] = [] ∧
                  audioSourcesRef (state_after (transcribe m s))
                    ⊆ seen ∪ started_sources []).
  { split; [done|]. rewrite Hsrc. by apply union_subseteq_l'. }
  destruct (truthy (inlineData m)) as [b64|], (outputAudioContextRef s) as [ctx|] eqn:Hout.
  2-4: exact (Htail (Returned ()) (state_after (transcribe m s)) [] Hi Ho Hs
               (proj2 Hnone) (proj1 Hnone)).
  destruct (decode b64 ≫= λ bytes, decodeAudioData bytes 24000 1)
    as [buffer|] eqn:Hd.
  - destruct (decode b64) as [bytes|] eqn:Hb; [|done]. simpl in Hd.
    rewrite (enqueue_decoded _ _ _ _ _ _ _ _ Hb Hd).
    apply (Htail (Returned ())); [exact Hi|exact Ho|exact Hs| |reflexivity].
    change (audioSourcesRef (state_after (transcribe m s))
              ∪ {[nextObject (state_after (transcribe m s))]}
            ⊆ seen ∪ started_sources
                       [source_start (nextObject (state_after (transcribe m s))) ctx
                          (Math_max (nextStartTimeRef (state_after (transcribe m s))) now)
                          buffer]).
    unfold started_sources. simpl. rewrite (right_id_L ∅ (∪)), Hsrc.
    by apply union_mono_r.
  - rewrite (enqueue_malformed _ _ _ _ _ _ Hd).
    split; [exact Hi|]. split; [exact Ho|]. split; [exact Hs|].
    split; [exact (proj2 Hnone)|reflexivity].
Qed.
End Invariants.

Lemma consistent_torn_down (w w' : World) (out : list Effect) :
  consistent w →
  history w' = history w ++ out →
  inputAudioContextRef (component w') = None →
  audioSourcesRef (component w') = ∅ →
  sessionPromiseRef (component w') = None →
  unstarted_stops (started_sources (history w)) out = [] →
  consistent w'.
Proof.
  intros Hw Hh Hi Hsrc Hs Hout. apply (consistent_after w w' out Hw Hh).
  - intros ctx. by rewrite Hi.
  - rewrite Hsrc. apply empty_subseteq.
  - done.
  - intros sess. by rewrite Hs.
Qed.

Lemma consistent_same_refs (w w' : World) (out : list Effect) :
  consistent w →
  history w' = history w ++ out →
  inputAudioContextRef (component w') = inputAudioContextRef (component w) →
  outputAudioContextRef (component w') = outputAudioContextRef (component w) →
  sessionPromiseRef (component w') = sessionPromiseRef (component w) →
  audioSourcesRef (component w') ⊆ audioSourcesRef (component w) →
  sessions w' = sessions w →
  Forall (λ e, off_stage e = true) out →
  consistent w'.
Proof.
  intros Hw Hh Hi Ho Hs Hsrc Hss Hout.
  pose proof Hw as (Hctx & Hsub & _ & Hsess).
  apply (consistent_after w w' out Hw Hh).
  - intros ctx. rewrite Hi, Ho. apply Hctx.
  - etrans; [exact Hsrc|]. by apply union_subseteq_l'.
  - by apply off_stage_quiet.
  - intros sess. rewrite Hs, Hss. apply Hsess.
Qed.

Lemma cleanup_torn_down (s : ViewState) :
  inputAudioContextRef (state_after (cleanup s)) = None
  ∧ audioSourcesRef (state_after (cleanup s)) = ∅
  ∧ sessionPromiseRef (state_after (cleanup s)) = None.
Proof. by rewrite cleanup_run. Qed.

Section Reachable.

Variable decode : string → option (list Z).
Variable decodeAudioData : list Z → Z → Z → option AudioBuffer.
Variable encode : list Z → string.

Lemma step_consistent (w w' : World) (ev : Event) :
  consistent w →
  step decode decodeAudioData encode w ev = Some w' →
  consistent w'.
Proof.
  intros Hw. pose proof Hw as (Hctx & Hsub & Hord & Hsess).
  destruct (cleanup_torn_down (component w)) as (Hci & Hcs & Hcp).
  pose proof (cleanup_stage _ _ Hsub) as [Hcu _].
  destruct ev as [|req ms|req|sess|sess m now|sess|sess|p data|src|]; simpl.
  - destruct (mounted w && negb (isConnecting (component w))); [|done].
    intros [= <-]. destruct (isActive (component w)) eqn:Hact.
    + apply (consistent_torn_down w _ (effects_of (cleanup (component w))) Hw);
        rewrite ?dispatch_history, ?dispatch_component, ?(toggle_active _ Hact);
        done.
    + apply (consistent_same_refs w _ [getUserMedia (nextObject (component w))] Hw);
        rewrite ?dispatch_history, ?dispatch_component, ?dispatch_sessions,
          ?(toggle_idle _ Hact); try done.
      repeat constructor.
  - case_bool_decide; [|done]. intros [= <-].
    apply (consistent_after w _
             (effects_of (handleToggleConversation_resume (Some ms) (component w)))
             Hw);
      rewrite ?settle_history, ?settle_component, ?settle_sessions, ?resume_granted;
      unfold state_after, effects_of; simpl.
    + done.
    + intros ctx [= <-] [= Heq]. lia.
    + by apply union_subseteq_l'.
    + done.
    + intros sess [= <-]. rewrite lookup_insert_eq. by eexists.
  - case_bool_decide; [|done]. intros [= <-].
    apply (consistent_torn_down w _
             (effects_of (handleToggleConversation_resume None (component w))) Hw);
      rewrite ?settle_history, ?settle_component, ?resume_denied; try done.
    all: by rewrite cleanup_run.
  - destruct (sessions w !! sess) as [stream|]; [|done]. simpl. intros [= <-].
    destruct (onopen_summary stream (component w)) as (H1 & H2 & H3 & H4 & H5).
    apply (consistent_same_refs w _ (effects_of (onopen stream (component w))) Hw);
      rewrite ?dispatch_history, ?dispatch_component, ?dispatch_sessions; try done.
    by rewrite H4.
  - destruct (sessions w !! sess) as [stream|]; [|done]. simpl. intros [= <-].
    destruct (onmessage_summary decode decodeAudioData m now (component w) _ Hsub)
      as (H1 & H2 & H3 & H4 & H5).
    apply (consistent_after w _
             (effects_of (onmessage decode decodeAudioData m now (component w))) Hw);
      rewrite ?dispatch_history, ?dispatch_component, ?dispatch_sessions; try done.
    + intros ctx. rewrite H1, H2. apply Hctx.
    + intros sess'. rewrite H3. apply Hsess.
  - destruct (sessions w !! sess) as [stream|]; [|done]. simpl. intros [= <-].
    apply (consistent_torn_down w _ (effects_of (onerror (component w))) Hw);
      rewrite ?dispatch_history, ?dispatch_component, ?onerror_run; try done.
    all: by rewrite cleanup_run.
  - destruct (sessions w !! sess) as [stream|]; [|done]. simpl.
    pose proof (dispatch_component onclose w) as Hc.
    pose proof (dispatch_history onclose w) as Hh.
    destruct (dispatch onclose w).2 as [c m pd ss lt lc pr pl h].
    intros [= <-]. simpl in *. subst c h.
    apply (consistent_torn_down w _ (effects_of (onclose (component w))) Hw);
      simpl; rewrite ?onclose_run; try done.
    all: by rewrite cleanup_run.
  - case_bool_decide; [|done]. intros [= <-].
    destruct (onaudioprocess_summary encode data (component w)) as (H1 & H2 & _).
    apply (consistent_same_refs w _
             (effects_of (onaudioprocess encode data (component w))) Hw);
      rewrite ?dispatch_history, ?dispatch_component, ?dispatch_sessions, ?H1;
      done.
  - case_bool_decide; [|done].
    pose proof (dispatch_component (onended src) w) as Hc.
    pose proof (dispatch_history (onended src) w) as Hh.
    pose proof (dispatch_sessions (onended src) w) as Hs.
    destruct (dispatch (onended src) w).2 as [c m pd ss lt lc pr pl h].
    intros [= <-]. simpl in *. subst c h ss.
    destruct (onended_summary src (component w)) as (H1 & H2 & H3 & H4 & H5).
    apply (consistent_same_refs w _ [] Hw); simpl; rewrite ?H5; done.
  - destruct (mounted w); [|done].
    pose proof (dispatch_component cleanup w) as Hc.
    pose proof (dispatch_history cleanup w) as Hh.
    destruct (dispatch cleanup w).2 as [c m pd ss lt lc pr pl h].
    intros [= <-]. simpl in *. subst c h.
    by apply (consistent_torn_down w _ (effects_of (cleanup (component w))) Hw).
Qed.

Lemma boot_consistent : consistent boot.
Proof.
  split; [done|]. split; [apply empty_subseteq|]. split; [done|done].
Qed.

Lemma run_consistent (evs : list Event) (w w' : World) :
  consistent w →
  run decode decodeAudioData encode w evs = Some w' →
  consistent w'.
Proof.
  revert w. induction evs as [|ev rest IH]; intros w Hw; simpl.
  - by intros [= <-].
  - destruct (step decode decodeAudioData encode w ev) as [w1|] eqn:Hstep; [|done].
    simpl. apply IH. by eapply step_consistent.
Qed.

(** X10: in every world the event loop can reach, [stop()] has only been
    called on sources that an earlier call had started, and every source in
    the in-flight set has been started. *)
Theorem stop_only_after_start (evs : list Event) (w : World) :
  run decode decodeAudioData encode boot evs = Some w →
  unstarted_stops ∅ (history w) = []
  ∧ audioSourcesRef (component w) ⊆ started_sources (history w).
Proof.
  intros Hrun.
  destruct (run_consistent evs boot w boot_consistent Hrun) as (_ & H1 & H2 & _).
  done.
Qed.

(** X11: in every world the event loop can reach, the refs hold no handle
    twice, so a [cleanup] from there releases no handle twice. *)
Theorem reachable_handles_are_distinct (evs : list Event) (w : World) :
  run decode decodeAudioData encode boot evs = Some w →
  NoDup (held (component w))
  ∧ NoDup (released (effects_of (cleanup (component w)))).
Proof.
  intros Hrun.
  destruct (run_consistent evs boot w boot_consistent Hrun) as (Hctx & _).
  rewrite cleanup_releases_held. split; by apply held_NoDup.
Qed.

(** X12: in every world the event loop can reach, a capture callback
    leaves the component as it is and sends at most to the session the
    session ref points at, whose socket has not closed. *)
Theorem frames_go_to_open_sessions (evs : list Event) (w w' : World)
    (p : nat) (inputData : list Q) :
  run decode decodeAudioData encode boot evs = Some w →
  step decode decodeAudioData encode w (AudioProcess p inputData) = Some w' →
  component w' = component w
  ∧ ∃ out, history w' = history w ++ out
      ∧ ∀ sess data mime, sendRealtimeInput sess data mime ∈ out →
          sessionPromiseRef (component w) = Some sess
          ∧ is_Some (sessions w !! sess).
Proof.
  intros Hrun.
  destruct (run_consistent evs boot w boot_consistent Hrun) as (_ & _ & _ & Hsess).
  simpl. case_bool_decide; [|done]. intros [= <-].
  destruct (onaudioprocess_summary encode inputData (component w)) as (H1 & _ & H3).
  rewrite dispatch_component, dispatch_history. split; [done|].
  eexists. split; [done|]. intros sess data mime Hin.
  specialize (H3 sess data mime Hin). split; [done|]. by apply Hsess.
Qed.

End Reachable.

(** ** A whole session *)

Lemma account_mounted (w : World) (e : Effect) : mounted (account w e) = mounted w.
Proof. by destruct w, e. Qed.

Lemma dispatch_mounted {A} (h : Handler A) (w : World) :
  mounted (dispatch h w).2 = mounted w.
Proof.
  unfold dispatch. destruct (h (component w)) as [[r s] out]. simpl.
  assert (H : ∀ w0, mounted (foldl account w0 out) = mounted w0).
  { induction out as [|e out IH]; intros w0; [done|].
    simpl. by rewrite IH, account_mounted. }
  rewrite H. by destruct w.
Qed.

Lemma foldl_account_pending (out : list Effect) (w : World) :
  Forall (λ e, requests e = false) out →
  pending (foldl account w out) = pending w.
Proof.
  intros Hout. revert w. induction Hout as [|e out He _ IH]; intros w; [done|].
  simpl. rewrite IH. by destruct w, e.
Qed.

Lemma dispatch_pending {A} (h : Handler A) (w : World) :
  Forall (λ e, requests e = false) (effects_of (h (component w))) →
  pending (dispatch h w).2 = pending w.
Proof.
  unfold dispatch, effects_of. destruct (h (component w)) as [[r s] out]. simpl.
  intros Hq. rewrite foldl_account_pending by done. by destruct w.
Qed.

Lemma cleanup_requests_nothing (s : ViewState) :
  Forall (λ e, requests e = false) (effects_of (cleanup s)).
Proof.
  rewrite cleanup_run. unfold effects_of. simpl.
  repeat (apply Forall_app; split); apply Forall_fmap, Forall_true; done.
Qed.

Lemma settle_pending (req : nat) (granted : option MediaStream) (w : World) :
  pending (settle req granted w) = pending w ∖ {[req]}.
Proof.
  destruct w as [c m pd ss lt lc pr pl h]. unfold settle.
  match goal with
  | |- context [dispatch ?hd ?w0] =>
      pose proof (dispatch_pending hd w0) as Hp;
      destruct (dispatch hd w0) as [r w']
  end.
  cbn [component pending snd] in *.
  rewrite <- Hp.
  - destruct r as [[sess|]|e], granted as [ms|]; try reflexivity. by destruct w'.
  - destruct granted as [ms|].
    + rewrite resume_granted. unfold effects_of. simpl. repeat constructor.
    + rewrite resume_denied. unfold effects_of. simpl.
      constructor; [done|]. apply cleanup_requests_nothing.
Qed.

Lemma settle_mounted (req : nat) (granted : option MediaStream) (w : World) :
  mounted (settle req granted w) = mounted w.
Proof.
  destruct w as [c m pd ss lt lc pr pl h]. unfold settle.
  match goal with
  | |- context [dispatch ?hd ?w0] =>
      pose proof (dispatch_mounted hd w0) as Hp;
      destruct (dispatch hd w0) as [r w']
  end.
  cbn [mounted snd] in *. rewrite <- Hp.
  destruct r as [[sess|]|e], granted as [ms|]; try reflexivity. by destruct w'.
Qed.

Section Lifecycle.

Variable decode : string → option (list Z).
Variable decodeAudioData : list Z → Z → Z → option AudioBuffer.
Variable encode : list Z → string.

Lemma run_step (w w1 : World) (ev : Event) (rest : list Event) :
  step decode decodeAudioData encode w ev = Some w1 →
  run decode decodeAudioData encode w (ev :: rest)
  = run decode decodeAudioData encode w1 rest.
Proof. intros H. simpl. by rewrite H. Qed.

Lemma click_starts (w : World) :
  mounted w = true → isConnecting (component w) = false →
  isActive (component w) = false →
  ∃ w1, step decode decodeAudioData encode w Click = Some w1
    ∧ component w1 = state_after (handleToggleConversation (component w))
    ∧ history w1 = history w ++ [getUserMedia (nextObject (component w))]
    ∧ pending w1 = pending w ∪ {[nextObject (component w)]}
    ∧ sessions w1 = sessions w ∧ mounted w1 = true.
Proof.
  intros Hm Hc Ha. simpl. rewrite Hm, Hc. simpl. eexists. split; [done|].
  rewrite dispatch_component, dispatch_history, dispatch_sessions, dispatch_mounted.
  rewrite (toggle_idle _ Ha). split; [done|]. split; [done|].
  split; [|done]. unfold dispatch. rewrite (toggle_idle _ Ha). by destruct w.
Qed.

Lemma grant_connects (w : World) (req : nat) (stream : MediaStream) :
  req ∈ pending w →
  ∃ w2, step decode decodeAudioData encode w (MicGranted req stream) = Some w2
    ∧ component w2
      = state_after (handleToggleConversation_resume (Some stream) (component w))
    ∧ history w2
      = history w
        ++ effects_of (handleToggleConversation_resume (Some stream) (component w))
    ∧ pending w2 = pending w ∖ {[req]}
    ∧ sessions w2 = <[S (S (nextObject (component w))) := stream]> (sessions w)
    ∧ mounted w2 = mounted w.
Proof.
  intros Hreq. simpl. rewrite bool_decide_true by done. eexists. split; [done|].
  by rewrite settle_component, settle_history, settle_sessions, settle_pending,
    settle_mounted.
Qed.

Lemma open_connects_capture (w : World) (sess : nat) (stream : MediaStream) :
  sessions w !! sess = Some stream →
  ∃ w3, step decode decodeAudioData encode w (TransportOpen sess) = Some w3
    ∧ component w3 = state_after (onopen stream (component w))
    ∧ history w3 = history w ++ effects_of (onopen stream (component w))
    ∧ pending w3 = pending w
    ∧ mounted w3 = mounted w.
Proof.
  intros Hs. simpl. rewrite Hs. simpl. eexists. split; [done|].
  rewrite dispatch_component, dispatch_history, dispatch_mounted.
  split; [done|]. split; [done|]. split; [|done].
  apply dispatch_pending.
  unfold onopen, effects_of, bind, read, write, call, attempt, new_object. simpl.
  destruct (inputAudioContextRef (component w)); simpl; repeat constructor.
Qed.

Lemma click_stops (w : World) :
  mounted w = true → isConnecting (component w) = false →
  isActive (component w) = true →
  ∃ w4, step decode decodeAudioData encode w Click = Some w4
    ∧ component w4 = state_after (handleToggleConversation (component w))
    ∧ history w4 = history w ++ effects_of (cleanup (component w))
    ∧ pending w4 = pending w.
Proof.
  intros Hm Hc Ha. simpl. rewrite Hm, Hc. simpl. eexists. split; [done|].
  rewrite dispatch_component, dispatch_history.
  rewrite (toggle_active _ Ha). split; [done|]. split; [done|].
  apply dispatch_pending. rewrite (toggle_active _ Ha).
  apply cleanup_requests_nothing.
Qed.

(** X13: from an idle mounted component, start, grant, open and stop
    release exactly what the session acquired: the calls made are the request
    for the microphone, two new contexts, the connection and the capture
    processor, followed by the stop of every track, the disconnect of that
    processor, the close of those two contexts and of that session; nothing
    is held afterwards. *)
Theorem session_round_trip_releases_what_it_acquired
    (w : World) (stream : MediaStream) :
  mounted w = true →
  isConnecting (component w) = false →
  isActive (component w) = false →
  audioSourcesRef (component w) = ∅ →
  let n := nextObject (component w) in
  ∃ w',
    run decode decodeAudioData encode w
      [Click; MicGranted n stream; TransportOpen (3 + n); Click] = Some w'
    ∧ history w'
      = history w
        ++ [getUserMedia n; context_new (1 + n) 16000; context_new (2 + n) 24000;
            live_connect (3 + n); processor_connect (4 + n) (1 + n) stream]
        ++ (track_stop <$> elements (tracks stream))
        ++ [processor_disconnect (4 + n); context_close (1 + n);
            context_close (2 + n); session_close (3 + n)]
    ∧ held (component w') = []
    ∧ isActive (component w') = false
    ∧ isConnecting (component w') = false.
Proof.
  intros Hm Hc Ha Hsrc n.
  destruct (click_starts w Hm Hc Ha) as (w1 & Hs1 & Hc1 & Hh1 & Hp1 & Hss1 & Hm1).
  rewrite (toggle_idle _ Ha) in Hc1. unfold state_after in Hc1. simpl in Hc1.
  destruct (grant_connects w1 n stream) as (w2 & Hs2 & Hc2 & Hh2 & Hp2 & Hss2 & Hm2).
  { rewrite Hp1. apply elem_of_union_r, elem_of_singleton. done. }
  rewrite resume_granted, Hc1 in Hc2, Hh2. rewrite Hc1 in Hss2.
  unfold state_after, effects_of in Hc2, Hh2. simpl in Hc2, Hh2, Hss2.
  destruct (open_connects_capture w2 (3 + n) stream) as (w3 & Hs3 & Hc3 & Hh3 & Hp3 & Hm3).
  { rewrite Hss2. apply lookup_insert_eq. }
  rewrite Hc2 in Hc3, Hh3.
  unfold onopen, state_after, effects_of, bind, read, write, call, attempt, new_object
    in Hc3, Hh3. simpl in Hc3, Hh3.
  destruct (click_stops w3) as (w4 & Hs4 & Hc4 & Hh4 & Hp4).
  { congruence. } { by rewrite Hc3. } { by rewrite Hc3. }
  rewrite (toggle_active (component w3)) in Hc4 by (by rewrite Hc3).
  rewrite cleanup_run, Hc3 in Hc4, Hh4.
  unfold state_after, effects_of in Hc4, Hh4. simpl in Hc4, Hh4.
  exists w4. split.
  { by rewrite (run_step _ _ _ _ Hs1), (run_step _ _ _ _ Hs2),
      (run_step _ _ _ _ Hs3), (run_step _ _ _ _ Hs4). }
  split.
  { rewrite Hh4, Hh3, Hh2, Hh1, Hsrc, elements_empty. simpl.
    rewrite <- !(assoc_L (++)). simpl. done. }
  rewrite Hc4. unfold held. simpl. rewrite elements_empty.
  done.
Qed.

End Lifecycle.

Lemma session_round_trip_releases_what_it_acquired_witness :
  ∃ w',
    run Reference.decode Reference.decodeAudioData Reference.encode boot
      [Click; MicGranted 0 (Sample.microphone 10); TransportOpen 3; Click] = Some w'
    ∧ history w'
      = [getUserMedia 0; context_new 1 16000; context_new 2 24000;
         live_connect 3; processor_connect 4 1 (Sample.microphone 10)]
        ++ (track_stop <$> elements (tracks (Sample.microphone 10)))
        ++ [processor_disconnect 4; context_close 1; context_close 2; session_close 3]
    ∧ held (component w') = []
    ∧ isActive (component w') = false
    ∧ isConnecting (component w') = false.
Proof.
  exact (session_round_trip_releases_what_it_acquired
           Reference.decode Reference.decodeAudioData Reference.encode
           boot (Sample.microphone 10) eq_refl eq_refl eq_refl eq_refl).
Defined.

(** ** The properties above on sample data *)

Lemma capture_bytes_determine_samples_witness :
  Codec.Uint8Array_of_buffer [-2; 258] = [254; 255; 2; 1]
  ∧ ([-2; 258] : list Z) = [-2; 258].
Proof.
  split; [reflexivity|].
  apply capture_bytes_determine_samples; [repeat constructor; lia..|reflexivity].
Defined.

Lemma append_only_extends_entries_witness :
  ∃ e', Transcript.append model " there" true
          [mkEntry user "Hello" true; mkEntry model "Hi" false] !! 1%nat = Some e'
        ∧ speaker e' = model
        ∧ (∃ more, text e' = "Hi" +:+ more)
        ∧ (false = true ∨ model ≠ model → e' = mkEntry model "Hi" false).
Proof.
  exact (append_only_extends_entries model " there" true
           [mkEntry user "Hello" true; mkEntry model "Hi" false] 1
           (mkEntry model "Hi" false) eq_refl).
Defined.

Lemma replay_closes_turns_witness :
  replay [(user, "Hel", false); (user, "lo", true); (user, "Again", false);
          (model, "Hi", false)]
  = [mkEntry user "Hello" true; mkEntry user "Again" false; mkEntry model "Hi" false]
  ∧ isFinal (mkEntry user "Hello" true) = true.
Proof.
  split; [reflexivity|].
  exact (replay_closes_turns
           [(user, "Hel", false); (user, "lo", true); (user, "Again", false);
            (model, "Hi", false)]
           0 (mkEntry user "Hello" true) (mkEntry user "Again" false)
           eq_refl eq_refl eq_refl).
Defined.

Lemma barge_in_run :
  run Reference.decode Reference.decodeAudioData Reference.encode boot
    Scenario.barge_in = Some Scenario.after_barge_in.
Proof. vm_compute. reflexivity. Qed.

Lemma frame_step :
  step Reference.decode Reference.decodeAudioData Reference.encode
    Scenario.after_barge_in Scenario.frame = Some Scenario.after_frame.
Proof. vm_compute. reflexivity. Qed.

Lemma two_chunks_run :
  run Reference.decode Reference.decodeAudioData Reference.encode Sample.world
    Scenario.two_chunks = Some Scenario.after_two_chunks.
Proof. vm_compute. reflexivity. Qed.

Lemma stop_only_after_start_witness :
  scheduled (history Scenario.after_barge_in)
  = [(Binary64.round (1 # 2), Binary64.round (4 # 24000))]
  ∧ released (history Scenario.after_barge_in) = [a_source 5]
  ∧ unstarted_stops ∅ (history Scenario.after_barge_in) = []
  ∧ audioSourcesRef (component Scenario.after_barge_in)
    ⊆ started_sources (history Scenario.after_barge_in).
Proof.
  split; [reflexivity|]. split; [reflexivity|].
  exact (stop_only_after_start Reference.decode Reference.decodeAudioData
           Reference.encode Scenario.barge_in Scenario.after_barge_in barge_in_run).
Defined.

Lemma reachable_handles_are_distinct_witness :
  held (component Scenario.after_barge_in)
  = [a_track 10; a_processor 4; a_context 1; a_context 2; a_session 3]
  ∧ NoDup (held (component Scenario.after_barge_in))
  ∧ NoDup (released (effects_of (cleanup (component Scenario.after_barge_in)))).
Proof.
  split; [reflexivity|].
  exact (reachable_handles_are_distinct Reference.decode Reference.decodeAudioData
           Reference.encode Scenario.barge_in Scenario.after_barge_in barge_in_run).
Defined.

Lemma frames_go_to_open_sessions_witness :
  history Scenario.after_frame
  = history Scenario.after_barge_in
    ++ [sendRealtimeInput 3 "AAAAQA==" "audio/pcm;rate=16000"]
  ∧ component Scenario.after_frame = component Scenario.after_barge_in
  ∧ ∃ out, history Scenario.after_frame = history Scenario.after_barge_in ++ out
      ∧ ∀ sess data mime, sendRealtimeInput sess data mime ∈ out →
          sessionPromiseRef (component Scenario.after_barge_in) = Some sess
          ∧ is_Some (sessions Scenario.after_barge_in !! sess).
Proof.
  split; [reflexivity|].
  exact (frames_go_to_open_sessions Reference.decode Reference.decodeAudioData
           Reference.encode Scenario.barge_in Scenario.after_barge_in
           Scenario.after_frame 4 [0; 1 # 2]%Q barge_in_run frame_step).
Defined.

(** ** The schedule over a run *)

Section Schedule.

Variable decode : string → option (list Z).
Variable decodeAudioData : list Z → Z → Z → option AudioBuffer.
Variable encode : list Z → string.

Hypothesis duration_nonneg :
  ∀ bytes buffer,
    decodeAudioData bytes 24000 1 = Some buffer → (0 <= duration buffer)%Q.

(** X15: over any events that neither interrupt nor tear down (grants,
    opens, captured frames, ended sources, messages without the interrupted
    flag) the cursor never moves back; the starts added to the history are
    back to back from the cursor at the beginning, each at or after the start
    before it plus that chunk's length as line 357 adds them; and that sum,
    for every chunk started, is no later than the cursor at the end. *)
Theorem uninterrupted_run_schedules_in_order (evs : list Event) (w w' : World) :
  Forall (λ ev, plays_on ev = true) evs →
  run decode decodeAudioData encode w evs = Some w' →
  (cursor w <= cursor w')%Q
  ∧ ∃ plan, scheduled (history w') = scheduled (history w) ++ plan
      ∧ back_to_back (cursor w) plan
      ∧ Forall (λ chunk, (Binary64.add chunk.1 chunk.2 <= cursor w')%Q) plan.
Proof.
  revert w. induction evs as [|ev rest IH]; intros w Hall; simpl.
  - intros [= <-]. split; [apply Qle_refl|].
    exists []. by rewrite app_nil_r.
  - inversion Hall as [|? ? Hev Hrest]; subst.
    destruct (step decode decodeAudioData encode w ev) as [w1|] eqn:Hstep; [|done].
    simpl. intros Hrun.
    destruct (step_schedules decode decodeAudioData encode duration_nonneg
                w w1 ev Hev Hstep) as (plan1 & Hh1 & Hcase).
    destruct (IH w1 Hrest Hrun) as (Hmono & plan2 & Hh2 & Hb2 & Hend).
    destruct Hcase as [[-> Hle]|(st & d & -> & Hle & Hd & Hcur)].
    + split; [by apply Qle_trans with (cursor w1)|].
      exists plan2. split; [by rewrite Hh2, Hh1, app_nil_r|].
      split; [|done]. by apply back_to_back_earlier with (cursor w1).
    + rewrite Hcur in Hmono, Hb2.
      split; [pose proof (add_ge_l st d Hd); lra|].
      exists ((st, d) :: plan2).
      split; [by rewrite Hh2, Hh1, <- (assoc_L (++))|].
      split; [done|]. by constructor.
Qed.

End Schedule.

Lemma uninterrupted_run_schedules_in_order_witness :
  Forall (λ ev, plays_on ev = true) Scenario.two_chunks
  ∧ run Reference.decode Reference.decodeAudioData Reference.encode
      Sample.world Scenario.two_chunks = Some Scenario.after_two_chunks
  ∧ scheduled (history Scenario.after_two_chunks)
    = [(Binary64.round 3, Binary64.round (4 # 24000));
       (Binary64.add (Binary64.round 3) (Binary64.round (4 # 24000)),
        Binary64.round (2 # 24000))]
  ∧ (cursor Sample.world <= cursor Scenario.after_two_chunks)%Q.
Proof.
  split; [repeat constructor|]. split; [exact two_chunks_run|].
  split; [reflexivity|].
  apply (uninterrupted_run_schedules_in_order Reference.decode
           Reference.decodeAudioData Reference.encode Reference_duration_nonneg
           Scenario.two_chunks Sample.world Scenario.after_two_chunks);
    [repeat constructor|exact two_chunks_run].
Defined.

(** ** The Gemini service *)

Lemma truthy_Some (v : option string) (a : string) :
  truthy v = Some a ↔ v = Some a ∧ a ≠ "".
Proof.
  unfold truthy. destruct v as [x|]; [|split; [discriminate|intros [? _]; discriminate]].
  case_bool_decide as E.
  - split; [discriminate|]. intros [[= ->] H]. by destruct H.
  - split; [intros [= ->]; by split|]. by intros [[= ->] _].
Qed.

Lemma truthy_None (v : option string) :
  truthy v = None ↔ v = None ∨ v = Some "".
Proof.
  unfold truthy. destruct v as [x|]; [|split; [by left|done]].
  case_bool_decide as E.
  - subst x. split; [by right|done].
  - split; [discriminate|]. intros [?|[= ->]]; [discriminate|by destruct E].
Qed.

(** X17: [generateSpeech] either returns audio data that is not empty and
    is the data of the first part of the first candidate, without logging, or
    throws the one message ["Failed to generate speech from Gemini API."]
    after exactly one log; a response without audio and a rejected request
    differ only in what is logged. *)
Lemma speech_is_audio_or_one_message (text : string) (reply : Service.Reply) :
  match Service.settle (Service.generateSpeech text) reply with
  | (logs, Service.Ok audioData) =>
      logs = [] ∧ audioData ≠ "" ∧
      ∃ response, reply = Service.Resolved response ∧
                  Service.first_audio response = Some audioData
  | (logs, Service.Raised message) =>
      message = "Failed to generate speech from Gemini API." ∧
      ∃ cause, logs = [Service.mkLog "Error in generateSpeech:" cause] ∧
        (cause = Service.ApiFailure ↔ reply = Service.Rejected)
  end.
Proof.
  destruct reply as [response|]; simpl.
  - destruct (truthy (Service.first_audio response)) as [a|] eqn:E.
    + apply truthy_Some in E as [E1 E2]. split; [done|]. split; [done|].
      by exists response.
    + split; [done|]. eexists. split; [done|]. split; discriminate.
  - split; [done|]. eexists. split; [done|]. done.
Qed.

(** ** The summarizer view *)

Section SummarizerFacts.
Import Summarizer SummarizerRun.

Lemma trim_start_nil (cs : list ascii) :
  trim_start cs = [] ↔ forallb is_space cs = true.
Proof.
  induction cs as [|c cs IH]; simpl; [done|].
  destruct (is_space c); simpl; [done|]. split; discriminate.
Qed.

Lemma trim_start_head (cs : list ascii) (c : ascii) (rest : list ascii) :
  trim_start cs = c :: rest → is_space c = false.
Proof.
  induction cs as [|c0 cs IH]; simpl; [discriminate|].
  destruct (is_space c0) eqn:E; [done|]. by intros [= <- _].
Qed.

Lemma string_of_list_ascii_nil (cs : list ascii) :
  string_of_list_ascii cs = EmptyString ↔ cs = [].
Proof. destruct cs; simpl; split; (done || discriminate). Qed.

Lemma reverse_nil_iff {A} (l : list A) : reverse l = [] ↔ l = [].
Proof.
  split; [|by intros ->].
  intros H. apply (f_equal length) in H. rewrite length_reverse in H.
  by destruct l.
Qed.

Lemma trim_blank (s : string) :
  trim s = EmptyString ↔ forallb is_space (list_ascii_of_string s) = true.
Proof.
  unfold trim. rewrite string_of_list_ascii_nil, reverse_nil_iff.
  rewrite <- (trim_start_nil (list_ascii_of_string s)).
  destruct (trim_start (list_ascii_of_string s)) as [|c rest] eqn:E.
  - done.
  - split; [|discriminate]. intros H. exfalso.
    apply trim_start_nil in H. apply trim_start_head in E.
    rewrite reverse_cons, forallb_app in H. simpl in H. rewrite E in H.
    by rewrite andb_false_r in H.
Qed.

Variable decode : string → option (list Z).
Variable decode_null : option (list Z).
Variable decodeAudioData : list Z → Z → Z → option AudioBuffer.

(** A blank article stops [handleGenerateSummary] at line 27. *)
Lemma handleGenerateSummary_blank (s : State) :
  forallb is_space (list_ascii_of_string (articleText s)) = true →
  handleGenerateSummary decode decode_null decodeAudioData s =
    (None, with_error (Some "Please paste a news article first.") s, []).
Proof.
  intros H. apply trim_blank in H.
  unfold Summarizer.handleGenerateSummary, bind, read. simpl.
  rewrite bool_decide_true by done. done.
Qed.

(** X18: an article of white space only is refused before anything else
    happens: the handler sets the error message, changes nothing else (the
    loading flag, the summary, the audio and a running playback are as they
    were) and makes no request, whatever the service would have answered. *)
Lemma blank_article_is_rejected (s : State) :
  forallb is_space (list_ascii_of_string (articleText s)) = true →
  handleGenerateSummary decode decode_null decodeAudioData s =
    (None, with_error (Some "Please paste a news article first.") s, []) ∧
  ∀ summary_reply speech_reply,
    generate decode decode_null decodeAudioData summary_reply speech_reply s =
      ((), with_error (Some "Please paste a news article first.") s, []).
Proof.
  intros H. pose proof (handleGenerateSummary_blank s H) as E.
  split; [done|]. intros rs rp.
  unfold Summarizer.generate, bind. by rewrite E.
Qed.

Lemma handleGenerateSummary_starts (s : State) :
  forallb is_space (list_ascii_of_string (articleText s)) = false →
  handleGenerateSummary decode decode_null decodeAudioData s =
    (Some (Service.summarizeArticle (articleText s)),
     with_isPlaying false (with_audioDataRef None (with_summaryText ""
       (with_error None (with_isLoading true s)))),
     stops s ++
       [generateContent
          (Service.request (Service.summarizeArticle (articleText s)))]).
Proof.
  intros H.
  assert (N : trim (articleText s) ≠ EmptyString).
  { intros E. apply trim_blank in E. congruence. }
  unfold Summarizer.handleGenerateSummary, bind, read. simpl.
  rewrite bool_decide_false by done.
  unfold stops. destruct s as [a sm l e p ad ac asrc n]. simpl.
  destruct p; simpl; [|done].
  unfold Summarizer.handleTogglePlayback, bind, read. simpl.
  by destruct asrc.
Qed.

(** X19: a generation on an article that is not blank always ends with the
    loading flag off and playback stopped, and leaves the article and the
    audio handles alone.  If the summary request is rejected nothing is shown
    but the error and no speech is requested.  Otherwise the summary is shown
    and speech is requested for exactly that text; then either audio that is
    not empty is stored and there is no error, or no audio is stored and the
    error is shown beside the summary. *)
Lemma generation_outcomes (s : State) (summary_reply speech_reply : Service.Reply) :
  forallb is_space (list_ascii_of_string (articleText s)) = false →
  let r := generate decode decode_null decodeAudioData
             summary_reply speech_reply s in
  let s' := state_after r in
  let ask := generateContent
               (Service.request (Service.summarizeArticle (articleText s))) in
  isLoading s' = false ∧ isPlaying s' = false ∧
  articleText s' = articleText s ∧
  audioContextRef s' = audioContextRef s ∧
  audioSourceRef s' = audioSourceRef s ∧
  nextObject s' = nextObject s ∧
  match summary_reply with
  | Service.Rejected =>
      summaryText s' = EmptyString ∧ audioDataRef s' = None ∧
      error s' = Some generation_failed ∧
      calls_of r = stops s ++
        [ask;
         service_log (Service.mkLog "Error in summarizeArticle:" Service.ApiFailure);
         console_error "Failed to get summary from Gemini API."]
  | Service.Resolved response =>
      summaryText s' = Service.text response ∧
      filter (λ c, requests_content c = true) (calls_of r) =
        [ask;
         generateContent
           (Service.request (Service.generateSpeech (Service.text response)))] ∧
      match audioDataRef s' with
      | Some audioData =>
          audioData ≠ EmptyString ∧ error s' = None ∧
          ∃ speech, speech_reply = Service.Resolved speech ∧
                    Service.first_audio speech = Some audioData
      | None =>
          error s' = Some generation_failed ∧
          last (calls_of r) =
            Some (console_error "Failed to generate speech from Gemini API.")
      end
  end.
Proof.
  intros H r s' ask. subst r s' ask.
  unfold Summarizer.generate, bind.
  rewrite (handleGenerateSummary_starts s H).
  assert (F : filter (λ c, requests_content c = true) (stops s) = []).
  { unfold stops. destruct (isPlaying s); [|done]. by destruct (audioSourceRef s). }
  destruct summary_reply as [response|].
  - unfold handleGenerateSummary_summarized, bind. simpl.
    destruct speech_reply as [speech|].
    + unfold handleGenerateSummary_spoken, bind. simpl.
      destruct (truthy (Service.first_audio speech)) as [a|] eqn:E; simpl.
      * apply truthy_Some in E as [E1 E2].
        repeat (split; [done|]). split.
        { unfold calls_of. simpl. rewrite !filter_app, F. done. }
        split; [done|]. split; [done|]. by exists speech.
      * repeat (split; [done|]). split.
        { unfold calls_of. simpl. rewrite !filter_app, F. done. }
        split; [done|]. unfold calls_of. simpl.
        by rewrite last_app.
    + unfold handleGenerateSummary_spoken, bind. simpl.
      repeat (split; [done|]). split.
      { unfold calls_of. simpl. rewrite !filter_app, F. done. }
      split; [done|]. unfold calls_of. simpl. by rewrite last_app.
  - unfold handleGenerateSummary_summarized, bind. simpl.
    repeat (split; [done|]). unfold calls_of. simpl.
    by rewrite <- app_assoc.
Qed.

(** A generation that stores audio leaves no error, and leaves playback
    stopped either way. *)
Lemma generate_audio_or_error
    (s : State) (summary_reply speech_reply : Service.Reply) :
  forallb is_space (list_ascii_of_string (articleText s)) = false →
  let s' := state_after (generate decode decode_null decodeAudioData
                           summary_reply speech_reply s) in
  isPlaying s' = false ∧ (audioDataRef s' = None ∨ error s' = None).
Proof.
  intros H s'. subst s'. unfold Summarizer.generate, bind.
  rewrite (handleGenerateSummary_starts s H).
  destruct summary_reply as [response|];
    unfold handleGenerateSummary_summarized, bind; simpl; [|by split; [|left]].
  destruct speech_reply as [speech|];
    unfold handleGenerateSummary_spoken, bind; simpl; [|by split; [|left]].
  destruct (truthy (Service.first_audio speech)); simpl; split; auto.
Qed.

(** X20: after a generation that ended with an error there is nothing to
    play: a click on the playback button changes nothing and makes no call. *)
Lemma failed_generation_leaves_nothing_to_play
    (s : State) (summary_reply speech_reply : Service.Reply) (suspended : bool) :
  forallb is_space (list_ascii_of_string (articleText s)) = false →
  let s' := state_after (generate decode decode_null decodeAudioData
                           summary_reply speech_reply s) in
  error s' ≠ None →
  handleTogglePlayback decode decode_null decodeAudioData suspended s' =
    (None, s', []).
Proof.
  intros H s' E.
  destruct (generate_audio_or_error s summary_reply speech_reply H) as [P A].
  fold s' in P, A. destruct A as [A|A]; [|by destruct E]. clearbody s'.
  unfold Summarizer.handleTogglePlayback, bind, read. simpl.
  rewrite P, A. done.
Qed.

(** X21: audio that does not decode is reported by the playback handler:
    the failure is caught and logged, the error message is shown, nothing is
    started, [isPlaying] stays off and the audio data is kept; the only other
    call is the creation of the audio context if there was none. *)
Lemma playback_decode_failure_is_logged (s : State) (audioData : string) :
  isPlaying s = false →
  audioDataRef s = Some audioData → audioData ≠ EmptyString →
  decode audioData ≫= (λ bytes, decodeAudioData bytes 24000 1) = None →
  let r := handleTogglePlayback decode decode_null decodeAudioData false s in
  let s' := state_after r in
  result_of r = None ∧
  error s' = Some "Could not play the generated audio." ∧
  isPlaying s' = false ∧ audioSourceRef s' = audioSourceRef s ∧
  audioDataRef s' = Some audioData ∧
  calls_of r =
    match audioContextRef s with
    | Some _ => []
    | None => [context_new (nextObject s) 24000]
    end ++ [console_error_playing DecodeError].
Proof.
  intros P A N D r s'. subst r s'.
  assert (T : truthy (Some audioData) = Some audioData).
  { apply truthy_Some. by split. }
  unfold Summarizer.handleTogglePlayback, bind, read. simpl.
  rewrite P, A, T.
  destruct (audioContextRef s) as [ctx|] eqn:C.
  - unfold Summarizer.play, bind, read. simpl. rewrite A. simpl. rewrite D.
    simpl. by rewrite A.
  - unfold Summarizer.play, bind, read. simpl. rewrite A. simpl. rewrite D.
    simpl. by rewrite A.
Qed.

(** X22: play, stop, ended: a click with decodable audio starts exactly one
    source on the view's audio context (created first if there was none); a
    second click stops that source; and once it has ended the state is the
    first one again except that the context is kept for the next playback. *)
Lemma play_then_stop_then_ended
    (s : State) (audioData : string) (audioBuffer : AudioBuffer) :
  isPlaying s = false →
  audioDataRef s = Some audioData → audioData ≠ EmptyString →
  decode audioData ≫= (λ bytes, decodeAudioData bytes 24000 1) = Some audioBuffer →
  let audioContext := default (nextObject s) (audioContextRef s) in
  let played := handleTogglePlayback decode decode_null decodeAudioData false s in
  let stopped := handleTogglePlayback decode decode_null decodeAudioData false
                   (state_after played) in
  let ended := onended (state_after stopped) in
  ∃ source,
    filter (λ c, creates_context c = false) (calls_of played) =
      [source_start source audioContext audioBuffer] ∧
    isPlaying (state_after played) = true ∧
    audioSourceRef (state_after played) = Some source ∧
    audioContextRef (state_after played) = Some audioContext ∧
    calls_of stopped = [source_stop source] ∧
    isPlaying (state_after stopped) = false ∧
    calls_of ended = [] ∧
    state_after ended =
      with_audioSourceRef None
        (with_audioContextRef (Some audioContext)
           (with_nextObject (nextObject (state_after played)) s)).
Proof.
  intros P A N D ctx played stopped ended. subst ctx played stopped ended.
  assert (T : truthy (Some audioData) = Some audioData).
  { apply truthy_Some. by split. }
  unfold Summarizer.handleTogglePlayback, bind, read. simpl.
  rewrite P, A, T.
  destruct s as [a sm l e p ad [ctx|] asrc n]; simpl in *; subst.
  - unfold Summarizer.play, bind, read. simpl. rewrite D. simpl.
    eexists. repeat (split; [reflexivity|]). reflexivity.
  - unfold Summarizer.play, bind, read. simpl. rewrite D. simpl.
    eexists. repeat (split; [reflexivity|]). reflexivity.
Qed.

(** Each event keeps an audio context that exists and creates at most one
    when there is none. *)
Lemma handle_context (ev : Event) (s : State) :
  let r := handle decode decode_null decodeAudioData ev s in
  match audioContextRef s with
  | Some ctx =>
      filter (λ c, creates_context c = true) (calls_of r) = [] ∧
      audioContextRef (state_after r) = Some ctx
  | None =>
      (filter (λ c, creates_context c = true) (calls_of r) = [] ∧
       audioContextRef (state_after r) = None) ∨
      (filter (λ c, creates_context c = true) (calls_of r) =
         [context_new (nextObject s) 24000] ∧
       audioContextRef (state_after r) = Some (nextObject s))
  end.
Proof.
  assert (L : ∀ logs (s0 : State),
    log_all logs s0 = ((), s0, map service_log logs)).
  { intros ls. induction ls as [|l ls IH]; intros s0; [done|].
    simpl. unfold bind, call. simpl. by rewrite IH. }
  assert (F : ∀ logs,
    filter (λ c, creates_context c = true) (map service_log logs) = []).
  { intros ls. induction ls as [|l ls IH]; [done|]. simpl.
    rewrite filter_cons_False; [done|]. simpl. discriminate. }
  assert (Pl : ∀ ctx (s0 : State),
    filter (λ c, creates_context c = true)
      (calls_of (play decode decode_null decodeAudioData ctx s0)) = [] ∧
    audioContextRef
      (state_after (play decode decode_null decodeAudioData ctx s0)) =
      audioContextRef s0).
  { intros ctx s0. unfold Summarizer.play, bind, read. simpl.
    destruct (from_option decode decode_null (audioDataRef s0) ≫=
              (λ bytes, decodeAudioData bytes 24000 1)); simpl; done. }
  assert (Tg : ∀ b (s0 : State),
    let r := handleTogglePlayback decode decode_null decodeAudioData b s0 in
    match audioContextRef s0 with
    | Some ctx =>
        filter (λ c, creates_context c = true) (calls_of r) = [] ∧
        audioContextRef (state_after r) = Some ctx
    | None =>
        (filter (λ c, creates_context c = true) (calls_of r) = [] ∧
         audioContextRef (state_after r) = None) ∨
        (filter (λ c, creates_context c = true) (calls_of r) =
           [context_new (nextObject s0) 24000] ∧
         audioContextRef (state_after r) = Some (nextObject s0))
    end).
  { intros b s0. unfold Summarizer.handleTogglePlayback, bind, read. simpl.
    destruct (isPlaying s0) eqn:P; simpl.
    - destruct (audioSourceRef s0); simpl;
        destruct (audioContextRef s0) eqn:C; simpl; rewrite ?C; auto.
    - destruct (truthy (audioDataRef s0)) as [data|] eqn:T; simpl.
      + destruct (audioContextRef s0) as [ctx|] eqn:C; simpl.
        * destruct b; simpl; [done|].
          destruct (Pl ctx s0) as [P1 P2].
          destruct (play decode decode_null decodeAudioData ctx s0)
            as [[u s1] out1] eqn:E.
          unfold calls_of, state_after in *. simpl in *.
          rewrite app_nil_r. by rewrite P1, P2.
        * right. destruct b; simpl; [done|].
          destruct (Pl (nextObject s0)
            (with_audioContextRef (Some (nextObject s0))
               (with_nextObject (S (nextObject s0)) s0))) as [P1 P2].
          destruct (play decode decode_null decodeAudioData (nextObject s0) _)
            as [[u s1] out1] eqn:E.
          unfold calls_of, state_after in *. simpl in *.
          rewrite app_nil_r.
          rewrite filter_cons_True by done. by rewrite P1, P2.
      + destruct (audioContextRef s0) eqn:C; simpl; rewrite ?C; auto. }
  destruct ev as [article| |pending reply|pending reply|b|ctx|]; simpl.
  - destruct (audioContextRef s) eqn:C; simpl; rewrite ?C; auto.
  - unfold bind.
    destruct (forallb is_space (list_ascii_of_string (articleText s))) eqn:B.
    + rewrite (handleGenerateSummary_blank s B). simpl.
      destruct (audioContextRef s) eqn:C; simpl; rewrite ?C; auto.
    + rewrite (handleGenerateSummary_starts s B).
      unfold calls_of, state_after. simpl. rewrite app_nil_r, filter_app.
      assert (S0 : filter (λ c, creates_context c = true) (stops s) = []).
      { unfold stops. destruct (isPlaying s); [|done].
        by destruct (audioSourceRef s). }
      rewrite S0. simpl.
      destruct (audioContextRef s) eqn:C; simpl; rewrite ?C; auto.
  - unfold handleGenerateSummary_summarized, bind.
    destruct (Service.settle pending reply) as [logs [summary|message]].
    + rewrite L. unfold calls_of, state_after. simpl.
      rewrite ?app_nil_r, ?filter_app, F. simpl.
      destruct (audioContextRef s) eqn:C; simpl; rewrite ?C; auto.
    + rewrite L. unfold calls_of, state_after. simpl.
      rewrite ?app_nil_r, ?filter_app, F. simpl.
      destruct (audioContextRef s) eqn:C; simpl; rewrite ?C; auto.
  - unfold handleGenerateSummary_spoken, bind.
    destruct (Service.settle pending reply) as [logs [audio|message]].
    + rewrite L. unfold calls_of, state_after. simpl.
      rewrite ?app_nil_r, ?filter_app, F. simpl.
      destruct (audioContextRef s) eqn:C; simpl; rewrite ?C; auto.
    + rewrite L. unfold calls_of, state_after. simpl.
      rewrite ?app_nil_r, ?filter_app, F. simpl.
      destruct (audioContextRef s) eqn:C; simpl; rewrite ?C; auto.
  - pose proof (Tg b s) as T. simpl in T. unfold bind.
    destruct (handleTogglePlayback decode decode_null decodeAudioData b s)
      as [[u s1] out1] eqn:E.
    unfold calls_of, state_after in *. simpl in *. rewrite app_nil_r. exact T.
  - destruct (Pl ctx s) as [P1 P2]. rewrite P1, P2.
    destruct (audioContextRef s) eqn:C; simpl; rewrite ?C; auto.
  - destruct (audioContextRef s) eqn:C; simpl; rewrite ?C; auto.
Qed.

(** X23: over any sequence of events from the initial state the view
    creates at most one audio context, at 24000 Hz, and the one it created is
    the one it still holds. *)
Lemma one_audio_context_for_life (events : list Event) :
  let '(s, calls) := run decode decode_null decodeAudioData initial events in
  (filter (λ c, creates_context c = true) calls = [] ∧
   audioContextRef s = None) ∨
  ∃ ctx, filter (λ c, creates_context c = true) calls = [context_new ctx 24000] ∧
         audioContextRef s = Some ctx.
Proof.
  assert (G : ∀ events s0,
    let '(s, calls) := run decode decode_null decodeAudioData s0 events in
    match audioContextRef s0 with
    | Some ctx =>
        filter (λ c, creates_context c = true) calls = [] ∧
        audioContextRef s = Some ctx
    | None =>
        (filter (λ c, creates_context c = true) calls = [] ∧
         audioContextRef s = None) ∨
        ∃ ctx, filter (λ c, creates_context c = true) calls =
                 [context_new ctx 24000] ∧
               audioContextRef s = Some ctx
    end).
  { clear events. induction events as [|ev events IH]; intros s0; simpl.
    - destruct (audioContextRef s0); auto.
    - pose proof (handle_context ev s0) as H. simpl in H.
      destruct (handle decode decode_null decodeAudioData ev s0)
        as [[u s1] out1] eqn:E1.
      specialize (IH s1).
      destruct (run decode decode_null decodeAudioData s1 events)
        as [s2 out2] eqn:E2.
      unfold calls_of, state_after in H. simpl in H.
      rewrite filter_app.
      destruct (audioContextRef s0) as [ctx|].
      + destruct H as [H1 H2]. rewrite H2 in IH. destruct IH as [I1 I2].
        by rewrite H1, I1.
      + destruct H as [[H1 H2]|[H1 H2]]; rewrite H2 in IH; rewrite H1.
        * exact IH.
        * right. destruct IH as [I1 I2]. rewrite I1. by eexists. }
  apply (G events initial).
Qed.

(** Each event keeps: while audio is marked as playing there is a source to
    stop. *)
Lemma handle_playing (ev : Event) (s : State) :
  (isPlaying s = true → is_Some (audioSourceRef s)) →
  let s' := state_after (handle decode decode_null decodeAudioData ev s) in
  isPlaying s' = true → is_Some (audioSourceRef s').
Proof.
  assert (L : ∀ logs (s0 : State),
    log_all logs s0 = ((), s0, map service_log logs)).
  { intros ls. induction ls as [|l ls IH]; intros s0; [done|].
    simpl. unfold bind, call. simpl. by rewrite IH. }
  assert (Pl : ∀ ctx (s0 : State),
    (isPlaying s0 = true → is_Some (audioSourceRef s0)) →
    isPlaying (state_after (play decode decode_null decodeAudioData ctx s0)) = true →
    is_Some (audioSourceRef
      (state_after (play decode decode_null decodeAudioData ctx s0)))).
  { intros ctx s0 I. unfold Summarizer.play, bind, read. simpl.
    destruct (from_option decode decode_null (audioDataRef s0) ≫=
              (λ bytes, decodeAudioData bytes 24000 1)); simpl; [by eexists|].
    exact I. }
  assert (Tg : ∀ b (s0 : State),
    (isPlaying s0 = true → is_Some (audioSourceRef s0)) →
    isPlaying (state_after
      (handleTogglePlayback decode decode_null decodeAudioData b s0)) = true →
    is_Some (audioSourceRef (state_after
      (handleTogglePlayback decode decode_null decodeAudioData b s0)))).
  { intros b s0 I. unfold Summarizer.handleTogglePlayback, bind, read. simpl.
    destruct (isPlaying s0) eqn:P; simpl.
    - destruct (audioSourceRef s0); simpl; discriminate.
    - destruct (truthy (audioDataRef s0)) as [data|] eqn:T; simpl.
      + destruct (audioContextRef s0) as [ctx|] eqn:C; simpl.
        * destruct b; simpl; [unfold state_after; simpl; intros Q; congruence|].
          assert (I' : isPlaying s0 = true → is_Some (audioSourceRef s0))
            by (rewrite P; discriminate).
          pose proof (Pl ctx s0 I') as Q.
          destruct (play decode decode_null decodeAudioData ctx s0)
            as [[u s1] out1] eqn:E.
          exact Q.
        * destruct b; simpl; [unfold state_after; simpl; intros Q; congruence|].
          assert (I' : isPlaying s0 = true → is_Some (audioSourceRef s0))
            by (rewrite P; discriminate).
          pose proof (Pl (nextObject s0)
            (with_audioContextRef (Some (nextObject s0))
               (with_nextObject (S (nextObject s0)) s0)) I') as Q.
          destruct (play decode decode_null decodeAudioData (nextObject s0) _)
            as [[u s1] out1] eqn:E.
          exact Q.
      + unfold state_after; simpl; intros Q; congruence. }
  intros I. destruct ev as [article| |pending reply|pending reply|b|ctx|]; simpl.
  - exact I.
  - unfold bind.
    destruct (forallb is_space (list_ascii_of_string (articleText s))) eqn:B.
    + rewrite (handleGenerateSummary_blank s B). exact I.
    + rewrite (handleGenerateSummary_starts s B). discriminate.
  - unfold handleGenerateSummary_summarized, bind.
    destruct (Service.settle pending reply) as [logs [summary|message]];
      rewrite L; simpl; exact I.
  - unfold handleGenerateSummary_spoken, bind.
    destruct (Service.settle pending reply) as [logs [audio|message]];
      rewrite L; simpl; exact I.
  - pose proof (Tg b s I) as T. unfold bind.
    destruct (handleTogglePlayback decode decode_null decodeAudioData b s)
      as [[u s1] out1] eqn:E.
    exact T.
  - apply (Pl ctx s I).
  - discriminate.
Qed.

(** X24: in every state reached from the initial one in which audio is
    marked as playing, the source to stop is at hand: a click on the playback
    button stops that source, turns [isPlaying] off and does nothing else. *)
Lemma stop_click_always_finds_its_source
    (events : list Event) (suspended : bool) :
  let s := (run decode decode_null decodeAudioData initial events).1 in
  isPlaying s = true →
  ∃ source,
    audioSourceRef s = Some source ∧
    handleTogglePlayback decode decode_null decodeAudioData suspended s =
      (None, with_isPlaying false s, [source_stop source]).
Proof.
  assert (G : ∀ events s0,
    (isPlaying s0 = true → is_Some (audioSourceRef s0)) →
    let s := (run decode decode_null decodeAudioData s0 events).1 in
    isPlaying s = true → is_Some (audioSourceRef s)).
  { clear events. induction events as [|ev events IH]; intros s0 I; simpl.
    - exact I.
    - pose proof (handle_playing ev s0 I) as H. simpl in H.
      destruct (handle decode decode_null decodeAudioData ev s0)
        as [[u s1] out1] eqn:E1.
      specialize (IH s1 H). simpl in IH.
      destruct (run decode decode_null decodeAudioData s1 events)
        as [s2 out2] eqn:E2.
      exact IH. }
  intros s P.
  assert (I : isPlaying initial = true → is_Some (audioSourceRef initial))
    by discriminate.
  assert (S1 : is_Some (audioSourceRef s)) by exact (G events initial I P).
  destruct S1 as [source S0].
  exists source. split; [exact S0|]. clearbody s.
  unfold Summarizer.handleTogglePlayback, bind, read. simpl.
  rewrite P, S0. done.
Qed.

End SummarizerFacts.

(** ** Sample runs of the summarizer view *)

Lemma blank_article_is_rejected_witness :
  forallb Summarizer.is_space
    (list_ascii_of_string (Summarizer.articleText SummarizerSample.blank)) = true ∧
  Summarizer.handleGenerateSummary Reference.decode None Reference.decodeAudioData
    SummarizerSample.blank =
    (None,
     Summarizer.with_error (Some "Please paste a news article first.")
       SummarizerSample.blank, []).
Proof.
  split; [reflexivity|].
  apply (blank_article_is_rejected Reference.decode None
           Reference.decodeAudioData SummarizerSample.blank).
  reflexivity.
Defined.

Lemma generation_outcomes_witness :
  forallb Summarizer.is_space
    (list_ascii_of_string (Summarizer.articleText SummarizerSample.article)) = false ∧
  Summarizer.isLoading
    (Summarizer.state_after
       (Summarizer.generate Reference.decode None Reference.decodeAudioData
          (Service.Resolved SummarizerSample.summary)
          (Service.Resolved (SummarizerSample.speech Sample.chunk_a))
          SummarizerSample.article)) = false.
Proof.
  split; [reflexivity|].
  apply (generation_outcomes Reference.decode None Reference.decodeAudioData
           SummarizerSample.article
           (Service.Resolved SummarizerSample.summary)
           (Service.Resolved (SummarizerSample.speech Sample.chunk_a))).
  reflexivity.
Defined.

Lemma failed_generation_leaves_nothing_to_play_witness :
  forallb Summarizer.is_space
    (list_ascii_of_string (Summarizer.articleText SummarizerSample.article)) = false ∧
  Summarizer.error
    (Summarizer.state_after
       (Summarizer.generate Reference.decode None Reference.decodeAudioData
          (Service.Resolved SummarizerSample.summary) Service.Rejected
          SummarizerSample.article)) ≠ None ∧
  Summarizer.calls_of
    (Summarizer.handleTogglePlayback Reference.decode None
       Reference.decodeAudioData false
       (Summarizer.state_after
          (Summarizer.generate Reference.decode None Reference.decodeAudioData
             (Service.Resolved SummarizerSample.summary) Service.Rejected
             SummarizerSample.article))) = [].
Proof.
  split; [reflexivity|]. split; [discriminate|].
  rewrite (failed_generation_leaves_nothing_to_play Reference.decode None
             Reference.decodeAudioData SummarizerSample.article
             (Service.Resolved SummarizerSample.summary) Service.Rejected false);
    [reflexivity|reflexivity|discriminate].
Defined.

Lemma playback_decode_failure_is_logged_witness :
  Summarizer.isPlaying SummarizerSample.unplayable = false ∧
  Summarizer.audioDataRef SummarizerSample.unplayable = Some Sample.malformed ∧
  Sample.malformed ≠ EmptyString ∧
  Reference.decode Sample.malformed ≫=
    (λ bytes, Reference.decodeAudioData bytes 24000 1) = None ∧
  Summarizer.error
    (Summarizer.state_after
       (Summarizer.handleTogglePlayback Reference.decode None
          Reference.decodeAudioData false SummarizerSample.unplayable)) =
    Some "Could not play the generated audio.".
Proof.
  split; [reflexivity|]. split; [reflexivity|]. split; [discriminate|].
  split; [reflexivity|].
  apply (playback_decode_failure_is_logged Reference.decode None
           Reference.decodeAudioData SummarizerSample.unplayable
           Sample.malformed); [reflexivity|reflexivity|discriminate|reflexivity].
Defined.

Lemma play_then_stop_then_ended_witness :
  Summarizer.isPlaying SummarizerSample.ready = false ∧
  Summarizer.audioDataRef SummarizerSample.ready = Some Sample.chunk_a ∧
  Sample.chunk_a ≠ EmptyString ∧
  Reference.decode Sample.chunk_a ≫=
    (λ bytes, Reference.decodeAudioData bytes 24000 1) =
    Some SummarizerSample.buffer ∧
  ∃ source,
    Summarizer.calls_of
      (Summarizer.handleTogglePlayback Reference.decode None
         Reference.decodeAudioData false
         (Summarizer.state_after
            (Summarizer.handleTogglePlayback Reference.decode None
               Reference.decodeAudioData false SummarizerSample.ready))) =
      [Summarizer.source_stop source].
Proof.
  split; [reflexivity|]. split; [reflexivity|]. split; [discriminate|].
  split; [reflexivity|].
  destruct (play_then_stop_then_ended Reference.decode None
              Reference.decodeAudioData SummarizerSample.ready Sample.chunk_a
              SummarizerSample.buffer)
    as (source & _ & _ & _ & _ & H & _);
    [reflexivity|reflexivity|discriminate|reflexivity|].
  exists source. exact H.
Defined.

Lemma stop_click_always_finds_its_source_witness :
  Summarizer.isPlaying
    (SummarizerRun.run Reference.decode None Reference.decodeAudioData
       Summarizer.initial SummarizerSample.listening).1 = true ∧
  ∃ source,
    Summarizer.calls_of
      (Summarizer.handleTogglePlayback Reference.decode None
         Reference.decodeAudioData true
         (SummarizerRun.run Reference.decode None Reference.decodeAudioData
            Summarizer.initial SummarizerSample.listening).1) =
      [Summarizer.source_stop source].
Proof.
  split; [reflexivity|].
  destruct (stop_click_always_finds_its_source Reference.decode None
              Reference.decodeAudioData SummarizerSample.listening true)
    as (source & _ & H); [reflexivity|].
  exists source. by rewrite H.
Defined.

(** ** One generation at a time *)

Section SummarizerGuards.
Import Summarizer SummarizerPage.

Variable decode : string → option (list Z).
Variable decode_null : option (list Z).
Variable decodeAudioData : list Z → Z → Z → option AudioBuffer.

Lemma log_all_run (entries : list Service.Log) (s : State) :
  log_all entries s = ((), s, map service_log entries).
Proof.
  revert s. induction entries as [|l entries IH]; intros s; [done|].
  simpl. unfold bind, call. simpl. by rewrite IH.
Qed.

(** Playback leaves the loading flag and the summary alone. *)
Lemma play_keeps_generation (audioContext : nat) (s : State) :
  let s' := state_after (play decode decode_null decodeAudioData audioContext s) in
  isLoading s' = isLoading s ∧ summaryText s' = summaryText s.
Proof.
  unfold Summarizer.play, bind, read. simpl.
  by destruct (from_option decode decode_null (audioDataRef s) ≫=
               (λ bytes, decodeAudioData bytes 24000 1)).
Qed.

Lemma handleTogglePlayback_keeps_generation (suspended : bool) (s : State) :
  let s' := state_after
              (handleTogglePlayback decode decode_null decodeAudioData suspended s) in
  isLoading s' = isLoading s ∧ summaryText s' = summaryText s.
Proof.
  unfold Summarizer.handleTogglePlayback, bind, read. simpl.
  destruct (isPlaying s); simpl.
  - by destruct (audioSourceRef s).
  - destruct (truthy (audioDataRef s)) as [data|]; simpl; [|done].
    destruct (audioContextRef s) as [ctx|]; simpl.
    + destruct suspended; simpl; [done|].
      pose proof (play_keeps_generation ctx s) as H. simpl in H.
      destruct (play decode decode_null decodeAudioData ctx s) as [[u st] out].
      exact H.
    + destruct suspended; simpl; [done|].
      pose proof (play_keeps_generation (nextObject s)
        (with_audioContextRef (Some (nextObject s))
           (with_nextObject (S (nextObject s)) s))) as H. simpl in H.
      destruct (play decode decode_null decodeAudioData (nextObject s) _)
        as [[u st] out].
      exact H.
Qed.

Lemma one_at_a_time_same (p p' : Page) :
  isLoading (view p') = isLoading (view p) →
  summaryText (view p') = summaryText (view p) →
  awaited p' = awaited p →
  one_at_a_time p → one_at_a_time p'.
Proof.
  unfold one_at_a_time. intros -> -> ->. done.
Qed.

Lemma step_one_at_a_time (p p' : Page) (input : Input) :
  one_at_a_time p →
  step decode decode_null decodeAudioData p input = Some p' →
  one_at_a_time p'.
Proof.
  intros I. destruct input as [article| |i reply|suspended|i|]; simpl.
  - intros [= <-]. by apply (one_at_a_time_same p).
  - unfold generate_enabled.
    destruct (isLoading (view p)) eqn:L; simpl; [done|]. intros [= <-].
    destruct I as [[_ A]|[L' _]]; [|congruence].
    destruct (forallb is_space (list_ascii_of_string (articleText (view p))))
      eqn:B.
    + rewrite (handleGenerateSummary_blank decode decode_null decodeAudioData
                 (view p) B).
      left. unfold page_after. simpl. by rewrite A, L.
    + rewrite (handleGenerateSummary_starts decode decode_null decodeAudioData
                 (view p) B).
      right. unfold page_after. simpl. rewrite A. split; [done|].
      left. by eexists.
  - destruct I as [[_ A]|[L [[pending A]|A]]]; rewrite A.
    + by rewrite lookup_nil.
    + destruct i as [|i]; [|done]. simpl. intros [= <-].
      unfold handleGenerateSummary_summarized, bind.
      destruct (Service.settle pending reply) as [entries [summary|message]];
        rewrite log_all_run; unfold page_after; simpl.
      * right. simpl. split; [exact L|]. by right.
      * left. by split.
    + destruct i as [|i]; [|done]. simpl. intros [= <-].
      unfold handleGenerateSummary_spoken, bind.
      destruct (Service.settle _ reply) as [entries [audioData|message]];
        rewrite log_all_run; unfold page_after; simpl; left; by split.
  - destruct (playback_shown (view p)); [|done]. intros [= <-].
    destruct (handleTogglePlayback_keeps_generation suspended (view p))
      as [H1 H2].
    by apply (one_at_a_time_same p).
  - destruct (resuming p !! i) as [ctx|]; [|done]. intros [= <-].
    destruct (play_keeps_generation ctx (view p)) as [H1 H2].
    by apply (one_at_a_time_same p).
  - intros [= <-]. by apply (one_at_a_time_same p).
Qed.

(** X25: on the page, where the generate button is disabled while
    [isLoading] is set, there is never more than one request awaited; the
    loading flag is on exactly while one is, and the button is enabled
    exactly while none is; and a speech request that is awaited is always the
    one for the summary currently held in [summaryText]. *)
Theorem one_generation_at_a_time (inputs : list Input) (p : Page) :
  run decode decode_null decodeAudioData opening inputs = Some p →
  (length (awaited p) ≤ 1)%nat
  ∧ (isLoading (view p) = true ↔ awaited p ≠ [])
  ∧ (generate_enabled (view p) = true ↔ awaited p = [])
  ∧ ∀ pending, (Speaking, pending) ∈ awaited p →
      pending = Service.generateSpeech (summaryText (view p)).
Proof.
  assert (G : ∀ inputs p0,
    one_at_a_time p0 →
    run decode decode_null decodeAudioData p0 inputs = Some p →
    one_at_a_time p).
  { clear inputs. induction inputs as [|input rest IH]; intros p0 I; simpl.
    - by intros [= <-].
    - destruct (step decode decode_null decodeAudioData p0 input) as [p1|] eqn:E;
        [|done].
      apply IH. by apply (step_one_at_a_time p0 p1 input). }
  intros H.
  assert (I : one_at_a_time opening) by (by left).
  specialize (G inputs opening I H). unfold generate_enabled.
  destruct G as [[L A]|[L [[pending A]|A]]]; rewrite L, A; simpl.
  - split; [lia|]. split; [split; [discriminate|done]|]. split; [done|].
    intros pending Hin. by apply elem_of_nil in Hin.
  - split; [lia|]. split; [done|]. split; [split; discriminate|].
    intros c Hin. apply list_elem_of_singleton in Hin. discriminate.
  - split; [lia|]. split; [done|]. split; [split; discriminate|].
    intros c Hin. apply list_elem_of_singleton in Hin. by injection Hin.
Qed.

End SummarizerGuards.

Lemma summarizing_run :
  SummarizerPage.run Reference.decode None Reference.decodeAudioData
    SummarizerPage.opening SummarizerSample.summarizing =
  Some SummarizerSample.speaking.
Proof. vm_compute. reflexivity. Qed.

Lemma one_generation_at_a_time_witness :
  SummarizerPage.awaited SummarizerSample.speaking =
    [(SummarizerPage.Speaking, Service.generateSpeech "Rain.")]
  ∧ Summarizer.isLoading (SummarizerPage.view SummarizerSample.speaking) = true
  ∧ (length (SummarizerPage.awaited SummarizerSample.speaking) ≤ 1)%nat.
Proof.
  split; [reflexivity|]. split; [reflexivity|].
  apply (one_generation_at_a_time Reference.decode None
           Reference.decodeAudioData SummarizerSample.summarizing
           SummarizerSample.speaking summarizing_run).
Defined.
